(** * The micromouse maze of mazerunner-core (maze.h)

    A shallow embedding of the [Maze] class: the wall map, the cost field,
    the flood fill and the direction selector, followed by the properties
    of the specification that concern them.

    Conventions.  A [uint8_t] or [uint16_t] value is a [Z]; the wrap-around
    of a store into a [uint8_t] is written [u8].  The two arrays
    [m_cost[256]] and [m_walls[256]] are lists read with [rd] and written
    with [wr]; every index the class computes is a [uint8_t], hence in
    range.  Directions are the integers [NORTH] .. [WEST]. *)

From Stdlib Require Import ZArith Lia Bool String.
From stdpp Require Import base list list_numbers.

Local Open Scope Z_scope.

(** ** Constants of maze.h *)

Definition MAZE_WIDTH : Z := 16.
Definition GOAL : Z := 0x22.
Definition START : Z := 0x00.

Definition NORTH : Z := 0.
Definition EAST : Z := 1.
Definition SOUTH : Z := 2.
Definition WEST : Z := 3.

Definition VISITED : Z := 0xF0.

Definition INVALID_DIRECTION : Z := 0.
Definition MAX_COST : Z := 255.

(** ** Machine integers and arrays *)

(** Conversion to [uint8_t]. *)
Definition u8 (x : Z) : Z := x mod 256.

(** [a[i]] for an array of bytes. *)
Definition rd (a : list Z) (i : Z) : Z := default 0 (a !! Z.to_nat i).

(** [a[i] = v]. *)
Definition wr (a : list Z) (i v : Z) : list Z := <[Z.to_nat i := v]> a.

(** [a[i] |= bits] and [a[i] &= ~bits], the result stored in a [uint8_t]. *)
Definition or_bits (a : list Z) (i bits : Z) : list Z :=
  wr a i (u8 (Z.lor (rd a i) bits)).

Definition clear_bits (a : list Z) (i bits : Z) : list Z :=
  wr a i (u8 (Z.land (rd a i) (Z.lnot bits))).

(** [for (i = lo; i < lo + n; i++) body], the state threaded through. *)
Definition for_loop {S : Type} (lo : Z) (n : nat) (body : Z -> S -> S) (s : S) : S :=
  fold_left (fun acc i => body i acc) (seqZ lo (Z.of_nat n)) s.

(** ** The [Maze] object *)

Record Maze : Type := mkMaze {
  m_goal : Z;
  m_cost : list Z;
  m_walls : list Z
}.

Definition with_goal (m : Maze) (g : Z) : Maze :=
  mkMaze g (m_cost m) (m_walls m).
Definition with_cost (m : Maze) (c : list Z) : Maze :=
  mkMaze (m_goal m) c (m_walls m).
Definition with_walls (m : Maze) (w : list Z) : Maze :=
  mkMaze (m_goal m) (m_cost m) w.

(** The constructor [Maze()] with the member initialisers. *)
Definition Maze_new : Maze :=
  mkMaze 0x077 (replicate 256 0) (replicate 256 0).

Definition set_maze_goal (m : Maze) (goal_cell : Z) : Maze :=
  with_goal m goal_cell.

Definition maze_goal (m : Maze) : Z := m_goal m.

Definition mark_cell_visited (m : Maze) (cell : Z) : Maze :=
  with_walls m (or_bits (m_walls m) cell VISITED).

Definition cell_is_visited (m : Maze) (cell : Z) : bool :=
  Z.land (rd (m_walls m) cell) VISITED =? VISITED.

Definition is_exit (m : Maze) (cell direction : Z) : bool :=
  Z.land (rd (m_walls m) cell) (Z.shiftl 1 direction) =? 0.

Definition is_wall (m : Maze) (cell direction : Z) : bool :=
  negb (Z.land (rd (m_walls m) cell) (Z.shiftl 1 direction) =? 0).

(** *** Neighbouring cells *)

Definition cell_north (cell : Z) : Z := u8 (cell + 1).
Definition cell_east (cell : Z) : Z := u8 (cell + 16).
Definition cell_south (cell : Z) : Z := u8 (cell + 255).
Definition cell_west (cell : Z) : Z := u8 (cell + 240).

Definition neighbour (cell direction : Z) : Z :=
  let next :=
    if direction =? NORTH then cell_north cell
    else if direction =? EAST then cell_east cell
    else if direction =? SOUTH then cell_south cell
    else if direction =? WEST then cell_west cell
    else MAX_COST in
  u8 next.

(** *** Setting and clearing walls *)

Definition set_wall_present (m : Maze) (cell direction : Z) : Maze :=
  let nextCell := neighbour cell direction in
  if direction =? NORTH then
    let w := or_bits (m_walls m) cell (Z.shiftl 1 NORTH) in
    with_walls m (or_bits w nextCell (Z.shiftl 1 SOUTH))
  else if direction =? EAST then
    let w := or_bits (m_walls m) cell (Z.shiftl 1 EAST) in
    with_walls m (or_bits w nextCell (Z.shiftl 1 WEST))
  else if direction =? SOUTH then
    let w := or_bits (m_walls m) cell (Z.shiftl 1 SOUTH) in
    with_walls m (or_bits w nextCell (Z.shiftl 1 NORTH))
  else if direction =? WEST then
    let w := or_bits (m_walls m) cell (Z.shiftl 1 WEST) in
    with_walls m (or_bits w nextCell (Z.shiftl 1 EAST))
  else m.

Definition set_wall_absent (m : Maze) (cell direction : Z) : Maze :=
  let nextCell := neighbour cell direction in
  if direction =? NORTH then
    let w := clear_bits (m_walls m) cell (Z.shiftl 1 NORTH) in
    with_walls m (clear_bits w nextCell (Z.shiftl 1 SOUTH))
  else if direction =? EAST then
    let w := clear_bits (m_walls m) cell (Z.shiftl 1 EAST) in
    with_walls m (clear_bits w nextCell (Z.shiftl 1 WEST))
  else if direction =? SOUTH then
    let w := clear_bits (m_walls m) cell (Z.shiftl 1 SOUTH) in
    with_walls m (clear_bits w nextCell (Z.shiftl 1 NORTH))
  else if direction =? WEST then
    let w := clear_bits (m_walls m) cell (Z.shiftl 1 WEST) in
    with_walls m (clear_bits w nextCell (Z.shiftl 1 EAST))
  else m.

(** *** Initialisation *)

(** The first loop of [initialise_maze]. *)
Definition clear_maze (m : Maze) : Maze :=
  for_loop 0 256
    (fun i s => with_walls (with_cost s (wr (m_cost s) i 0)) (wr (m_walls s) i 0)) m.

(** The second loop of [initialise_maze]: the boundary walls. *)
Definition place_boundary_walls (m : Maze) : Maze :=
  for_loop 0 16
    (fun i s =>
       let s1 := set_wall_present s (u8 i) WEST in
       let s2 := set_wall_present s1 (u8 (15 * 16 + i)) EAST in
       let s3 := set_wall_present s2 (u8 (i * 16)) SOUTH in
       set_wall_present s3 (u8 (16 * i + 15)) NORTH) m.

Definition initialise_maze (m : Maze) : Maze :=
  let m1 := place_boundary_walls (clear_maze m) in
  let m2 := set_wall_present m1 START EAST in
  set_wall_absent m2 START NORTH.

(** ** The cost field *)

Definition neighbour_cost (m : Maze) (cell direction : Z) : Z :=
  let result := MAX_COST in
  let wallData := rd (m_walls m) cell in
  if direction =? NORTH then
    if Z.land wallData (Z.shiftl 1 NORTH) =? 0
    then rd (m_cost m) (cell_north cell) else result
  else if direction =? EAST then
    if Z.land wallData (Z.shiftl 1 EAST) =? 0
    then rd (m_cost m) (cell_east cell) else result
  else if direction =? SOUTH then
    if Z.land wallData (Z.shiftl 1 SOUTH) =? 0
    then rd (m_cost m) (cell_south cell) else result
  else if direction =? WEST then
    if Z.land wallData (Z.shiftl 1 WEST) =? 0
    then rd (m_cost m) (cell_west cell) else result
  else result.

(** ** The direction selector *)

(** One probe of [direction_to_smallest]: the pair is
    [(smallestCost, smallestDirection)]. *)
Definition probe (m : Maze) (cell nextDirection : Z) (best : Z * Z) : Z * Z :=
  let nextCost := neighbour_cost m cell nextDirection in
  if nextCost <? fst best then (nextCost, nextDirection) else best.

Definition direction_to_smallest (m : Maze) (cell startDirection : Z) : Z :=
  let nextDirection := startDirection in
  let smallestDirection := INVALID_DIRECTION in
  let smallestCost := rd (m_cost m) cell in
  let best := probe m cell nextDirection (smallestCost, smallestDirection) in
  let nextDirection := u8 ((startDirection + 1) mod 4) in
  let best := probe m cell nextDirection best in
  let nextDirection := u8 ((startDirection + 3) mod 4) in
  let best := probe m cell nextDirection best in
  let nextDirection := u8 ((startDirection + 2) mod 4) in
  let best := probe m cell nextDirection best in
  if fst best =? MAX_COST then 0 else snd best.

(** ** The renderer's use of the selector *)

Definition dirChars : string := "^>v<*"%string.

(** The index at which [print_with_directions] reads [dirChars] for a
    cell. *)
Definition glyph_index (m : Maze) (cell : Z) : Z :=
  let direction := direction_to_smallest m cell NORTH in
  if cell =? maze_goal m then 4 else direction.

(** ** The work queue *)

(** Modelled from the spec: the [Queue<uint8_t>] of src/queue.h, which is
    not part of the sources at hand.  The specification describes it as a
    first-in-first-out work queue whose capacity suffices for all 256
    cells: [add] appends at the tail, [head] removes the oldest item and
    returns it, [size] is the number of items waiting. *)
Module Queue.
Definition t : Type := list Z.
Definition empty : t := [].
Definition add (q : t) (item : Z) : t := q ++ [item].
Definition head (q : t) : option (Z * t) :=
  match q with
  | [] => None
  | item :: rest => Some (item, rest)
  end.
Definition size (q : t) : Z := Z.of_nat (length q).
End Queue.

(** ** The flood fill *)

Definition u16 (x : Z) : Z := x mod 65536.

(** The body of the inner [for] loop of [flood_maze]. *)
Definition flood_visit (here newCost direction : Z) (s : Maze * Queue.t)
  : Maze * Queue.t :=
  let m := fst s in
  let queue := snd s in
  if is_exit m here direction then
    let nextCell := neighbour here direction in
    if rd (m_cost m) nextCell >? newCost then
      (with_cost m (wr (m_cost m) nextCell (u8 newCost)), Queue.add queue nextCell)
    else s
  else s.

(** The [while (queue.size() > 0)] loop; [None] when the fuel runs out. *)
Fixpoint flood_loop (fuel : nat) (m : Maze) (queue : Queue.t) : option Maze :=
  match fuel with
  | O => None
  | S fuel' =>
      if Queue.size queue >? 0 then
        match Queue.head queue with
        | None => None
        | Some (here, queue') =>
            let newCost := u16 (rd (m_cost m) here + 1) in
            let s := for_loop 0 4 (flood_visit here newCost) (m, queue') in
            flood_loop fuel' (fst s) (snd s)
        end
      else Some m
  end.

(** More passes than the [while] loop can make: each pass lowers
    [flood_measure], which is below 130562 when the loop is entered (see
    [flood_loop_correct] and [flood_maze_correct]). *)
Definition flood_fuel : nat := Z.to_nat 131072.

Definition flood_maze (m : Maze) (target : Z) : option Maze :=
  let m0 := for_loop 0 256 (fun i s => with_cost s (wr (m_cost s) i MAX_COST)) m in
  let queue := Queue.empty in
  let m1 := with_cost m0 (wr (m_cost m0) target 0) in
  let queue := Queue.add queue target in
  flood_loop flood_fuel m1 queue.

(** ** Vocabulary of the specification *)

(** The grid position of a cell, [cell = row + 16 * column]. *)
Definition row (cell : Z) : Z := cell mod 16.
Definition col (cell : Z) : Z := cell / 16.

Definition manhattan (c target : Z) : Z :=
  Z.abs (row c - row target) + Z.abs (col c - col target).

Definition opposite (d : Z) : Z := (d + 2) mod 4.

Definition is_cell (c : Z) : Prop := 0 <= c < 256.
Definition is_dir (d : Z) : Prop := 0 <= d < 4.

(** [off_grid c d]: side [d] of cell [c] faces out of the 16 x 16 grid, so
    that [neighbour c d] is a wrap-around and not the adjacent cell. *)
Definition off_grid (c d : Z) : bool :=
  ((d =? NORTH) && (row c =? 15)) || ((d =? EAST) && (col c =? 15))
  || ((d =? SOUTH) && (row c =? 0)) || ((d =? WEST) && (col c =? 0)).

(** What the object holds: two arrays of 256 bytes and a byte. *)
Definition is_u8 (x : Z) : Prop := 0 <= x < 256.

Definition bytes256 (a : list Z) : Prop :=
  length a = 256%nat /\ Forall is_u8 a.

Definition wf (m : Maze) : Prop :=
  is_u8 (m_goal m) /\ bytes256 (m_cost m) /\ bytes256 (m_walls m).

Definition bytes256b (a : list Z) : bool :=
  (length a =? 256)%nat && forallb (fun x => (0 <=? x) && (x <? 256)) a.

Definition wfb (m : Maze) : bool :=
  (0 <=? m_goal m) && (m_goal m <? 256)
  && bytes256b (m_cost m) && bytes256b (m_walls m).

(** Both sides of every wall agree. *)
Definition walls_symmetric (m : Maze) : Prop :=
  forall c d, is_cell c -> is_dir d ->
    is_wall m c d = is_wall m (neighbour c d) (opposite d).

(** No wall bit is set. *)
Definition all_open (m : Maze) : Prop :=
  forall c d, is_cell c -> is_dir d -> is_wall m c d = false.

(** Only the perimeter is walled. *)
Definition open_grid (m : Maze) : Prop :=
  forall c d, is_cell c -> is_dir d -> is_wall m c d = off_grid c d.

(** Calls of the two wall mutators. *)
Inductive wall_op : Type :=
| SetPresent (cell direction : Z)
| SetAbsent (cell direction : Z).

Definition apply_op (m : Maze) (op : wall_op) : Maze :=
  match op with
  | SetPresent cell direction => set_wall_present m cell direction
  | SetAbsent cell direction => set_wall_absent m cell direction
  end.

Definition valid_op (op : wall_op) : Prop :=
  match op with
  | SetPresent cell direction | SetAbsent cell direction =>
      is_cell cell /\ is_dir direction
  end.

Definition run_ops (m : Maze) (ops : list wall_op) : Maze :=
  fold_left apply_op ops m.

(** The order in which [direction_to_smallest] probes: ahead, right, left,
    behind. *)
Definition scan_order (startDirection : Z) : list Z :=
  [ startDirection; (startDirection + 1) mod 4;
    (startDirection + 3) mod 4; (startDirection + 2) mod 4 ].

(** Cells the flood can get to: it leaves a cell through a side whose
    wall bit is clear in that cell. *)
Inductive reachable (m : Maze) (target : Z) : Z -> Prop :=
| reach_target : reachable m target target
| reach_step c d :
    reachable m target c -> is_dir d -> is_exit m c d = true ->
    reachable m target (neighbour c d).


(** The wall bytes that [initialise_maze] leaves, as a constant. *)
Definition initial_walls : list Z :=
  Eval vm_compute in m_walls (initialise_maze Maze_new).

Definition initial_maze : Maze := mkMaze 0x077 (replicate 256 0) initial_walls.

(** The walls of a freshly initialised maze, checked cell by cell. *)
Definition boundary_check (m : Maze) (c : Z) : bool :=
  forallb (fun d => implb (off_grid c d) (is_wall m c d)) (seqZ 0 4).

Definition symmetry_check (m : Maze) (c : Z) : bool :=
  forallb (fun d => Bool.eqb (is_wall m c d) (is_wall m (neighbour c d) (opposite d)))
          (seqZ 0 4).


(** ** Invariants of the flood *)

Definition sumZ (a : list Z) : Z := fold_right Z.add 0 a.

(** What is left to do: every pass of the [while] loop lowers it. *)
Definition flood_measure (m : Maze) (queue : Queue.t) : Z :=
  2 * sumZ (m_cost m) + Queue.size queue.

(** No exit of [c] leads to a cell more than one step dearer. *)
Definition relaxed (m : Maze) (c : Z) : Prop :=
  forall d, is_dir d -> is_exit m c d = true ->
    rd (m_cost m) (neighbour c d) <= rd (m_cost m) c + 1.

(** The state of the [while] loop of [flood_maze] started on [m0] for
    [target].  [f] is any lower estimate of the costs that grows by at
    most one along an exit, and [pending] holds of the cell being
    expanded. *)
Record flood_inv (m0 : Maze) (target : Z) (f : Z -> Z) (pending : Z -> Prop)
       (m : Maze) (queue : Queue.t) : Prop := {
  inv_walls : m_walls m = m_walls m0;
  inv_goal : m_goal m = m_goal m0;
  inv_cost : bytes256 (m_cost m);
  inv_queue : Forall (fun h => is_cell h /\ rd (m_cost m) h < 255) queue;
  inv_target : rd (m_cost m) target = 0;
  inv_reach : forall c, is_cell c -> rd (m_cost m) c <> 255 -> reachable m0 target c;
  inv_lower : forall c, is_cell c -> f c <= rd (m_cost m) c;
  inv_relaxed : forall c, is_cell c -> rd (m_cost m) c < 255 ->
                  pending c \/ c ∈ queue \/ relaxed m c
}.

(** The state inside the [for] loop over the directions: [here] is being
    expanded with [newCost], the directions in [done] have been seen. *)
Record visit_inv (m0 : Maze) (target : Z) (f : Z -> Z) (here newCost : Z)
       (done : list Z) (m : Maze) (queue : Queue.t) : Prop := {
  vis_inv : flood_inv m0 target f (fun c => c = here) m queue;
  vis_here : rd (m_cost m) here + 1 = newCost;
  vis_done : forall d, d ∈ done -> is_exit m here d = true ->
               rd (m_cost m) (neighbour here d) <= newCost
}.

(** A lower estimate that the flood respects. *)
Definition lower_estimate (m0 : Maze) (target : Z) (f : Z -> Z) : Prop :=
  f target <= 0
  /\ (forall c, is_cell c -> f c <= 255)
  /\ (forall c d, is_cell c -> is_dir d -> is_exit m0 c d = true ->
        f (neighbour c d) <= f c + 1).

(** ** Mazes used as examples *)

(** Cell 1 carries its four wall bits while its neighbours carry none of
    the matching bits.  The wall mutators never produce this state; it is
    written into the array directly. *)
Definition one_sided_maze : Maze :=
  with_walls Maze_new (wr (m_walls Maze_new) 1 0x0F).

(** The open grid: a fresh maze with the boundary walls placed, its wall
    bytes as a constant. *)
Definition open_walls : list Z :=
  Eval vm_compute in m_walls (place_boundary_walls Maze_new).

Definition open_maze : Maze := mkMaze 0x077 (replicate 256 0) open_walls.

Definition open_grid_check (m : Maze) (c : Z) : bool :=
  forallb (fun d => Bool.eqb (is_wall m c d) (off_grid c d)) (seqZ 0 4).

(** Around cell 0x11 (row 1, column 1, cost 2) the east and the south
    neighbours both have cost 1; every other cost is the sentinel and no
    wall is set. *)
Definition tie_maze : Maze :=
  mkMaze 0x077 (wr (wr (wr (replicate 256 MAX_COST) 0x11 2) 0x21 1) 0x10 1)
         (replicate 256 0).

(** A sequence of wall updates. *)
Definition some_ops : list wall_op :=
  [SetPresent 0x22 EAST; SetAbsent 0x11 NORTH; SetPresent 0x11 WEST;
   SetAbsent 0x22 EAST; SetPresent 0x32 WEST].

(** An initialised maze with the cell at row 5, column 5 closed on its
    four sides. *)
Definition boxed_maze : Maze :=
  run_ops initial_maze
    [SetPresent 0x55 NORTH; SetPresent 0x55 EAST;
     SetPresent 0x55 SOUTH; SetPresent 0x55 WEST].

(** Cell 0x11 (cost 2) with a wall on its north side and the cell behind
    that wall at cost 0; its east and south neighbours are open and cost
    1, its west neighbour is open and holds the sentinel. *)
Definition walled_tie_maze : Maze :=
  set_wall_present
    (mkMaze 0x077
            (wr (wr (wr (wr (replicate 256 MAX_COST) 0x11 2) 0x12 0) 0x21 1) 0x10 1)
            (replicate 256 0))
    0x11 NORTH.

(** ** Further vocabulary *)

(** [touches x e c k]: bit [k] of the wall byte of cell [c] is one of the
    two bits of the wall on side [e] of cell [x]. *)
Definition touches (x e c k : Z) : bool :=
  ((c =? x) && (k =? e)) || ((c =? neighbour x e) && (k =? opposite e)).

(** The wall that a call addresses, and whether it sets or clears. *)
Definition op_cell (op : wall_op) : Z :=
  match op with SetPresent cell _ | SetAbsent cell _ => cell end.
Definition op_direction (op : wall_op) : Z :=
  match op with SetPresent _ direction | SetAbsent _ direction => direction end.
Definition op_sets (op : wall_op) : bool :=
  match op with SetPresent _ _ => true | SetAbsent _ _ => false end.

(** Two calls address the same wall when they name the same side of the
    same cell or the two sides of one wall. *)
Definition same_wall (op1 op2 : wall_op) : Prop :=
  (op_cell op2 = op_cell op1 /\ op_direction op2 = op_direction op1)
  \/ (op_cell op2 = neighbour (op_cell op1) (op_direction op1)
      /\ op_direction op2 = opposite (op_direction op1)).

(** The walls [initialise_maze] leaves: the perimeter, and the wall
    between the start cell and the cell east of it. *)
Definition initial_layout (c d : Z) : bool :=
  off_grid c d || ((c =? START) && (d =? EAST)) || ((c =? 16) && (d =? WEST)).

Definition layout_check (m : Maze) (c : Z) : bool :=
  forallb (fun d => Bool.eqb (is_wall m c d) (initial_layout c d)) (seqZ 0 4)
  && negb (cell_is_visited m c) && (rd (m_cost m) c =? 0).

(** A path of [n] steps from the target: every step leaves a cell through
    one of its exits. *)
Inductive path (m : Maze) (target : Z) : nat -> Z -> Prop :=
| path_0 : path m target 0 target
| path_S n c d :
    path m target n c -> is_dir d -> is_exit m c d = true ->
    path m target (S n) (neighbour c d).

(** [within m target n c]: some path of at most [n] steps ends in [c]. *)
Fixpoint within (m : Maze) (target : Z) (n : nat) (c : Z) : bool :=
  match n with
  | O => c =? target
  | S k =>
      within m target k c
      || existsb (fun d => is_exit m (neighbour c (opposite d)) d
                           && within m target k (neighbour c (opposite d)))
                 (seqZ 0 4)
  end.

(** The first [n] from [start] on, among [fuel] candidates, with
    [within m target n c]. *)
Fixpoint first_within (m : Maze) (target c : Z) (fuel start : nat) : nat :=
  match fuel with
  | O => start
  | S fuel' =>
      if within m target start c then start
      else first_within m target c fuel' (S start)
  end.

(** The length of a shortest path from the target to [c], capped at
    255. *)
Definition dist (m : Maze) (target c : Z) : Z :=
  Z.of_nat (first_within m target c 255 0).

(** A caller that moves, once for every heading given, to the neighbour
    the selector points at. *)
Fixpoint follow (m : Maze) (cell : Z) (headings : list Z) : Z :=
  match headings with
  | [] => cell
  | heading :: rest =>
      follow m (neighbour cell (direction_to_smallest m cell heading)) rest
  end.

(** The initialised maze flooded for [GOAL], and the initialised maze
    with the cell at row 1, column 1 marked visited, as constants. *)
Definition flooded_maze : Maze :=
  Eval vm_compute in
    match flood_maze initial_maze GOAL with
    | Some m' => m'
    | None => initial_maze
    end.

Definition visited_maze : Maze :=
  Eval vm_compute in mark_cell_visited initial_maze 0x11.

Definition same_exits_check (m1 m2 : Maze) (c : Z) : bool :=
  forallb (fun d => Bool.eqb (is_exit m1 c d) (is_exit m2 c d)) (seqZ 0 4).

(** ** The renderer *)

From Stdlib Require Import Ascii.

(** Modelled from the spec: the [console] of src/serial.h, which is not
    part of the sources at hand.  The specification gives it the
    capabilities [print(char)], [print(string)] and [println()]: text is
    appended to the line being written and [println] finishes the line,
    after appending its argument when it has one. *)
Module Console.
Record t : Type := mk { finished : list (list ascii); current : list ascii }.
Definition print (text : list ascii) (o : t) : t :=
  mk (finished o) (current o ++ text).
Definition println (text : list ascii) (o : t) : t :=
  mk (finished o ++ [current o ++ text]) [].
End Console.

(** [for (i = hi; i > hi - n; i--) body]. *)
Definition for_loop_down {S : Type} (hi : Z) (n : nat) (body : Z -> S -> S) (s : S) : S :=
  fold_left (fun acc i => body i acc)
            (reverse (seqZ (hi + 1 - Z.of_nat n) (Z.of_nat n))) s.

(** The rows of posts and horizontal walls; the two source functions
    differ in the direction they query. *)
Definition printNorthWalls (m : Maze) (row : Z) (o : Console.t) : Console.t :=
  let o := for_loop 0 16
    (fun col o =>
       let cell := u8 (row + 16 * col) in
       let o := Console.print ["o"%char] o in
       if is_wall m cell NORTH
       then Console.print (list_ascii_of_string "---") o
       else Console.print (list_ascii_of_string "   ") o) o in
  Console.println ["o"%char] o.

Definition printSouthWalls (m : Maze) (row : Z) (o : Console.t) : Console.t :=
  let o := for_loop 0 16
    (fun col o =>
       let cell := u8 (row + 16 * col) in
       let o := Console.print ["o"%char] o in
       if is_wall m cell SOUTH
       then Console.print (list_ascii_of_string "---") o
       else Console.print (list_ascii_of_string "   ") o) o in
  Console.println ["o"%char] o.

Definition print_plain (m : Maze) (o : Console.t) : Console.t :=
  let o := Console.println [] o in
  let o := for_loop_down 15 16
    (fun row o =>
       let o := printNorthWalls m row o in
       let o := for_loop 0 16
         (fun col o =>
            let cell := u8 (row + 16 * col) in
            if is_exit m cell WEST
            then Console.print (list_ascii_of_string "    ") o
            else Console.print (list_ascii_of_string "|   ") o) o in
       Console.println ["|"%char] o) o in
  let o := printSouthWalls m 0 o in
  Console.println [] o.

(** [dirChars[direction]]; the index is within the string whenever it is
    read (see [glyph_index]). *)
Definition glyph (direction : Z) : ascii :=
  match String.get (Z.to_nat direction) dirChars with
  | Some c => c
  | None => " "%char
  end.

(** [print_with_directions] floods the maze for its goal before it
    prints, so it returns the new maze with the text; [None] when the
    flood runs out of fuel. *)
Definition print_with_directions (m : Maze) (o : Console.t)
  : option (Maze * Console.t) :=
  let o := Console.println [] o in
  match flood_maze m (maze_goal m) with
  | None => None
  | Some m =>
      let o := for_loop_down 15 16
        (fun row o =>
           let o := printNorthWalls m row o in
           let o := for_loop 0 16
             (fun col o =>
                let cell := u8 (row + 16 * col) in
                let o := if is_wall m cell WEST
                         then Console.print ["|"%char] o
                         else Console.print [" "%char] o in
                let direction := glyph_index m cell in
                let o := Console.print [" "%char] o in
                let o := Console.print [glyph direction] o in
                Console.print [" "%char] o) o in
           Console.println ["|"%char] o) o in
      let o := printSouthWalls m 0 o in
      Some (m, Console.println [] o)
  end.

(** The text of the lines, column by column. *)
Definition wall_segment (wall : bool) : list ascii :=
  if wall then list_ascii_of_string "---" else list_ascii_of_string "   ".

Definition wall_row (m : Maze) (row d : Z) : list ascii :=
  concat (map (fun col => "o"%char :: wall_segment (is_wall m (u8 (row + 16 * col)) d))
              (seqZ 0 16))
  ++ ["o"%char].

Definition west_row (m : Maze) (row : Z) : list ascii :=
  concat (map (fun col => (if is_exit m (u8 (row + 16 * col)) WEST
                           then " "%char else "|"%char)
                          :: list_ascii_of_string "   ")
              (seqZ 0 16))
  ++ ["|"%char].

Definition direction_row (m : Maze) (row : Z) : list ascii :=
  concat (map (fun col => [ if is_wall m (u8 (row + 16 * col)) WEST
                            then "|"%char else " "%char;
                            " "%char; glyph (glyph_index m (u8 (row + 16 * col)));
                            " "%char ])
              (seqZ 0 16))
  ++ ["|"%char].

(** The lines [print_plain] and [print_with_directions] write between
    the two [println()] calls: two lines for each row from 15 down to 0,
    then the south walls of row 0. *)
Definition plain_lines (m : Maze) : list (list ascii) :=
  concat (map (fun row => [wall_row m row NORTH; west_row m row])
              (reverse (seqZ 0 16)))
  ++ [wall_row m 0 SOUTH].

Definition direction_lines (m : Maze) : list (list ascii) :=
  concat (map (fun row => [wall_row m row NORTH; direction_row m row])
              (reverse (seqZ 0 16)))
  ++ [wall_row m 0 SOUTH].

(** ** The states of the object *)

(** The mazes a program can hold: it starts from the constructor and
    calls the public member functions that change the object, with
    arguments of their type [uint8_t]. *)
Inductive constructible : Maze -> Prop :=
| made_new : constructible Maze_new
| made_set_maze_goal m goal_cell :
    constructible m -> is_u8 goal_cell -> constructible (set_maze_goal m goal_cell)
| made_mark_cell_visited m cell :
    constructible m -> is_u8 cell -> constructible (mark_cell_visited m cell)
| made_set_wall_present m cell direction :
    constructible m -> is_u8 cell -> is_u8 direction ->
    constructible (set_wall_present m cell direction)
| made_set_wall_absent m cell direction :
    constructible m -> is_u8 cell -> is_u8 direction ->
    constructible (set_wall_absent m cell direction)
| made_initialise_maze m :
    constructible m -> constructible (initialise_maze m)
| made_flood_maze m target m' :
    constructible m -> is_u8 target -> flood_maze m target = Some m' ->
    constructible m'
| made_print_with_directions m o m' o' :
    constructible m -> print_with_directions m o = Some (m', o') ->
    constructible m'.

(** Every side that faces out of the grid is walled. *)
Definition boundary_walled (m : Maze) : Prop :=
  forall c d, is_cell c -> is_dir d -> off_grid c d = true -> is_wall m c d = true.

Definition boundary_check_all (m : Maze) : bool :=
  forallb (boundary_check m) (seqZ 0 256).
(** ** Machine integers and arrays: basic facts *)

Lemma u8_range x : is_u8 (u8 x).
Proof. unfold is_u8, u8. apply Z.mod_pos_bound. lia. Qed.

Lemma u8_id x : is_u8 x -> u8 x = x.
Proof. unfold is_u8, u8. intros H. now apply Z.mod_small. Qed.

Lemma rd_wr_eq (a : list Z) i v :
  length a = 256%nat -> is_cell i -> rd (wr a i v) i = v.
Proof.
  unfold rd, wr, is_cell. intros Hlen Hi.
  rewrite list_lookup_insert_eq by lia. reflexivity.
Qed.

Lemma rd_wr_ne (a : list Z) i j v :
  is_cell i -> is_cell j -> i <> j -> rd (wr a i v) j = rd a j.
Proof.
  unfold rd, wr, is_cell. intros Hi Hj Hne.
  rewrite list_lookup_insert_ne by lia. reflexivity.
Qed.

Lemma rd_wr (a : list Z) i j v :
  length a = 256%nat -> is_cell i -> is_cell j ->
  rd (wr a i v) j = if j =? i then v else rd a j.
Proof.
  intros Hlen Hi Hj. destruct (Z.eqb_spec j i) as [->|Hne].
  - now apply rd_wr_eq.
  - apply rd_wr_ne; auto.
Qed.

Lemma length_wr (a : list Z) i v : length (wr a i v) = length a.
Proof. apply length_insert. Qed.

Lemma rd_is_u8 (a : list Z) i : Forall is_u8 a -> is_u8 (rd a i).
Proof.
  intros Ha. unfold rd. destruct (a !! Z.to_nat i) as [x|] eqn:E; simpl.
  - eapply Forall_lookup_1; eauto.
  - unfold is_u8; lia.
Qed.

Lemma Forall_wr (P : Z -> Prop) (a : list Z) i v :
  Forall P a -> P v -> Forall P (wr a i v).
Proof. intros Ha Hv. unfold wr. now apply Forall_insert. Qed.

Lemma bytes256_wr a i v : bytes256 a -> is_u8 v -> bytes256 (wr a i v).
Proof.
  intros [Hlen Ha] Hv. split.
  - now rewrite length_wr.
  - now apply Forall_wr.
Qed.

Lemma bytes256b_true a : bytes256b a = true -> bytes256 a.
Proof.
  unfold bytes256b, bytes256. intros H.
  apply andb_true_iff in H as [Hlen Hall]. split.
  - now apply Nat.eqb_eq.
  - apply Forall_forall. intros x Hx.
    rewrite forallb_forall in Hall. apply list_elem_of_In in Hx.
    specialize (Hall x Hx). unfold is_u8. lia.
Qed.

Lemma wfb_true m : wfb m = true -> wf m.
Proof.
  unfold wfb, wf. intros H.
  apply andb_true_iff in H as [H Hw]. apply andb_true_iff in H as [H Hc].
  apply andb_true_iff in H as [H0 H1].
  repeat split; try (apply bytes256b_true; assumption); lia.
Qed.

(** A property checked on every cell holds of every cell. *)
Lemma forall_cells (P : Z -> bool) :
  forallb P (seqZ 0 256) = true -> forall c, is_cell c -> P c = true.
Proof.
  intros H c Hc. rewrite forallb_forall in H. apply H.
  apply list_elem_of_In, elem_of_seqZ. unfold is_cell in Hc. lia.
Qed.

Lemma is_exit_is_wall m c d : is_exit m c d = negb (is_wall m c d).
Proof. unfold is_exit, is_wall. now rewrite negb_involutive. Qed.

Lemma is_dir_cases d : is_dir d -> d = 0 \/ d = 1 \/ d = 2 \/ d = 3.
Proof. unfold is_dir. lia. Qed.

Ltac dir_cases d H :=
  let H' := fresh in
  pose proof (is_dir_cases d H) as H';
  destruct H' as [-> | [-> | [-> | ->]]].

(** ** The direction selector *)

Lemma scan_dir_u8 s k : u8 ((s + k) mod 4) = (s + k) mod 4.
Proof.
  apply u8_id. unfold is_u8.
  pose proof (Z.mod_pos_bound (s + k) 4). lia.
Qed.

(** [direction_to_smallest] is the four probes in scan order, then the
    test against the sentinel. *)
Lemma direction_to_smallest_fold m cell s :
  direction_to_smallest m cell s =
  let best := fold_left (fun b d => probe m cell d b) (scan_order s)
                        (rd (m_cost m) cell, INVALID_DIRECTION) in
  if fst best =? MAX_COST then 0 else snd best.
Proof.
  unfold direction_to_smallest, scan_order. rewrite !scan_dir_u8. reflexivity.
Qed.

Lemma neighbour_cost_u8 m cell d : wf m -> is_u8 (neighbour_cost m cell d).
Proof.
  intros (_ & [_ Hc] & _). unfold neighbour_cost.
  repeat match goal with
         | |- context [if ?b then _ else _] => destruct b
         end;
    try (now apply rd_is_u8); unfold is_u8, MAX_COST; lia.
Qed.

Lemma probe_dir m cell d best :
  is_dir d -> is_dir (snd best) -> is_dir (snd (probe m cell d best)).
Proof. intros Hd Hb. unfold probe. now destruct (_ <? _). Qed.

Lemma probe_keep m cell d best :
  fst best <= neighbour_cost m cell d -> probe m cell d best = best.
Proof.
  intros H. unfold probe.
  destruct (Z.ltb_spec (neighbour_cost m cell d) (fst best)); [lia | reflexivity].
Qed.

Lemma probe_take m cell d best :
  neighbour_cost m cell d < fst best ->
  probe m cell d best = (neighbour_cost m cell d, d).
Proof.
  intros H. unfold probe.
  destruct (Z.ltb_spec (neighbour_cost m cell d) (fst best)); [reflexivity | lia].
Qed.

Lemma fold_probe_keep m cell (l : list Z) best :
  (forall e, e ∈ l -> fst best <= neighbour_cost m cell e) ->
  fold_left (fun b d => probe m cell d b) l best = best.
Proof.
  induction l as [|e l IH]; intros H; simpl; [reflexivity|].
  rewrite probe_keep by (apply H; left).
  apply IH. intros e' He'. apply H. now right.
Qed.

(** The probes return the first direction, in the order probed, whose
    neighbour cost is the least, when that cost beats the start value. *)
Lemma fold_probe_first_min m cell (l : list Z) :
  forall (i : nat) d best,
    l !! i = Some d ->
    neighbour_cost m cell d < fst best ->
    (forall e, e ∈ l -> neighbour_cost m cell d <= neighbour_cost m cell e) ->
    (forall (j : nat) e, (j < i)%nat -> l !! j = Some e ->
        neighbour_cost m cell e <> neighbour_cost m cell d) ->
    fold_left (fun b d => probe m cell d b) l best = (neighbour_cost m cell d, d).
Proof.
  induction l as [|e l IH]; intros i d best Hi Hlt Hmin Hfirst.
  - discriminate.
  - destruct i as [|i]; simpl in Hi |- *.
    + injection Hi as ->. rewrite probe_take by assumption.
      apply fold_probe_keep. intros e' He'. simpl. apply Hmin. now right.
    + apply (IH i); auto.
      * unfold probe. destruct (Z.ltb_spec (neighbour_cost m cell e) (fst best)); simpl.
        -- assert (neighbour_cost m cell d <= neighbour_cost m cell e)
             by (apply Hmin; left).
           assert (neighbour_cost m cell e <> neighbour_cost m cell d)
             by (apply (Hfirst 0%nat); [lia | reflexivity]).
           lia.
        -- assumption.
      * intros e' He'. apply Hmin. now right.
      * intros j e' Hj He'. apply (Hfirst (S j)); [lia | exact He'].
Qed.

Lemma scan_order_dirs s e : e ∈ scan_order s -> is_dir s -> is_dir e.
Proof.
  unfold scan_order, is_dir. intros He Hs.
  repeat (apply elem_of_cons in He as [-> | He]);
    try (apply Z.mod_pos_bound; lia); try assumption.
  now apply elem_of_nil in He.
Qed.

Lemma fold_probe_dir m cell (l : list Z) best :
  (forall e, e ∈ l -> is_dir e) -> is_dir (snd best) ->
  is_dir (snd (fold_left (fun b d => probe m cell d b) l best)).
Proof.
  revert best. induction l as [|e l IH]; intros best Hl Hb; simpl; [assumption|].
  apply IH.
  - intros e' He'. apply Hl. now right.
  - apply probe_dir; [apply Hl; left | assumption].
Qed.

(** In terms of [neighbour_cost]: when the direction at some place of the
    scan order has a neighbour cost below the cost of the cell, none of
    the four has a smaller one and none before it has the same, that
    direction is returned. *)
Lemma direction_to_smallest_first_min m cell startDirection (i : nat) d :
  wf m -> is_dir startDirection ->
  scan_order startDirection !! i = Some d ->
  neighbour_cost m cell d < rd (m_cost m) cell ->
  (forall e, e ∈ scan_order startDirection ->
     neighbour_cost m cell d <= neighbour_cost m cell e) ->
  (forall (j : nat) e, (j < i)%nat -> scan_order startDirection !! j = Some e ->
     neighbour_cost m cell e <> neighbour_cost m cell d) ->
  direction_to_smallest m cell startDirection = d.
Proof.
  intros Hwf Hs Hi Hlt Hmin Hfirst.
  rewrite direction_to_smallest_fold. cbv zeta.
  rewrite (fold_probe_first_min m cell (scan_order startDirection) i d); auto.
  simpl. destruct Hwf as (_ & [_ Hc] & _).
  pose proof (rd_is_u8 (m_cost m) cell Hc) as Hu. unfold is_u8 in Hu.
  unfold MAX_COST. destruct (Z.eqb_spec (neighbour_cost m cell d) 255); [lia | reflexivity].
Qed.

Lemma u8_u8 x : u8 (u8 x) = u8 x.
Proof. unfold u8. apply Z.mod_mod. lia. Qed.

(** [neighbour_cost] is the cost of [neighbour cell d] behind an open
    side and the sentinel behind a wall. *)
Lemma neighbour_cost_spec m cell d :
  is_dir d ->
  neighbour_cost m cell d
  = if is_wall m cell d then MAX_COST else rd (m_cost m) (neighbour cell d).
Proof.
  intros Hd.
  unfold neighbour_cost, is_wall, neighbour, NORTH, EAST, SOUTH, WEST.
  dir_cases d Hd; cbn [Z.eqb Pos.eqb];
    unfold cell_north, cell_east, cell_south, cell_west; rewrite u8_u8;
    match goal with
    | |- context [Z.land ?w ?b =? 0] => destruct (Z.land w b =? 0)
    end; reflexivity.
Qed.

(** C4.  Tie-break order of [direction_to_smallest].  Take the open
    sides of the cell whose neighbour costs less than the cell and no
    more than the neighbour behind any other open side.  The function
    returns the first of them in the scan order ahead, right, left,
    behind: the direction [d] at place [i] of the scan order, when no
    open side at an earlier place leads to a neighbour of the same cost.
    With [i = 0]: when ahead is open and improving and no open side is
    cheaper, so also when right is open with the same cost, the result is
    [startDirection].  A side with a wall is never chosen, whatever the
    cost behind it. *)
Theorem direction_to_smallest_tie_break m cell startDirection (i : nat) d :
  wf m -> is_dir startDirection ->
  scan_order startDirection !! i = Some d ->
  is_exit m cell d = true ->
  rd (m_cost m) (neighbour cell d) < rd (m_cost m) cell ->
  (forall e, is_dir e -> is_exit m cell e = true ->
     rd (m_cost m) (neighbour cell d) <= rd (m_cost m) (neighbour cell e)) ->
  (forall (j : nat) e, (j < i)%nat -> scan_order startDirection !! j = Some e ->
     is_exit m cell e = true ->
     rd (m_cost m) (neighbour cell e) <> rd (m_cost m) (neighbour cell d)) ->
  direction_to_smallest m cell startDirection = d.
Proof.
  intros Hwf Hs Hi Hopen Hlt Hmin Hfirst.
  assert (Hd : is_dir d).
  { eapply scan_order_dirs; [|exact Hs]. eapply list_elem_of_lookup_2; eauto. }
  pose proof Hwf as (_ & [_ Hc] & _).
  pose proof (rd_is_u8 (m_cost m) cell Hc) as Hu. unfold is_u8 in Hu.
  assert (Hnd : neighbour_cost m cell d = rd (m_cost m) (neighbour cell d)).
  { rewrite neighbour_cost_spec by assumption.
    rewrite is_exit_is_wall in Hopen. now destruct (is_wall m cell d). }
  assert (Hne : forall e, is_dir e ->
            (is_exit m cell e = false /\ neighbour_cost m cell e = 255)
            \/ (is_exit m cell e = true
                /\ neighbour_cost m cell e = rd (m_cost m) (neighbour cell e))).
  { intros e He. rewrite neighbour_cost_spec, is_exit_is_wall by assumption.
    destruct (is_wall m cell e); [left | right]; split; reflexivity. }
  apply (direction_to_smallest_first_min m cell startDirection i d);
    try assumption.
  - now rewrite Hnd.
  - intros e He. pose proof (scan_order_dirs _ _ He Hs) as Hdir.
    rewrite Hnd. destruct (Hne e Hdir) as [[_ ->] | [Hex ->]]; [lia|].
    now apply Hmin.
  - intros j e Hj Hje.
    assert (Hdir : is_dir e).
    { eapply scan_order_dirs; [|exact Hs]. eapply list_elem_of_lookup_2; eauto. }
    rewrite Hnd. destruct (Hne e Hdir) as [[_ ->] | [Hex ->]]; [lia|].
    now apply (Hfirst j).
Qed.

(** The case singled out by the specification: ahead and right are both
    open, their neighbours have the same cost, that cost improves on the
    cell and no open side is cheaper; the selector goes ahead. *)
Corollary direction_to_smallest_ahead_wins m cell s :
  wf m -> is_dir s ->
  is_exit m cell s = true -> is_exit m cell ((s + 1) mod 4) = true ->
  rd (m_cost m) (neighbour cell s) = rd (m_cost m) (neighbour cell ((s + 1) mod 4)) ->
  rd (m_cost m) (neighbour cell s) < rd (m_cost m) cell ->
  (forall e, is_dir e -> is_exit m cell e = true ->
     rd (m_cost m) (neighbour cell s) <= rd (m_cost m) (neighbour cell e)) ->
  direction_to_smallest m cell s = s.
Proof.
  intros Hwf Hs Hahead _ _ Hlt Hmin.
  pose proof Hwf as (_ & [_ Hc] & _).
  pose proof (rd_is_u8 (m_cost m) cell Hc) as Hu. unfold is_u8 in Hu.
  assert (Hnc : neighbour_cost m cell s = rd (m_cost m) (neighbour cell s)).
  { rewrite neighbour_cost_spec by assumption.
    rewrite is_exit_is_wall in Hahead. now destruct (is_wall m cell s). }
  apply (direction_to_smallest_first_min m cell s 0 s); try assumption.
  - reflexivity.
  - now rewrite Hnc.
  - intros e He. pose proof (scan_order_dirs _ _ He Hs) as Hdir.
    rewrite Hnc, (neighbour_cost_spec m cell e) by assumption.
    destruct (is_wall m cell e) eqn:Hw; [unfold MAX_COST; lia|].
    apply Hmin; [assumption|]. now rewrite is_exit_is_wall, Hw.
  - intros j e Hj. lia.
Qed.

Lemma direction_to_smallest_no_improvement m cell s :
  is_dir s ->
  (forall d, is_dir d -> rd (m_cost m) cell <= neighbour_cost m cell d) ->
  direction_to_smallest m cell s = 0.
Proof.
  intros Hs Hno. rewrite direction_to_smallest_fold. cbv zeta.
  rewrite fold_probe_keep.
  - simpl. now destruct (_ =? _).
  - intros e He. simpl. apply Hno. eapply scan_order_dirs; eauto.
Qed.

(** C6.  When every side of the cell is either walled or leads to a
    neighbour whose cost is not below the cost of the cell, so that no
    probe finds a smaller cost, [direction_to_smallest] returns 0 (NORTH). *)
Theorem direction_to_smallest_fallback m cell startDirection :
  wf m -> is_dir startDirection ->
  (forall d, is_dir d ->
     is_wall m cell d = true
     \/ rd (m_cost m) cell <= rd (m_cost m) (neighbour cell d)) ->
  direction_to_smallest m cell startDirection = 0.
Proof.
  intros Hwf Hs Hno. apply direction_to_smallest_no_improvement; [assumption|].
  intros d Hd. rewrite neighbour_cost_spec by assumption.
  destruct Hwf as (_ & [_ Hc] & _).
  pose proof (rd_is_u8 (m_cost m) cell Hc) as Hu. unfold is_u8 in Hu.
  destruct (Hno d Hd) as [Hwall | Hle].
  - rewrite Hwall. unfold MAX_COST. lia.
  - destruct (is_wall m cell d); [unfold MAX_COST; lia | assumption].
Qed.

(** C9.  [direction_to_smallest] returns one of the four directions,
    never the value 4 that the renderer keeps for the goal; the index at
    which [print_with_directions] reads [dirChars] is therefore within its
    five glyphs. *)
Theorem direction_to_smallest_is_dir m cell startDirection :
  is_dir startDirection ->
  0 <= direction_to_smallest m cell startDirection < 4
  /\ 0 <= glyph_index m cell < Z.of_nat (String.length dirChars).
Proof.
  intros Hs.
  assert (Hdir : forall s, is_dir s -> 0 <= direction_to_smallest m cell s < 4).
  { intros s Hs'. rewrite direction_to_smallest_fold. cbv zeta.
    destruct (_ =? _); [lia|].
    apply fold_probe_dir.
    - intros e He. eapply scan_order_dirs; eauto.
    - simpl. unfold INVALID_DIRECTION, is_dir. lia. }
  split; [now apply Hdir|].
  unfold glyph_index. change (Z.of_nat (String.length dirChars)) with 5.
  destruct (_ =? _); [lia|].
  assert (HN : is_dir NORTH) by (unfold is_dir, NORTH; lia).
  specialize (Hdir NORTH HN). lia.
Qed.

(** ** Wall bits *)

Lemma land_shiftl_1_eqb w d :
  0 <= d -> (Z.land w (Z.shiftl 1 d) =? 0) = negb (Z.testbit w d).
Proof.
  intros Hd. rewrite Z.shiftl_1_l.
  destruct (Z.testbit w d) eqn:Hb; simpl.
  - apply Z.eqb_neq. intros H0.
    assert (Hc : Z.testbit (Z.land w (2 ^ d)) d = true)
      by (rewrite Z.land_spec, Hb, Z.pow2_bits_true; auto).
    rewrite H0, Z.bits_0 in Hc. discriminate.
  - apply Z.eqb_eq. apply Z.bits_inj'. intros n Hn.
    rewrite Z.land_spec, Z.bits_0, Z.pow2_bits_eqb by assumption.
    destruct (Z.eqb_spec d n) as [->|]; [now rewrite Hb | apply andb_false_r].
Qed.

Lemma is_wall_testbit m c d :
  0 <= d -> is_wall m c d = Z.testbit (rd (m_walls m) c) d.
Proof.
  intros Hd. unfold is_wall. rewrite land_shiftl_1_eqb by assumption.
  apply negb_involutive.
Qed.

Lemma testbit_u8 x d : 0 <= d < 8 -> Z.testbit (u8 x) d = Z.testbit x d.
Proof.
  intros Hd. unfold u8. change 256 with (2 ^ 8).
  apply Z.mod_pow2_bits_low. lia.
Qed.

Lemma testbit_set w e d :
  0 <= d < 8 -> 0 <= e ->
  Z.testbit (u8 (Z.lor w (Z.shiftl 1 e))) d = Z.testbit w d || (d =? e).
Proof.
  intros Hd He. rewrite testbit_u8, Z.lor_spec, Z.shiftl_1_l by assumption.
  rewrite Z.pow2_bits_eqb by assumption. now rewrite (Z.eqb_sym e d).
Qed.

Lemma testbit_clear w e d :
  0 <= d < 8 -> 0 <= e ->
  Z.testbit (u8 (Z.land w (Z.lnot (Z.shiftl 1 e)))) d
  = Z.testbit w d && negb (d =? e).
Proof.
  intros Hd He. rewrite testbit_u8, Z.land_spec, Z.lnot_spec by lia.
  rewrite Z.shiftl_1_l, Z.pow2_bits_eqb by assumption.
  now rewrite (Z.eqb_sym e d).
Qed.

(** The bits of [VISITED] survive [|= 1 << e] and [&= ~(1 << e)] for a
    direction [e]. *)
Lemma visited_bits_set w e :
  is_dir e -> Z.land (u8 (Z.lor w (Z.shiftl 1 e))) VISITED = Z.land w VISITED.
Proof.
  intros He. unfold u8. change 256 with (2 ^ 8).
  rewrite <- Z.land_ones by lia. rewrite <- Z.land_assoc.
  change (Z.land (Z.ones 8) VISITED) with VISITED.
  rewrite Z.land_lor_distr_l.
  dir_cases e He; apply Z.lor_0_r.
Qed.

Lemma visited_bits_clear w e :
  is_dir e ->
  Z.land (u8 (Z.land w (Z.lnot (Z.shiftl 1 e)))) VISITED = Z.land w VISITED.
Proof.
  intros He. unfold u8. change 256 with (2 ^ 8).
  rewrite <- Z.land_ones by lia. rewrite <- !Z.land_assoc.
  change (Z.land (Z.ones 8) VISITED) with VISITED.
  dir_cases e He; reflexivity.
Qed.

Lemma rd_or_bits (a : list Z) i j bits :
  length a = 256%nat -> is_cell i -> is_cell j ->
  rd (or_bits a i bits) j = if j =? i then u8 (Z.lor (rd a i) bits) else rd a j.
Proof. intros. unfold or_bits. now apply rd_wr. Qed.

Lemma rd_clear_bits (a : list Z) i j bits :
  length a = 256%nat -> is_cell i -> is_cell j ->
  rd (clear_bits a i bits) j
  = if j =? i then u8 (Z.land (rd a i) (Z.lnot bits)) else rd a j.
Proof. intros. unfold clear_bits. now apply rd_wr. Qed.

Lemma length_or_bits (a : list Z) i bits : length (or_bits a i bits) = length a.
Proof. apply length_wr. Qed.

Lemma length_clear_bits (a : list Z) i bits : length (clear_bits a i bits) = length a.
Proof. apply length_wr. Qed.

Lemma bytes256_or_bits a i bits : bytes256 a -> bytes256 (or_bits a i bits).
Proof. intros. apply bytes256_wr; [assumption | apply u8_range]. Qed.

Lemma bytes256_clear_bits a i bits : bytes256 a -> bytes256 (clear_bits a i bits).
Proof. intros. apply bytes256_wr; [assumption | apply u8_range]. Qed.

(** ** Neighbours *)

Lemma neighbour_is_cell c d : is_cell (neighbour c d).
Proof. apply u8_range. Qed.

Lemma opposite_is_dir d : is_dir (opposite d).
Proof. unfold opposite, is_dir. apply Z.mod_pos_bound. lia. Qed.

Lemma opposite_involutive d : is_dir d -> opposite (opposite d) = d.
Proof. intros Hd. dir_cases d Hd; reflexivity. Qed.

Lemma neighbour_north c : neighbour c 0 = (c + 1) mod 256.
Proof. unfold neighbour, cell_north, u8. simpl. apply Z.mod_mod. lia. Qed.

Lemma neighbour_east c : neighbour c 1 = (c + 16) mod 256.
Proof. unfold neighbour, cell_east, u8. simpl. apply Z.mod_mod. lia. Qed.

Lemma neighbour_south c : neighbour c 2 = (c + 255) mod 256.
Proof. unfold neighbour, cell_south, u8. simpl. apply Z.mod_mod. lia. Qed.

Lemma neighbour_west c : neighbour c 3 = (c + 240) mod 256.
Proof. unfold neighbour, cell_west, u8. simpl. apply Z.mod_mod. lia. Qed.

Ltac neighbour_norm :=
  change (opposite 0) with 2 in *; change (opposite 1) with 3 in *;
  change (opposite 2) with 0 in *; change (opposite 3) with 1 in *;
  rewrite ?neighbour_north, ?neighbour_east, ?neighbour_south, ?neighbour_west in *.

Lemma neighbour_ne c d : is_cell c -> is_dir d -> neighbour c d <> c.
Proof.
  unfold is_cell. intros Hc Hd.
  dir_cases d Hd; neighbour_norm; Z.to_euclidean_division_equations; lia.
Qed.

Lemma neighbour_opposite c d :
  is_cell c -> is_dir d -> neighbour (neighbour c d) (opposite d) = c.
Proof.
  unfold is_cell. intros Hc Hd.
  dir_cases d Hd; neighbour_norm; Z.to_euclidean_division_equations; lia.
Qed.

(** ** The wall mutators *)

Lemma set_wall_present_eq m x e :
  is_dir e ->
  set_wall_present m x e =
  with_walls m (or_bits (or_bits (m_walls m) x (Z.shiftl 1 e))
                        (neighbour x e) (Z.shiftl 1 (opposite e))).
Proof. intros He. dir_cases e He; reflexivity. Qed.

Lemma set_wall_absent_eq m x e :
  is_dir e ->
  set_wall_absent m x e =
  with_walls m (clear_bits (clear_bits (m_walls m) x (Z.shiftl 1 e))
                           (neighbour x e) (Z.shiftl 1 (opposite e))).
Proof. intros He. dir_cases e He; reflexivity. Qed.

Lemma set_wall_present_invalid m x e : ~ is_dir e -> set_wall_present m x e = m.
Proof.
  unfold is_dir, set_wall_present, NORTH, EAST, SOUTH, WEST. intros He.
  repeat match goal with
         | |- context [?a =? ?b] => destruct (Z.eqb_spec a b); [lia|]
         end.
  reflexivity.
Qed.

Lemma set_wall_absent_invalid m x e : ~ is_dir e -> set_wall_absent m x e = m.
Proof.
  unfold is_dir, set_wall_absent, NORTH, EAST, SOUTH, WEST. intros He.
  repeat match goal with
         | |- context [?a =? ?b] => destruct (Z.eqb_spec a b); [lia|]
         end.
  reflexivity.
Qed.

Lemma is_wall_set_wall_present m x e c d :
  length (m_walls m) = 256%nat ->
  is_cell x -> is_dir e -> is_cell c -> is_dir d ->
  is_wall (set_wall_present m x e) c d
  = ((c =? x) && (d =? e)) || ((c =? neighbour x e) && (d =? opposite e))
    || is_wall m c d.
Proof.
  intros Hlen Hx He Hc Hd.
  pose proof (neighbour_is_cell x e) as Hn.
  pose proof (neighbour_ne x e Hx He) as Hne.
  pose proof (opposite_is_dir e) as Ho.
  assert (Hd8 : 0 <= d < 8) by (unfold is_dir in Hd; lia).
  rewrite set_wall_present_eq by assumption.
  rewrite !is_wall_testbit by (unfold is_dir in Hd; lia).
  cbn [m_walls with_walls].
  rewrite !rd_or_bits by (rewrite ?length_or_bits; assumption).
  destruct (Z.eqb_spec c (neighbour x e)) as [->|Hcn].
  - destruct (Z.eqb_spec (neighbour x e) x) as [|_]; [contradiction|].
    rewrite testbit_set by (unfold is_dir in Ho; lia).
    cbn [andb orb]. apply orb_comm.
  - destruct (Z.eqb_spec c x) as [->|Hcx].
    + rewrite testbit_set by (unfold is_dir in He; lia).
      cbn [andb orb]. rewrite orb_false_r. apply orb_comm.
    + reflexivity.
Qed.

Lemma is_wall_set_wall_absent m x e c d :
  length (m_walls m) = 256%nat ->
  is_cell x -> is_dir e -> is_cell c -> is_dir d ->
  is_wall (set_wall_absent m x e) c d
  = negb (((c =? x) && (d =? e)) || ((c =? neighbour x e) && (d =? opposite e)))
    && is_wall m c d.
Proof.
  intros Hlen Hx He Hc Hd.
  pose proof (neighbour_is_cell x e) as Hn.
  pose proof (neighbour_ne x e Hx He) as Hne.
  pose proof (opposite_is_dir e) as Ho.
  assert (Hd8 : 0 <= d < 8) by (unfold is_dir in Hd; lia).
  rewrite set_wall_absent_eq by assumption.
  rewrite !is_wall_testbit by (unfold is_dir in Hd; lia).
  cbn [m_walls with_walls].
  rewrite !rd_clear_bits by (rewrite ?length_clear_bits; assumption).
  destruct (Z.eqb_spec c (neighbour x e)) as [->|Hcn].
  - destruct (Z.eqb_spec (neighbour x e) x) as [|_]; [contradiction|].
    rewrite testbit_clear by (unfold is_dir in Ho; lia).
    cbn [andb orb]. apply andb_comm.
  - destruct (Z.eqb_spec c x) as [->|Hcx].
    + rewrite testbit_clear by (unfold is_dir in He; lia).
      cbn [andb orb]. rewrite orb_false_r. apply andb_comm.
    + reflexivity.
Qed.

Lemma wf_set_wall_present m x e : wf m -> wf (set_wall_present m x e).
Proof.
  intros (Hg & Hc & Hw). unfold set_wall_present.
  repeat match goal with
         | |- context [if ?b then _ else _] => destruct b
         end;
    first [ exact (conj Hg (conj Hc Hw))
          | split; [exact Hg | split; [exact Hc |]];
            apply bytes256_or_bits, bytes256_or_bits, Hw ].
Qed.

Lemma wf_set_wall_absent m x e : wf m -> wf (set_wall_absent m x e).
Proof.
  intros (Hg & Hc & Hw). unfold set_wall_absent.
  repeat match goal with
         | |- context [if ?b then _ else _] => destruct b
         end;
    first [ exact (conj Hg (conj Hc Hw))
          | split; [exact Hg | split; [exact Hc |]];
            apply bytes256_clear_bits, bytes256_clear_bits, Hw ].
Qed.

(** The pair of wall bits that one call touches is closed under "the same
    wall seen from the other side". *)
Lemma touched_pair_symmetric x e c d :
  is_cell x -> is_dir e -> is_cell c -> is_dir d ->
  ((c =? x) && (d =? e)) || ((c =? neighbour x e) && (d =? opposite e))
  = ((neighbour c d =? x) && (opposite d =? e))
    || ((neighbour c d =? neighbour x e) && (opposite d =? opposite e)).
Proof.
  intros Hx He Hc Hd. apply eq_iff_eq_true.
  rewrite !orb_true_iff, !andb_true_iff, !Z.eqb_eq. split.
  - intros [[-> ->] | [-> ->]].
    + right. split; reflexivity.
    + left. split; [now apply neighbour_opposite | now apply opposite_involutive].
  - intros [[H1 H2] | [H1 H2]].
    + right. subst x e.
      rewrite neighbour_opposite, opposite_involutive by assumption. auto.
    + left.
      assert (Hde : d = e).
      { rewrite <- (opposite_involutive d), <- (opposite_involutive e) by assumption.
        now rewrite H2. }
      subst e. split; [|reflexivity].
      rewrite <- (neighbour_opposite c d), <- (neighbour_opposite x d) by assumption.
      now rewrite H1.
Qed.

Lemma walls_symmetric_set_wall_present m x e :
  length (m_walls m) = 256%nat -> is_cell x -> is_dir e ->
  walls_symmetric m -> walls_symmetric (set_wall_present m x e).
Proof.
  intros Hlen Hx He Hsym c d Hc Hd.
  rewrite !is_wall_set_wall_present
    by auto using neighbour_is_cell, opposite_is_dir.
  rewrite <- touched_pair_symmetric by assumption.
  now rewrite (Hsym c d).
Qed.

Lemma walls_symmetric_set_wall_absent m x e :
  length (m_walls m) = 256%nat -> is_cell x -> is_dir e ->
  walls_symmetric m -> walls_symmetric (set_wall_absent m x e).
Proof.
  intros Hlen Hx He Hsym c d Hc Hd.
  rewrite !is_wall_set_wall_absent
    by auto using neighbour_is_cell, opposite_is_dir.
  rewrite <- touched_pair_symmetric by assumption.
  now rewrite (Hsym c d).
Qed.

(** ** Loops over the arrays *)

Lemma for_loop_S {St : Type} lo n (body : Z -> St -> St) (s : St) :
  for_loop lo (S n) body s = body (lo + Z.of_nat n) (for_loop lo n body s).
Proof.
  unfold for_loop. rewrite Nat2Z.inj_succ.
  replace (Z.succ (Z.of_nat n)) with (Z.of_nat n + 1) by lia.
  rewrite seqZ_app by lia. rewrite fold_left_app.
  rewrite (seqZ_cons _ 1) by lia. rewrite seqZ_nil by lia. reflexivity.
Qed.

(** Writing [v] at index [n] once the first [n] entries hold [v]. *)
Lemma fill_step (a : list Z) v n :
  (n < length a)%nat ->
  wr (replicate n v ++ drop n a) (0 + Z.of_nat n) v
  = replicate (S n) v ++ drop (S n) a.
Proof.
  intros Hn. unfold wr. rewrite Z.add_0_l, Nat2Z.id.
  rewrite insert_app_r_alt by (rewrite length_replicate; lia).
  rewrite length_replicate, Nat.sub_diag.
  destruct (lookup_lt_is_Some_2 a n Hn) as [x Hx].
  rewrite (drop_S a x n Hx). cbn [insert list_insert].
  rewrite replicate_S_end, <- app_assoc. reflexivity.
Qed.

Lemma fill_done (a : list Z) v :
  length a = 256%nat -> replicate 256 v ++ drop 256 a = replicate 256 v.
Proof. intros Hlen. rewrite drop_ge by lia. apply app_nil_r. Qed.

Lemma clear_maze_prefix m n :
  length (m_cost m) = 256%nat -> length (m_walls m) = 256%nat ->
  (n <= 256)%nat ->
  for_loop 0 n
    (fun i s => with_walls (with_cost s (wr (m_cost s) i 0)) (wr (m_walls s) i 0)) m
  = mkMaze (m_goal m) (replicate n 0 ++ drop n (m_cost m))
           (replicate n 0 ++ drop n (m_walls m)).
Proof.
  intros Hc Hw. induction n as [|n IH]; intros Hn.
  - destruct m; reflexivity.
  - rewrite for_loop_S, IH by lia.
    unfold with_walls, with_cost. cbn [m_goal m_cost m_walls].
    rewrite !fill_step by lia. reflexivity.
Qed.

Lemma clear_maze_eq m :
  wf m -> clear_maze m = mkMaze (m_goal m) (replicate 256 0) (replicate 256 0).
Proof.
  intros (_ & [Hc _] & [Hw _]). unfold clear_maze.
  rewrite clear_maze_prefix by (assumption || lia).
  now rewrite !fill_done.
Qed.

(** Initialisation does not look at the old arrays. *)
Lemma initialise_maze_eq m :
  wf m -> initialise_maze m = mkMaze (m_goal m) (replicate 256 0) initial_walls.
Proof.
  intros Hwf. unfold initialise_maze. rewrite clear_maze_eq by assumption.
  generalize (m_goal m). intros g. vm_compute. reflexivity.
Qed.

Lemma is_wall_initialise_maze m c d :
  wf m -> is_wall (initialise_maze m) c d = is_wall initial_maze c d.
Proof. intros Hwf. now rewrite initialise_maze_eq. Qed.

Lemma wf_Maze_new : wf Maze_new.
Proof. apply wfb_true. vm_compute. reflexivity. Qed.

Lemma wf_initialise_maze m : wf m -> wf (initialise_maze m).
Proof.
  intros Hwf. rewrite initialise_maze_eq by assumption.
  destruct Hwf as (Hg & _). split; [exact Hg|].
  split; apply bytes256b_true; vm_compute; reflexivity.
Qed.

Lemma forall_dirs (P : Z -> bool) :
  forallb P (seqZ 0 4) = true -> forall d, is_dir d -> P d = true.
Proof.
  intros H d Hd. rewrite forallb_forall in H. apply H.
  apply list_elem_of_In, elem_of_seqZ. unfold is_dir in Hd. lia.
Qed.

Lemma initialise_maze_off_grid m c d :
  wf m -> is_cell c -> is_dir d -> off_grid c d = true ->
  is_wall (initialise_maze m) c d = true.
Proof.
  intros Hwf Hc Hd Hoff. rewrite is_wall_initialise_maze by assumption.
  assert (Hall : forallb (boundary_check initial_maze) (seqZ 0 256) = true)
    by (vm_compute; reflexivity).
  pose proof (forall_dirs _ (forall_cells _ Hall c Hc) d Hd) as H.
  cbv beta in H. rewrite Hoff in H. exact H.
Qed.

Lemma walls_symmetric_initialise_maze m :
  wf m -> walls_symmetric (initialise_maze m).
Proof.
  intros Hwf c d Hc Hd. rewrite !is_wall_initialise_maze by assumption.
  assert (Hall : forallb (symmetry_check initial_maze) (seqZ 0 256) = true)
    by (vm_compute; reflexivity).
  pose proof (forall_dirs _ (forall_cells _ Hall c Hc) d Hd) as H.
  cbv beta in H. now apply Bool.eqb_prop in H.
Qed.

Lemma rd_replicate_0 n i : rd (replicate n 0) i = 0.
Proof.
  unfold rd. destruct (replicate n 0 !! Z.to_nat i) as [x|] eqn:E; simpl.
  - now apply lookup_replicate_1 in E.
  - reflexivity.
Qed.

Lemma walls_symmetric_all_open m : all_open m -> walls_symmetric m.
Proof.
  intros H c d Hc Hd.
  rewrite !H by auto using neighbour_is_cell, opposite_is_dir. reflexivity.
Qed.

Lemma all_open_Maze_new : all_open Maze_new.
Proof.
  intros c d _ _. unfold is_wall, Maze_new. cbn [m_walls].
  now rewrite rd_replicate_0.
Qed.

Lemma run_ops_symmetric ops : forall m,
  length (m_walls m) = 256%nat -> walls_symmetric m -> Forall valid_op ops ->
  walls_symmetric (run_ops m ops).
Proof.
  induction ops as [|op ops IH]; intros m Hlen Hsym Hops; [exact Hsym|].
  apply Forall_cons in Hops as [Hop Hops]. cbn [run_ops fold_left].
  apply IH; [| |assumption].
  - destruct op as [x e|x e]; destruct Hop as [Hx He]; cbn [apply_op].
    + rewrite set_wall_present_eq by assumption.
      cbn [m_walls with_walls]. now rewrite !length_or_bits.
    + rewrite set_wall_absent_eq by assumption.
      cbn [m_walls with_walls]. now rewrite !length_clear_bits.
  - destruct op as [x e|x e]; destruct Hop as [Hx He]; cbn [apply_op].
    + now apply walls_symmetric_set_wall_present.
    + now apply walls_symmetric_set_wall_absent.
Qed.

(** ** Properties of the wall map *)

(** C2.  Wall symmetry.  Start from a maze without any wall or from an
    initialised maze, and make any sequence of [set_wall_present]
    and [set_wall_absent] calls on cells with directions 0..3.  Then for
    every cell [c] and direction [d] whose neighbour is the adjacent cell
    of the grid, [c] has a wall on side [d] exactly when the neighbour has
    one on the opposite side. *)
Theorem wall_symmetry m0 ops c d :
  (wf m0 /\ all_open m0) \/ (exists m, wf m /\ m0 = initialise_maze m) ->
  Forall valid_op ops ->
  is_cell c -> is_dir d -> off_grid c d = false ->
  is_wall (run_ops m0 ops) c d
  = is_wall (run_ops m0 ops) (neighbour c d) (opposite d).
Proof.
  intros Hstart Hops Hc Hd _.
  apply run_ops_symmetric; try assumption.
  - destruct Hstart as [[Hwf _] | (m & Hwf & ->)].
    + apply Hwf.
    + apply wf_initialise_maze in Hwf. apply Hwf.
  - destruct Hstart as [[_ H0] | (m & Hwf & ->)].
    + now apply walls_symmetric_all_open.
    + now apply walls_symmetric_initialise_maze.
Qed.

(** C3 as the code has it.  A freshly constructed maze has goal cell
    0x77 = 119, which is row 7, column 7.  The macro [GOAL] is the cell
    0x22 = 34 at row 2, column 2; it is the goal once [set_maze_goal] has
    been called with it.  The start cell is cell 0. *)
Theorem default_goal :
  maze_goal Maze_new = 0x77
  /\ row (maze_goal Maze_new) = 7 /\ col (maze_goal Maze_new) = 7
  /\ GOAL = 34 /\ row GOAL = 2 /\ col GOAL = 2
  /\ maze_goal (set_maze_goal Maze_new GOAL) = GOAL
  /\ START = 0.
Proof.
  unfold maze_goal, set_maze_goal, with_goal, Maze_new, GOAL, START, row, col.
  cbn [m_goal]. repeat split.
Qed.

(** C3 as stated fails: the goal of a fresh maze is not the cell at row 2,
    column 2. *)
Lemma default_goal_is_not_0x22 :
  ~ (maze_goal Maze_new = 0x22
     /\ row (maze_goal Maze_new) = 2 /\ col (maze_goal Maze_new) = 2).
Proof. intros [H _]. discriminate H. Qed.

(** C5.  After [initialise_maze] every cell on the perimeter has the wall
    bit of its outward side set: WEST in column 0, EAST in column 15,
    SOUTH in row 0, NORTH in row 15.  The start cell 0 has a wall to the
    east and none to the north. *)
Theorem initialise_maze_boundary m :
  wf m ->
  (forall c, is_cell c ->
     (col c = 0 -> is_wall (initialise_maze m) c WEST = true)
     /\ (col c = 15 -> is_wall (initialise_maze m) c EAST = true)
     /\ (row c = 0 -> is_wall (initialise_maze m) c SOUTH = true)
     /\ (row c = 15 -> is_wall (initialise_maze m) c NORTH = true))
  /\ is_wall (initialise_maze m) START EAST = true
  /\ is_wall (initialise_maze m) START NORTH = false.
Proof.
  intros Hwf. split; [|split].
  - intros c Hc.
    repeat split; intros H;
      apply initialise_maze_off_grid; auto; try (unfold is_dir; vm_compute; intuition discriminate);
      unfold off_grid; rewrite H; reflexivity.
  - rewrite is_wall_initialise_maze by assumption. reflexivity.
  - rewrite is_wall_initialise_maze by assumption. reflexivity.
Qed.

(** C7.  With a direction outside 0..3 the two wall mutators return the
    maze they were given: walls, costs and goal are all unchanged. *)
Theorem set_wall_invalid_direction m cell direction :
  ~ (0 <= direction < 4) ->
  set_wall_present m cell direction = m
  /\ set_wall_absent m cell direction = m.
Proof.
  intros Hd. split.
  - now apply set_wall_present_invalid.
  - now apply set_wall_absent_invalid.
Qed.

Lemma set_wall_present_frame m cell direction :
  wf m -> is_cell cell -> is_dir direction ->
  let m' := set_wall_present m cell direction in
  m_goal m' = m_goal m /\ m_cost m' = m_cost m
  /\ (forall c, is_cell c -> c <> cell -> c <> neighbour cell direction ->
        rd (m_walls m') c = rd (m_walls m) c)
  /\ (forall c, is_cell c ->
        Z.land (rd (m_walls m') c) VISITED = Z.land (rd (m_walls m) c) VISITED).
Proof.
  intros (_ & _ & [Hlen _]) Hx He m'. subst m'.
  pose proof (neighbour_is_cell cell direction) as Hn.
  pose proof (opposite_is_dir direction) as Ho.
  rewrite set_wall_present_eq by assumption. cbn [m_goal m_cost m_walls with_walls].
  split; [reflexivity | split; [reflexivity | split]]; intros c Hc.
  - intros H1 H2. rewrite !rd_or_bits by (rewrite ?length_or_bits; assumption).
    destruct (Z.eqb_spec c (neighbour cell direction)); [contradiction|].
    destruct (Z.eqb_spec c cell); [contradiction | reflexivity].
  - rewrite !rd_or_bits by (rewrite ?length_or_bits; assumption).
    destruct (Z.eqb_spec c (neighbour cell direction)) as [->|].
    + rewrite visited_bits_set by assumption.
      destruct (Z.eqb_spec (neighbour cell direction) cell) as [->|]; [|reflexivity].
      now apply visited_bits_set.
    + destruct (Z.eqb_spec c cell) as [->|]; [|reflexivity].
      now apply visited_bits_set.
Qed.

Lemma set_wall_absent_frame m cell direction :
  wf m -> is_cell cell -> is_dir direction ->
  let m' := set_wall_absent m cell direction in
  m_goal m' = m_goal m /\ m_cost m' = m_cost m
  /\ (forall c, is_cell c -> c <> cell -> c <> neighbour cell direction ->
        rd (m_walls m') c = rd (m_walls m) c)
  /\ (forall c, is_cell c ->
        Z.land (rd (m_walls m') c) VISITED = Z.land (rd (m_walls m) c) VISITED).
Proof.
  intros (_ & _ & [Hlen _]) Hx He m'. subst m'.
  pose proof (neighbour_is_cell cell direction) as Hn.
  pose proof (opposite_is_dir direction) as Ho.
  rewrite set_wall_absent_eq by assumption. cbn [m_goal m_cost m_walls with_walls].
  split; [reflexivity | split; [reflexivity | split]]; intros c Hc.
  - intros H1 H2. rewrite !rd_clear_bits by (rewrite ?length_clear_bits; assumption).
    destruct (Z.eqb_spec c (neighbour cell direction)); [contradiction|].
    destruct (Z.eqb_spec c cell); [contradiction | reflexivity].
  - rewrite !rd_clear_bits by (rewrite ?length_clear_bits; assumption).
    destruct (Z.eqb_spec c (neighbour cell direction)) as [->|].
    + rewrite visited_bits_clear by assumption.
      destruct (Z.eqb_spec (neighbour cell direction) cell) as [->|]; [|reflexivity].
      now apply visited_bits_clear.
    + destruct (Z.eqb_spec c cell) as [->|]; [|reflexivity].
      now apply visited_bits_clear.
Qed.

(** C10.  Frame of the wall mutators.  A call of [set_wall_present] or
    [set_wall_absent] with a direction 0..3 leaves the goal and the whole
    cost array as they were, leaves the wall byte of every cell other than
    [cell] and [neighbour cell direction] as it was, and leaves the
    visited bits (the high four bits) of every wall byte, hence every
    visited flag, as they were. *)
Theorem set_wall_frame m cell direction m' :
  wf m -> is_cell cell -> is_dir direction ->
  m' = set_wall_present m cell direction \/ m' = set_wall_absent m cell direction ->
  m_goal m' = m_goal m /\ m_cost m' = m_cost m
  /\ (forall c, is_cell c -> c <> cell -> c <> neighbour cell direction ->
        rd (m_walls m') c = rd (m_walls m) c)
  /\ (forall c, is_cell c ->
        Z.land (rd (m_walls m') c) VISITED = Z.land (rd (m_walls m) c) VISITED)
  /\ (forall c, is_cell c -> cell_is_visited m' c = cell_is_visited m c).
Proof.
  intros Hwf Hx He Hm'.
  assert (H : m_goal m' = m_goal m /\ m_cost m' = m_cost m
    /\ (forall c, is_cell c -> c <> cell -> c <> neighbour cell direction ->
          rd (m_walls m') c = rd (m_walls m) c)
    /\ (forall c, is_cell c ->
          Z.land (rd (m_walls m') c) VISITED = Z.land (rd (m_walls m) c) VISITED)).
  { destruct Hm' as [-> | ->].
    - now apply set_wall_present_frame.
    - now apply set_wall_absent_frame. }
  destruct H as (Hg & Hc & Hother & Hvis).
  repeat split; try assumption.
  intros c Hcell. unfold cell_is_visited. now rewrite Hvis.
Qed.

(** ** The flood fill *)

Lemma sumZ_insert (a : list Z) : forall (i : nat) v,
  (i < length a)%nat ->
  sumZ (<[i:=v]> a) = sumZ a - default 0 (a !! i) + v.
Proof.
  induction a as [|x a IH]; intros i v Hi; simpl in Hi; [lia|].
  destruct i as [|i]; simpl.
  - lia.
  - rewrite IH by lia. lia.
Qed.

Lemma sumZ_wr (a : list Z) i v :
  length a = 256%nat -> is_cell i -> sumZ (wr a i v) = sumZ a - rd a i + v.
Proof.
  unfold is_cell, wr, rd. intros Hlen Hi. apply sumZ_insert. lia.
Qed.

Lemma sumZ_bounds (a : list Z) :
  Forall is_u8 a -> 0 <= sumZ a <= 255 * Z.of_nat (length a).
Proof.
  induction 1 as [|x a Hx _ IH]; simpl; [lia|]. unfold is_u8 in Hx. lia.
Qed.

Lemma flood_measure_nonneg m q : bytes256 (m_cost m) -> 0 <= flood_measure m q.
Proof.
  intros [_ Hb]. unfold flood_measure, Queue.size.
  pose proof (sumZ_bounds _ Hb). lia.
Qed.

Lemma rd_replicate (v : Z) c : is_cell c -> rd (replicate 256 v) c = v.
Proof.
  unfold is_cell, rd. intros Hc. rewrite lookup_replicate_2 by lia. reflexivity.
Qed.

Lemma is_exit_same_walls m m' c d :
  m_walls m = m_walls m' -> is_exit m c d = is_exit m' c d.
Proof. unfold is_exit. now intros ->. Qed.

Lemma for_loop_4 {St : Type} (body : Z -> St -> St) (s : St) :
  for_loop 0 4 body s = body 3 (body 2 (body 1 (body 0 s))).
Proof. reflexivity. Qed.

(** What one pass of the inner loop does. *)
Lemma flood_visit_cases here newCost d m q :
  (flood_visit here newCost d (m, q) = (m, q)
   /\ (is_exit m here d = false \/ rd (m_cost m) (neighbour here d) <= newCost))
  \/ (is_exit m here d = true /\ newCost < rd (m_cost m) (neighbour here d)
      /\ flood_visit here newCost d (m, q)
         = (with_cost m (wr (m_cost m) (neighbour here d) (u8 newCost)),
            Queue.add q (neighbour here d))).
Proof.
  unfold flood_visit. cbn [fst snd].
  destruct (is_exit m here d); [|left; auto].
  destruct (Z.gtb_spec (rd (m_cost m) (neighbour here d)) newCost).
  - right. auto.
  - left. split; [reflexivity | right; lia].
Qed.

Lemma flood_visit_measure here newCost d m q :
  bytes256 (m_cost m) -> 0 <= newCost ->
  flood_measure (fst (flood_visit here newCost d (m, q)))
                (snd (flood_visit here newCost d (m, q)))
  <= flood_measure m q.
Proof.
  intros [Hlen Hb] Hnc.
  destruct (flood_visit_cases here newCost d m q) as [[-> _] | (_ & Hlt & ->)];
    cbn [fst snd]; [lia|].
  pose proof (rd_is_u8 _ (neighbour here d) Hb) as Hu. unfold is_u8 in Hu.
  unfold flood_measure, Queue.size, Queue.add. cbn [m_cost with_cost].
  rewrite sumZ_wr by (assumption || apply neighbour_is_cell).
  rewrite u8_id by (unfold is_u8; lia).
  rewrite length_app. simpl length. lia.
Qed.

(** One pass of the inner loop keeps the invariant and adds its direction
    to those done. *)
Lemma flood_visit_inv m0 target f here newCost done m q d :
  lower_estimate m0 target f -> is_cell target -> is_cell here -> is_dir d ->
  visit_inv m0 target f here newCost done m q ->
  visit_inv m0 target f here newCost (d :: done)
            (fst (flood_visit here newCost d (m, q)))
            (snd (flood_visit here newCost d (m, q))).
Proof.
  intros (Hf0 & Hf255 & Hlip) HT Hhere Hd [[Hw Hg Hc Hq Ht Hr Hl Hx] Hh Hdone].
  destruct (flood_visit_cases here newCost d m q) as [[-> Hno] | (Hex & Hlt & ->)];
    cbn [fst snd].
  - (* nothing written *)
    split; [split; assumption | assumption |].
    intros d' Hd' Hex'. apply elem_of_cons in Hd' as [-> | Hd']; [|auto].
    destruct Hno as [Hno | Hno]; [congruence | exact Hno].
  - (* the neighbour is given the new cost and queued *)
    set (n := neighbour here d) in *.
    pose proof (neighbour_is_cell here d) as Hn. fold n in Hn.
    destruct Hc as [Hlen Hb].
    pose proof (rd_is_u8 _ n Hb) as Hun.
    pose proof (rd_is_u8 _ here Hb) as Huh. unfold is_u8 in Hun, Huh.
    assert (Hnc : u8 newCost = newCost) by (apply u8_id; unfold is_u8; lia).
    rewrite Hnc.
    assert (Hrd : forall c, is_cell c ->
              rd (wr (m_cost m) n newCost) c = if c =? n then newCost else rd (m_cost m) c)
      by (intros c Hcell; now apply rd_wr).
    assert (Hle : forall c, is_cell c ->
              rd (wr (m_cost m) n newCost) c <= rd (m_cost m) c).
    { intros c Hcell. rewrite Hrd by assumption.
      destruct (Z.eqb_spec c n) as [->|]; lia. }
    assert (Hnh : here <> n) by (intros E; rewrite <- E in Hlt; lia).
    assert (HnT : target <> n) by (intros E; rewrite <- E in Hlt; lia).
    split; [split | |]; cbn [m_walls m_goal m_cost with_cost].
    + exact Hw.
    + exact Hg.
    + apply bytes256_wr; [split; assumption | unfold is_u8; lia].
    + unfold Queue.add. apply Forall_app. split.
      * eapply Forall_impl; [exact Hq|]. cbv beta. intros h [Hh1 Hh2].
        split; [assumption|]. specialize (Hle h Hh1). lia.
      * apply Forall_singleton. split; [assumption|].
        rewrite Hrd, Z.eqb_refl by assumption. lia.
    + rewrite Hrd by assumption.
      destruct (Z.eqb_spec target n); [contradiction | assumption].
    + intros c Hcell. rewrite Hrd by assumption.
      destruct (Z.eqb_spec c n) as [->|]; [intros _ | now apply Hr].
      apply reach_step; [apply Hr; [assumption | lia] | assumption |].
      now rewrite <- (is_exit_same_walls m m0).
    + intros c Hcell. rewrite Hrd by assumption.
      destruct (Z.eqb_spec c n) as [->|]; [|now apply Hl].
      assert (f (neighbour here d) <= f here + 1).
      { apply Hlip; try assumption. now rewrite <- (is_exit_same_walls m m0). }
      specialize (Hl here Hhere). fold n in H. lia.
    + intros c Hcell. rewrite Hrd by assumption.
      destruct (Z.eqb_spec c n) as [->|Hcn].
      * intros _. right. left. unfold Queue.add.
        apply elem_of_app. right. apply list_elem_of_singleton. reflexivity.
      * intros Hc255. destruct (Hx c Hcell Hc255) as [Hp | [Hin | Hrel]].
        -- now left.
        -- right. left. unfold Queue.add. apply elem_of_app. now left.
        -- right. right. intros d' Hd' Hex'. cbn [m_cost with_cost].
           rewrite (Hrd c) by assumption.
           destruct (Z.eqb_spec c n); [contradiction|].
           specialize (Hle (neighbour c d') (neighbour_is_cell c d')).
           specialize (Hrel d' Hd' Hex'). lia.
    + rewrite Hrd by assumption.
      destruct (Z.eqb_spec here n); [contradiction | assumption].
    + intros d' Hd' Hex'. apply elem_of_cons in Hd' as [-> | Hd'].
      * fold n. rewrite Hrd, Z.eqb_refl by assumption. lia.
      * specialize (Hle (neighbour here d') (neighbour_is_cell here d')).
        specialize (Hdone d' Hd' Hex'). lia.
Qed.

Lemma flood_visit_inv_state m0 target f here newCost done d (s : Maze * Queue.t) :
  lower_estimate m0 target f -> is_cell target -> is_cell here -> is_dir d ->
  visit_inv m0 target f here newCost done (fst s) (snd s) ->
  visit_inv m0 target f here newCost (d :: done)
            (fst (flood_visit here newCost d s))
            (snd (flood_visit here newCost d s)).
Proof. destruct s as [m q]. apply flood_visit_inv. Qed.

Lemma flood_visit_measure_state here newCost d (s : Maze * Queue.t) :
  bytes256 (m_cost (fst s)) -> 0 <= newCost ->
  flood_measure (fst (flood_visit here newCost d s))
                (snd (flood_visit here newCost d s))
  <= flood_measure (fst s) (snd s).
Proof. destruct s as [m q]. apply flood_visit_measure. Qed.

Lemma visit_inv_cost m0 target f here newCost done m q :
  visit_inv m0 target f here newCost done m q -> bytes256 (m_cost m).
Proof. intros [[]]. assumption. Qed.

(** When the four directions are done, the cell expanded is relaxed. *)
Lemma visit_inv_finish m0 target f here newCost m q :
  visit_inv m0 target f here newCost [3; 2; 1; 0] m q ->
  flood_inv m0 target f (fun _ => False) m q.
Proof.
  intros [[Hw Hg Hc Hq Ht Hr Hl Hx] Hh Hdone].
  split; try assumption.
  intros c Hcell Hc255. destruct (Hx c Hcell Hc255) as [-> | [Hin | Hrel]].
  - right. right. intros d Hd Hex. rewrite Hh. apply Hdone; [|assumption].
    dir_cases d Hd; repeat constructor.
  - right. now left.
  - right. now right.
Qed.

(** Taking the head of the queue starts the expansion of that cell. *)
Lemma visit_inv_start m0 target f here m q :
  flood_inv m0 target f (fun _ => False) m (here :: q) ->
  visit_inv m0 target f here (rd (m_cost m) here + 1) [] m q.
Proof.
  intros [Hw Hg Hc Hq Ht Hr Hl Hx].
  apply Forall_cons in Hq as [Hh Hq].
  split; [split; try assumption | reflexivity |].
  - intros c Hcell Hc255. destruct (Hx c Hcell Hc255) as [[] | [Hin | Hrel]].
    + apply elem_of_cons in Hin as [-> | Hin]; [now left | right; now left].
    + right. now right.
  - intros d Hd. now apply elem_of_nil in Hd.
Qed.

(** The [while] loop ends, with an empty queue and the invariant. *)
Lemma flood_loop_correct m0 target f :
  lower_estimate m0 target f -> is_cell target ->
  forall fuel m q,
    flood_inv m0 target f (fun _ => False) m q ->
    flood_measure m q < Z.of_nat fuel ->
    exists m', flood_loop fuel m q = Some m'
               /\ flood_inv m0 target f (fun _ => False) m' [].
Proof.
  intros Hf HT. induction fuel as [|fuel IH]; intros m q Hinv Hmu.
  - pose proof (flood_measure_nonneg m q (inv_cost _ _ _ _ _ _ Hinv)). lia.
  - cbn [flood_loop]. destruct q as [|here q].
    + exists m. split; [reflexivity | assumption].
    + assert (Hsize : (Queue.size (here :: q) >? 0) = true).
      { unfold Queue.size. cbn [length].
        destruct (Z.gtb_spec (Z.of_nat (S (length q))) 0); [reflexivity | lia]. }
      rewrite Hsize. cbn [Queue.head].
      pose proof (inv_queue _ _ _ _ _ _ Hinv) as Hq.
      apply Forall_cons in Hq as [[Hhere Hh255] _].
      pose proof (inv_cost _ _ _ _ _ _ Hinv) as Hc.
      pose proof (rd_is_u8 _ here (proj2 Hc)) as Hu. unfold is_u8 in Hu.
      assert (Hnc : u16 (rd (m_cost m) here + 1) = rd (m_cost m) here + 1)
        by (unfold u16; apply Z.mod_small; lia).
      rewrite Hnc. set (nc := rd (m_cost m) here + 1) in *.
      rewrite for_loop_4.
      pose proof (visit_inv_start _ _ _ _ _ _ Hinv) as H0. fold nc in H0.
      set (s0 := (m, q)).
      change m with (fst s0) in H0. change q with (snd s0) in H0.
      assert (Hd0 : is_dir 0) by (unfold is_dir; lia).
      assert (Hd1 : is_dir 1) by (unfold is_dir; lia).
      assert (Hd2 : is_dir 2) by (unfold is_dir; lia).
      assert (Hd3 : is_dir 3) by (unfold is_dir; lia).
      pose proof (flood_visit_inv_state _ _ _ _ _ _ 0 s0 Hf HT Hhere Hd0 H0) as H1.
      pose proof (flood_visit_measure_state here nc 0 s0 Hc ltac:(lia)) as M1.
      set (s1 := flood_visit here nc 0 s0) in *.
      pose proof (flood_visit_inv_state _ _ _ _ _ _ 1 s1 Hf HT Hhere Hd1 H1) as H2.
      pose proof (flood_visit_measure_state here nc 1 s1 (visit_inv_cost _ _ _ _ _ _ _ _ H1)
                    ltac:(lia)) as M2.
      set (s2 := flood_visit here nc 1 s1) in *.
      pose proof (flood_visit_inv_state _ _ _ _ _ _ 2 s2 Hf HT Hhere Hd2 H2) as H3.
      pose proof (flood_visit_measure_state here nc 2 s2 (visit_inv_cost _ _ _ _ _ _ _ _ H2)
                    ltac:(lia)) as M3.
      set (s3 := flood_visit here nc 2 s2) in *.
      pose proof (flood_visit_inv_state _ _ _ _ _ _ 3 s3 Hf HT Hhere Hd3 H3) as H4.
      pose proof (flood_visit_measure_state here nc 3 s3 (visit_inv_cost _ _ _ _ _ _ _ _ H3)
                    ltac:(lia)) as M4.
      set (s4 := flood_visit here nc 3 s3) in *.
      apply IH.
      * now apply visit_inv_finish in H4.
      * assert (flood_measure (fst s0) (snd s0) = flood_measure m (here :: q) - 1).
        { unfold s0, flood_measure, Queue.size. cbn [fst snd length]. lia. }
        change (flood_measure (fst s4) (snd s4) < Z.of_nat fuel).
        clearbody s4 s3 s2 s1 s0. unfold Queue.t in *. lia.
Qed.

(** The first loop of [flood_maze] sets every cost to the sentinel. *)
Lemma reset_costs_prefix m n :
  length (m_cost m) = 256%nat -> (n <= 256)%nat ->
  for_loop 0 n (fun i s => with_cost s (wr (m_cost s) i MAX_COST)) m
  = with_cost m (replicate n MAX_COST ++ drop n (m_cost m)).
Proof.
  intros Hc. induction n as [|n IH]; intros Hn.
  - destruct m; reflexivity.
  - rewrite for_loop_S, IH by lia.
    unfold with_cost. cbn [m_goal m_cost m_walls].
    rewrite fill_step by lia. reflexivity.
Qed.

Lemma reset_costs_eq m :
  length (m_cost m) = 256%nat ->
  for_loop 0 256 (fun i s => with_cost s (wr (m_cost s) i MAX_COST)) m
  = with_cost m (replicate 256 MAX_COST).
Proof.
  intros Hc. rewrite reset_costs_prefix by (assumption || lia).
  now rewrite fill_done.
Qed.

Lemma bytes256_replicate v : is_u8 v -> bytes256 (replicate 256 v).
Proof.
  intros Hv. split; [apply length_replicate | now apply Forall_replicate].
Qed.

(** The state in which the [while] loop is entered. *)
Lemma flood_inv_start m target f :
  wf m -> is_cell target -> lower_estimate m target f ->
  flood_inv m target f (fun _ => False)
            (with_cost m (wr (replicate 256 MAX_COST) target 0)) [target].
Proof.
  intros (_ & _ & Hw) HT (Hf0 & Hf255 & _).
  assert (Hrd : forall c, is_cell c ->
            rd (wr (replicate 256 MAX_COST) target 0) c
            = if c =? target then 0 else 255).
  { intros c Hc. rewrite rd_wr by (assumption || apply length_replicate).
    now rewrite rd_replicate. }
  split; cbn [m_walls m_goal m_cost with_cost].
  - reflexivity.
  - reflexivity.
  - apply bytes256_wr; [apply bytes256_replicate|]; unfold is_u8, MAX_COST; lia.
  - apply Forall_singleton. split; [assumption|].
    rewrite Hrd, Z.eqb_refl by assumption. lia.
  - now rewrite Hrd, Z.eqb_refl.
  - intros c Hc. rewrite Hrd by assumption.
    destruct (Z.eqb_spec c target) as [->|]; [intros _; constructor | congruence].
  - intros c Hc. rewrite Hrd by assumption.
    destruct (Z.eqb_spec c target) as [->|]; [assumption | now apply Hf255].
  - intros c Hc. rewrite Hrd by assumption.
    destruct (Z.eqb_spec c target) as [->|]; [|lia].
    intros _. right. left. apply list_elem_of_singleton. reflexivity.
Qed.

(** [flood_maze] returns, and its result satisfies the invariant with an
    empty queue. *)
Lemma flood_maze_correct m target f :
  wf m -> is_cell target -> lower_estimate m target f ->
  exists m', flood_maze m target = Some m'
             /\ flood_inv m target f (fun _ => False) m' [].
Proof.
  intros Hwf HT Hf. unfold flood_maze.
  rewrite reset_costs_eq by apply Hwf.
  cbn [m_cost with_cost].
  change (Queue.add Queue.empty target) with [target].
  apply flood_loop_correct; try assumption.
  - replace (with_cost (with_cost m (replicate 256 MAX_COST))
                       (wr (replicate 256 MAX_COST) target 0))
      with (with_cost m (wr (replicate 256 MAX_COST) target 0)) by reflexivity.
    now apply flood_inv_start.
  - unfold flood_measure, Queue.size, flood_fuel. cbn [m_cost with_cost length].
    rewrite Z2Nat.id by lia.
    assert (Hb : bytes256 (wr (replicate 256 MAX_COST) target 0)).
    { apply bytes256_wr; [apply bytes256_replicate|]; unfold is_u8, MAX_COST; lia. }
    destruct Hb as [Hlen Hb]. pose proof (sumZ_bounds _ Hb) as Hs.
    rewrite Hlen in Hs. lia.
Qed.

(** With no estimate at hand the constant 0 will do. *)
Lemma lower_estimate_0 m target : lower_estimate m target (fun _ => 0).
Proof. repeat split; intros; lia. Qed.

(** ** Properties of the flood *)

Lemma reachable_is_cell m target c :
  is_cell target -> reachable m target c -> is_cell c.
Proof. intros HT [|c' d _ _ _]; [assumption | apply neighbour_is_cell]. Qed.

(** With symmetric walls a cell closed on its four sides cannot be
    entered. *)
Lemma walled_cell_unreachable m target c :
  walls_symmetric m -> is_cell target -> c <> target ->
  (forall d, is_dir d -> is_wall m c d = true) ->
  ~ reachable m target c.
Proof.
  intros Hsym HT Hne Hwalls Hreach.
  inversion Hreach as [E | c' d Hr Hd Hex E]; [congruence|].
  pose proof (reachable_is_cell _ _ _ HT Hr) as Hc'.
  rewrite is_exit_is_wall, (Hsym c' d Hc' Hd), E in Hex.
  rewrite (Hwalls (opposite d) (opposite_is_dir d)) in Hex. discriminate.
Qed.

(** [flood_maze] returns; the target then has cost 0 and every cell
    that cannot be reached from the target, leaving each cell through a
    side whose wall bit is clear in that cell, has cost 255.  When both
    sides of every wall agree, a cell other than the target with its four
    wall bits set is such a cell. *)
Lemma sentinel_when_symmetric m target :
  wf m -> is_cell target ->
  exists m', flood_maze m target = Some m'
    /\ rd (m_cost m') target = 0
    /\ (forall c, is_cell c -> ~ reachable m target c -> rd (m_cost m') c = 255)
    /\ (walls_symmetric m ->
        forall c, is_cell c -> c <> target ->
          (forall d, is_dir d -> is_wall m c d = true) ->
          rd (m_cost m') c = 255).
Proof.
  intros Hwf HT.
  destruct (flood_maze_correct m target (fun _ => 0) Hwf HT (lower_estimate_0 m target))
    as (m' & Hrun & Hinv).
  exists m'. split; [exact Hrun|]. split; [apply Hinv|].
  assert (Hunreach : forall c, is_cell c -> ~ reachable m target c ->
                       rd (m_cost m') c = 255).
  { intros c Hc Hnot. destruct (Z.eq_dec (rd (m_cost m') c) 255) as [|Hne]; [assumption|].
    exfalso. apply Hnot. now apply (inv_reach _ _ _ _ _ _ Hinv). }
  split; [exact Hunreach|].
  intros Hsym c Hc Hne Hwalls. apply Hunreach; [assumption|].
  now apply walled_cell_unreachable.
Qed.

(** What the two-sided writes of the mutators are for: in a wall array
    whose two sides disagree, which no call of the member functions
    produces, the flood steps from cell 0 into cell 1 although cell 1
    carries its four wall bits. *)
Example flood_enters_one_sided_cell :
  wf one_sided_maze
  /\ is_wall one_sided_maze 1 NORTH = true /\ is_wall one_sided_maze 1 EAST = true
  /\ is_wall one_sided_maze 1 SOUTH = true /\ is_wall one_sided_maze 1 WEST = true
  /\ option_map (fun m' => rd (m_cost m') 1) (flood_maze one_sided_maze 0) = Some 1.
Proof.
  split; [apply wfb_true; vm_compute; reflexivity|].
  repeat split; vm_compute; reflexivity.
Qed.

(** *** The open grid *)

Lemma off_grid_north c : off_grid c 0 = (row c =? 15).
Proof. unfold off_grid. cbn. now rewrite !orb_false_r. Qed.

Lemma off_grid_east c : off_grid c 1 = (col c =? 15).
Proof. unfold off_grid. cbn. now rewrite !orb_false_r. Qed.

Lemma off_grid_south c : off_grid c 2 = (row c =? 0).
Proof. unfold off_grid. cbn. now rewrite !orb_false_r. Qed.

Lemma off_grid_west c : off_grid c 3 = (col c =? 0).
Proof. unfold off_grid. cbn. reflexivity. Qed.

Ltac grid_arith :=
  unfold manhattan, row, col, is_cell in *;
  Z.to_euclidean_division_equations; lia.

Lemma manhattan_self target : manhattan target target = 0.
Proof. unfold manhattan. now rewrite !Z.sub_diag. Qed.

Lemma manhattan_bounds c target :
  is_cell c -> is_cell target -> 0 <= manhattan c target <= 30.
Proof. intros Hc HT. grid_arith. Qed.

Lemma manhattan_0 c target :
  is_cell c -> is_cell target -> manhattan c target = 0 -> c = target.
Proof. intros Hc HT H. grid_arith. Qed.

(** A step to the adjacent cell changes the distance by at most one. *)
Lemma manhattan_step c d target :
  is_cell c -> is_cell target -> is_dir d -> off_grid c d = false ->
  manhattan (neighbour c d) target <= manhattan c target + 1.
Proof.
  intros Hc HT Hd Hoff.
  dir_cases d Hd; neighbour_norm;
    rewrite ?off_grid_north, ?off_grid_east, ?off_grid_south, ?off_grid_west in Hoff;
    apply Z.eqb_neq in Hoff; grid_arith.
Qed.

(** Every cell but the target is entered from an adjacent cell that is
    one step nearer the target. *)
Lemma manhattan_pred c target :
  is_cell c -> is_cell target -> c <> target ->
  exists c' d, is_cell c' /\ is_dir d /\ off_grid c' d = false
               /\ neighbour c' d = c /\ manhattan c' target + 1 = manhattan c target.
Proof.
  intros Hc HT Hne.
  destruct (Z.lt_total (row target) (row c)) as [Hr | [Hr | Hr]].
  - exists (c - 1), 0. neighbour_norm. rewrite off_grid_north.
    split; [grid_arith|]. split; [unfold is_dir; lia|].
    split; [apply Z.eqb_neq; grid_arith|]. split; grid_arith.
  - destruct (Z.lt_total (col target) (col c)) as [Hk | [Hk | Hk]].
    + exists (c - 16), 1. neighbour_norm. rewrite off_grid_east.
      split; [grid_arith|]. split; [unfold is_dir; lia|].
      split; [apply Z.eqb_neq; grid_arith|]. split; grid_arith.
    + exfalso. apply Hne. grid_arith.
    + exists (c + 16), 3. neighbour_norm. rewrite off_grid_west.
      split; [grid_arith|]. split; [unfold is_dir; lia|].
      split; [apply Z.eqb_neq; grid_arith|]. split; grid_arith.
  - exists (c + 1), 2. neighbour_norm. rewrite off_grid_south.
    split; [grid_arith|]. split; [unfold is_dir; lia|].
    split; [apply Z.eqb_neq; grid_arith|]. split; grid_arith.
Qed.

Lemma open_grid_exit m c d :
  open_grid m -> is_cell c -> is_dir d ->
  is_exit m c d = negb (off_grid c d).
Proof. intros Hopen Hc Hd. now rewrite is_exit_is_wall, Hopen. Qed.

Lemma open_grid_lower_estimate m target :
  open_grid m -> is_cell target ->
  lower_estimate m target (fun c => manhattan c target).
Proof.
  intros Hopen HT. split; [|split].
  - rewrite manhattan_self. lia.
  - intros c Hc. pose proof (manhattan_bounds c target Hc HT). lia.
  - intros c d Hc Hd Hex. rewrite open_grid_exit in Hex by assumption.
    apply manhattan_step; try assumption.
    now destruct (off_grid c d).
Qed.

(** Once the queue is empty, no cost exceeds the distance. *)
Lemma open_grid_upper m target m' :
  open_grid m -> is_cell target ->
  flood_inv m target (fun c => manhattan c target) (fun _ => False) m' [] ->
  forall (n : nat) c, is_cell c -> manhattan c target = Z.of_nat n ->
    rd (m_cost m') c <= Z.of_nat n.
Proof.
  intros Hopen HT Hinv. induction n as [|n IH]; intros c Hc Hn.
  - apply manhattan_0 in Hn; try assumption. subst c.
    rewrite (inv_target _ _ _ _ _ _ Hinv). lia.
  - assert (Hne : c <> target).
    { intros ->. rewrite manhattan_self in Hn. lia. }
    destruct (manhattan_pred c target Hc HT Hne)
      as (c' & d & Hc' & Hd & Hoff & Hnb & Hdist).
    assert (Hc'n : rd (m_cost m') c' <= Z.of_nat n) by (apply IH; [assumption | lia]).
    pose proof (manhattan_bounds c target Hc HT) as Hb.
    destruct (inv_relaxed _ _ _ _ _ _ Hinv c' Hc' ltac:(lia)) as [[] | [Hin | Hrel]].
    + now apply elem_of_nil in Hin.
    + specialize (Hrel d Hd). rewrite Hnb in Hrel.
      rewrite (is_exit_same_walls m' m) in Hrel by apply Hinv.
      rewrite open_grid_exit, Hoff in Hrel by assumption.
      specialize (Hrel eq_refl). lia.
Qed.

(** C1.  On the open grid, where the only walls are those of the
    perimeter, [flood_maze] returns and leaves in every cell its Manhattan
    distance to the target. *)
Theorem flood_open_grid m target :
  wf m -> open_grid m -> is_cell target ->
  exists m', flood_maze m target = Some m'
    /\ forall c, is_cell c -> rd (m_cost m') c = manhattan c target.
Proof.
  intros Hwf Hopen HT.
  destruct (flood_maze_correct m target (fun c => manhattan c target) Hwf HT
              (open_grid_lower_estimate m target Hopen HT))
    as (m' & Hrun & Hinv).
  exists m'. split; [exact Hrun|]. intros c Hc.
  pose proof (inv_lower _ _ _ _ _ _ Hinv c Hc) as Hlo. cbv beta in Hlo.
  pose proof (manhattan_bounds c target Hc HT) as Hb.
  pose proof (open_grid_upper m target m' Hopen HT Hinv
                (Z.to_nat (manhattan c target)) c Hc) as Hup.
  rewrite Z2Nat.id in Hup by lia. specialize (Hup eq_refl). lia.
Qed.

(** ** The theorems at concrete mazes *)

Lemma open_maze_eq : place_boundary_walls Maze_new = open_maze.
Proof. vm_compute. reflexivity. Qed.

Lemma initial_maze_eq : initialise_maze Maze_new = initial_maze.
Proof. vm_compute. reflexivity. Qed.

Lemma open_grid_open_maze : open_grid open_maze.
Proof.
  intros c d Hc Hd.
  assert (Hall : forallb (open_grid_check open_maze) (seqZ 0 256) = true)
    by (vm_compute; reflexivity).
  pose proof (forall_dirs _ (forall_cells _ Hall c Hc) d Hd) as H.
  cbv beta in H. now apply Bool.eqb_prop in H.
Qed.

Lemma wf_open_maze : wf open_maze.
Proof. apply wfb_true. vm_compute. reflexivity. Qed.

Lemma wf_initial_maze : wf initial_maze.
Proof. apply wfb_true. vm_compute. reflexivity. Qed.

Lemma wf_tie_maze : wf tie_maze.
Proof. apply wfb_true. vm_compute. reflexivity. Qed.

(** The examples of the specification: flooding the open grid from cell
    0 gives cost 5 at row 2, column 3; on an initialised maze flooded for
    the cell at row 2, column 2 the start has cost 4 and the selector
    leaves the start northwards. *)
Example flood_open_maze_from_0 :
  option_map (fun m' => rd (m_cost m') (2 + 16 * 3)) (flood_maze open_maze 0) = Some 5.
Proof. vm_compute. reflexivity. Qed.

Example flood_initial_maze_to_GOAL :
  option_map (fun m' => (rd (m_cost m') START, rd (m_cost m') GOAL,
                         direction_to_smallest m' START NORTH))
             (flood_maze initial_maze GOAL)
  = Some (4, 0, NORTH).
Proof. vm_compute. reflexivity. Qed.

(** A cell boxed in by four calls of [set_wall_present] keeps the
    sentinel. *)
Example flood_boxed_cell :
  option_map (fun m' => rd (m_cost m') 0x55) (flood_maze boxed_maze GOAL) = Some 255.
Proof. vm_compute. reflexivity. Qed.

Example tie_between_right_and_left :
  direction_to_smallest tie_maze 0x11 NORTH = EAST.
Proof. vm_compute. reflexivity. Qed.

Lemma flood_open_grid_witness :
  wf open_maze /\ open_grid open_maze /\ is_cell GOAL
  /\ exists m', flood_maze open_maze GOAL = Some m'
       /\ forall c, is_cell c -> rd (m_cost m') c = manhattan c GOAL.
Proof.
  assert (H1 : is_cell GOAL) by (unfold is_cell, GOAL; lia).
  split; [exact wf_open_maze|]. split; [exact open_grid_open_maze|].
  split; [exact H1|].
  exact (flood_open_grid open_maze GOAL wf_open_maze open_grid_open_maze H1).
Defined.

Lemma wall_symmetry_witness :
  ((wf (initialise_maze Maze_new) /\ all_open (initialise_maze Maze_new))
   \/ exists m, wf m /\ initialise_maze Maze_new = initialise_maze m)
  /\ Forall valid_op some_ops
  /\ is_cell 0x22 /\ is_dir EAST /\ off_grid 0x22 EAST = false
  /\ is_wall (run_ops (initialise_maze Maze_new) some_ops) 0x22 EAST
     = is_wall (run_ops (initialise_maze Maze_new) some_ops)
               (neighbour 0x22 EAST) (opposite EAST).
Proof.
  assert (H1 : (wf (initialise_maze Maze_new) /\ all_open (initialise_maze Maze_new))
               \/ exists m, wf m /\ initialise_maze Maze_new = initialise_maze m)
    by (right; exists Maze_new; split; [exact wf_Maze_new | reflexivity]).
  assert (H2 : Forall valid_op some_ops)
    by (repeat constructor; unfold is_cell, is_dir, NORTH, EAST, WEST; lia).
  assert (H3 : is_cell 0x22) by (unfold is_cell; lia).
  assert (H4 : is_dir EAST) by (unfold is_dir, EAST; lia).
  assert (H5 : off_grid 0x22 EAST = false) by reflexivity.
  repeat (split; [assumption|]).
  exact (wall_symmetry (initialise_maze Maze_new) some_ops 0x22 EAST H1 H2 H3 H4 H5).
Defined.

Lemma wf_walled_tie_maze : wf walled_tie_maze.
Proof. apply wfb_true. vm_compute. reflexivity. Qed.

(** Ahead of cell 0x11 there is a wall, with the cheapest cell behind
    it; right and behind are open and tie: the selector turns right. *)
Example tie_behind_a_wall :
  is_wall walled_tie_maze 0x11 NORTH = true
  /\ rd (m_cost walled_tie_maze) (neighbour 0x11 NORTH) = 0
  /\ direction_to_smallest walled_tie_maze 0x11 NORTH = EAST.
Proof. repeat split; vm_compute; reflexivity. Qed.

Lemma direction_to_smallest_tie_break_witness :
  wf walled_tie_maze /\ is_dir NORTH
  /\ scan_order NORTH !! 1%nat = Some EAST
  /\ is_exit walled_tie_maze 0x11 EAST = true
  /\ rd (m_cost walled_tie_maze) (neighbour 0x11 EAST)
     < rd (m_cost walled_tie_maze) 0x11
  /\ (forall e, is_dir e -> is_exit walled_tie_maze 0x11 e = true ->
        rd (m_cost walled_tie_maze) (neighbour 0x11 EAST)
        <= rd (m_cost walled_tie_maze) (neighbour 0x11 e))
  /\ (forall (j : nat) e, (j < 1)%nat -> scan_order NORTH !! j = Some e ->
        is_exit walled_tie_maze 0x11 e = true ->
        rd (m_cost walled_tie_maze) (neighbour 0x11 e)
        <> rd (m_cost walled_tie_maze) (neighbour 0x11 EAST))
  /\ direction_to_smallest walled_tie_maze 0x11 NORTH = EAST.
Proof.
  assert (H2 : is_dir NORTH) by (unfold is_dir, NORTH; lia).
  assert (H3 : scan_order NORTH !! 1%nat = Some EAST) by reflexivity.
  assert (H4 : is_exit walled_tie_maze 0x11 EAST = true) by (vm_compute; reflexivity).
  assert (H5 : rd (m_cost walled_tie_maze) (neighbour 0x11 EAST)
               < rd (m_cost walled_tie_maze) 0x11) by (vm_compute; reflexivity).
  assert (H6 : forall e, is_dir e -> is_exit walled_tie_maze 0x11 e = true ->
            rd (m_cost walled_tie_maze) (neighbour 0x11 EAST)
            <= rd (m_cost walled_tie_maze) (neighbour 0x11 e)).
  { intros e He Hex. dir_cases e He;
      first [ apply Z.leb_le; vm_compute; reflexivity
            | vm_compute in Hex; discriminate Hex ]. }
  assert (H7 : forall (j : nat) e, (j < 1)%nat -> scan_order NORTH !! j = Some e ->
            is_exit walled_tie_maze 0x11 e = true ->
            rd (m_cost walled_tie_maze) (neighbour 0x11 e)
            <> rd (m_cost walled_tie_maze) (neighbour 0x11 EAST)).
  { intros j e Hj Hje Hex. destruct j as [|j]; [|lia].
    injection Hje as <-. vm_compute in Hex. discriminate Hex. }
  split; [exact wf_walled_tie_maze|]. repeat (split; [assumption|]).
  exact (direction_to_smallest_tie_break walled_tie_maze 0x11 NORTH 1 EAST
           wf_walled_tie_maze H2 H3 H4 H5 H6 H7).
Defined.

Lemma initialise_maze_boundary_witness :
  wf Maze_new
  /\ (forall c, is_cell c ->
       (col c = 0 -> is_wall (initialise_maze Maze_new) c WEST = true)
       /\ (col c = 15 -> is_wall (initialise_maze Maze_new) c EAST = true)
       /\ (row c = 0 -> is_wall (initialise_maze Maze_new) c SOUTH = true)
       /\ (row c = 15 -> is_wall (initialise_maze Maze_new) c NORTH = true))
  /\ is_wall (initialise_maze Maze_new) START EAST = true
  /\ is_wall (initialise_maze Maze_new) START NORTH = false.
Proof.
  split; [exact wf_Maze_new|].
  exact (initialise_maze_boundary Maze_new wf_Maze_new).
Defined.

Lemma direction_to_smallest_fallback_witness :
  wf initial_maze /\ is_dir EAST
  /\ (forall d, is_dir d ->
        is_wall initial_maze START d = true
        \/ rd (m_cost initial_maze) START
           <= rd (m_cost initial_maze) (neighbour START d))
  /\ direction_to_smallest initial_maze START EAST = 0.
Proof.
  assert (H1 : is_dir EAST) by (unfold is_dir, EAST; lia).
  assert (H2 : forall d, is_dir d ->
            is_wall initial_maze START d = true
            \/ rd (m_cost initial_maze) START
               <= rd (m_cost initial_maze) (neighbour START d)).
  { intros d Hd. dir_cases d Hd;
      first [ left; vm_compute; reflexivity
            | right; apply Z.leb_le; vm_compute; reflexivity ]. }
  split; [exact wf_initial_maze|]. repeat (split; [assumption|]).
  exact (direction_to_smallest_fallback initial_maze START EAST wf_initial_maze H1 H2).
Defined.

Lemma set_wall_invalid_direction_witness :
  ~ (0 <= 4 < 4)
  /\ set_wall_present initial_maze 0x11 4 = initial_maze
  /\ set_wall_absent initial_maze 0x11 4 = initial_maze.
Proof.
  assert (H1 : ~ (0 <= 4 < 4)) by lia.
  split; [exact H1|].
  exact (set_wall_invalid_direction initial_maze 0x11 4 H1).
Defined.

Lemma direction_to_smallest_is_dir_witness :
  is_dir SOUTH
  /\ 0 <= direction_to_smallest tie_maze 0x11 SOUTH < 4
  /\ 0 <= glyph_index tie_maze 0x11 < Z.of_nat (String.length dirChars).
Proof.
  assert (H1 : is_dir SOUTH) by (unfold is_dir, SOUTH; lia).
  split; [exact H1|].
  exact (direction_to_smallest_is_dir tie_maze 0x11 SOUTH H1).
Defined.

Lemma set_wall_frame_witness :
  wf initial_maze /\ is_cell 0x11 /\ is_dir NORTH
  /\ (set_wall_present initial_maze 0x11 NORTH = set_wall_present initial_maze 0x11 NORTH
      \/ set_wall_present initial_maze 0x11 NORTH = set_wall_absent initial_maze 0x11 NORTH)
  /\ m_goal (set_wall_present initial_maze 0x11 NORTH) = m_goal initial_maze
  /\ m_cost (set_wall_present initial_maze 0x11 NORTH) = m_cost initial_maze
  /\ (forall c, is_cell c -> c <> 0x11 -> c <> neighbour 0x11 NORTH ->
        rd (m_walls (set_wall_present initial_maze 0x11 NORTH)) c
        = rd (m_walls initial_maze) c)
  /\ (forall c, is_cell c ->
        Z.land (rd (m_walls (set_wall_present initial_maze 0x11 NORTH)) c) VISITED
        = Z.land (rd (m_walls initial_maze) c) VISITED)
  /\ (forall c, is_cell c ->
        cell_is_visited (set_wall_present initial_maze 0x11 NORTH) c
        = cell_is_visited initial_maze c).
Proof.
  assert (H1 : is_cell 0x11) by (unfold is_cell; lia).
  assert (H2 : is_dir NORTH) by (unfold is_dir, NORTH; lia).
  split; [exact wf_initial_maze|]. split; [exact H1|]. split; [exact H2|].
  split; [left; reflexivity|].
  exact (set_wall_frame initial_maze 0x11 NORTH _ wf_initial_maze H1 H2
           (or_introl eq_refl)).
Defined.

(** ** More on the wall map *)

Lemma u8_testbit_high x k : 8 <= k -> Z.testbit (u8 x) k = false.
Proof.
  intros Hk. unfold u8. change 256 with (2 ^ 8).
  apply Z.mod_pow2_bits_high. lia.
Qed.

(** Two bytes with the same eight bits are equal. *)
Lemma byte_ext a b :
  is_u8 a -> is_u8 b ->
  (forall k, 0 <= k < 8 -> Z.testbit a k = Z.testbit b k) -> a = b.
Proof.
  intros Ha Hb H. rewrite <- (u8_id a Ha), <- (u8_id b Hb).
  apply Z.bits_inj'. intros k Hk.
  destruct (Z.lt_ge_cases k 8).
  - rewrite !testbit_u8 by lia. apply H. lia.
  - now rewrite !u8_testbit_high.
Qed.

(** Two arrays of 256 entries that read the same are equal. *)
Lemma array_ext (a b : list Z) :
  length a = 256%nat -> length b = 256%nat ->
  (forall c, is_cell c -> rd a c = rd b c) -> a = b.
Proof.
  intros Ha Hb H. apply (list_eq_same_length a b 256); try assumption.
  intros i x y Hi Hx Hy.
  specialize (H (Z.of_nat i)). unfold rd, is_cell in H.
  rewrite Nat2Z.id, Hx, Hy in H. apply H. lia.
Qed.

Lemma walls_ext m1 m2 :
  m_goal m1 = m_goal m2 -> m_cost m1 = m_cost m2 ->
  bytes256 (m_walls m1) -> bytes256 (m_walls m2) ->
  (forall c k, is_cell c -> 0 <= k < 8 ->
     Z.testbit (rd (m_walls m1) c) k = Z.testbit (rd (m_walls m2) c) k) ->
  m1 = m2.
Proof.
  destruct m1 as [g1 c1 w1], m2 as [g2 c2 w2]. cbn [m_goal m_cost m_walls].
  intros -> -> [Hl1 Hb1] [Hl2 Hb2] H. f_equal.
  apply array_ext; try assumption. intros c Hc.
  apply byte_ext; try (now apply rd_is_u8). intros k Hk. now apply H.
Qed.

(** The eight bits of every wall byte after one call. *)
Lemma wall_bits_set_wall_present m x e c k :
  length (m_walls m) = 256%nat ->
  is_cell x -> is_dir e -> is_cell c -> 0 <= k < 8 ->
  Z.testbit (rd (m_walls (set_wall_present m x e)) c) k
  = touches x e c k || Z.testbit (rd (m_walls m) c) k.
Proof.
  intros Hlen Hx He Hc Hk. unfold touches.
  pose proof (neighbour_is_cell x e) as Hn.
  pose proof (neighbour_ne x e Hx He) as Hne.
  pose proof (opposite_is_dir e) as Ho.
  rewrite set_wall_present_eq by assumption. cbn [m_walls with_walls].
  rewrite !rd_or_bits by (rewrite ?length_or_bits; assumption).
  destruct (Z.eqb_spec c (neighbour x e)) as [->|Hcn].
  - destruct (Z.eqb_spec (neighbour x e) x) as [|_]; [contradiction|].
    rewrite testbit_set by (unfold is_dir in Ho; lia).
    cbn [andb orb]. apply orb_comm.
  - destruct (Z.eqb_spec c x) as [->|Hcx].
    + rewrite testbit_set by (unfold is_dir in He; lia).
      cbn [andb orb]. rewrite orb_false_r. apply orb_comm.
    + reflexivity.
Qed.

Lemma wall_bits_set_wall_absent m x e c k :
  length (m_walls m) = 256%nat ->
  is_cell x -> is_dir e -> is_cell c -> 0 <= k < 8 ->
  Z.testbit (rd (m_walls (set_wall_absent m x e)) c) k
  = negb (touches x e c k) && Z.testbit (rd (m_walls m) c) k.
Proof.
  intros Hlen Hx He Hc Hk. unfold touches.
  pose proof (neighbour_is_cell x e) as Hn.
  pose proof (neighbour_ne x e Hx He) as Hne.
  pose proof (opposite_is_dir e) as Ho.
  rewrite set_wall_absent_eq by assumption. cbn [m_walls with_walls].
  rewrite !rd_clear_bits by (rewrite ?length_clear_bits; assumption).
  destruct (Z.eqb_spec c (neighbour x e)) as [->|Hcn].
  - destruct (Z.eqb_spec (neighbour x e) x) as [|_]; [contradiction|].
    rewrite testbit_clear by (unfold is_dir in Ho; lia).
    cbn [andb orb]. apply andb_comm.
  - destruct (Z.eqb_spec c x) as [->|Hcx].
    + rewrite testbit_clear by (unfold is_dir in He; lia).
      cbn [andb orb]. rewrite orb_false_r. apply andb_comm.
    + reflexivity.
Qed.

Lemma wall_bits_apply_op m op c k :
  length (m_walls m) = 256%nat -> valid_op op -> is_cell c -> 0 <= k < 8 ->
  Z.testbit (rd (m_walls (apply_op m op)) c) k
  = if op_sets op
    then touches (op_cell op) (op_direction op) c k || Z.testbit (rd (m_walls m) c) k
    else negb (touches (op_cell op) (op_direction op) c k)
         && Z.testbit (rd (m_walls m) c) k.
Proof.
  intros Hlen Hop Hc Hk. destruct op as [x e | x e]; destruct Hop as [Hx He];
    cbn [apply_op op_sets op_cell op_direction].
  - now apply wall_bits_set_wall_present.
  - now apply wall_bits_set_wall_absent.
Qed.

Lemma wf_apply_op m op : wf m -> wf (apply_op m op).
Proof.
  intros Hwf. destruct op; cbn [apply_op].
  - now apply wf_set_wall_present.
  - now apply wf_set_wall_absent.
Qed.

Lemma apply_op_frame m op :
  m_goal (apply_op m op) = m_goal m /\ m_cost (apply_op m op) = m_cost m.
Proof.
  destruct op as [x e | x e]; cbn [apply_op];
    unfold set_wall_present, set_wall_absent;
    repeat match goal with
           | |- context [if ?b then _ else _] => destruct b
           end; split; reflexivity.
Qed.

Lemma touches_is_dir x e c k :
  is_dir e -> touches x e c k = true -> is_dir k.
Proof.
  intros He H. unfold touches in H.
  apply orb_true_iff in H as [H | H]; apply andb_true_iff in H as [_ H];
    apply Z.eqb_eq in H; subst k; [assumption | apply opposite_is_dir].
Qed.

(** Two calls that write a common bit address the same wall. *)
Lemma touches_overlap x e y f c k :
  is_cell x -> is_dir e -> is_cell y -> is_dir f ->
  touches x e c k = true -> touches y f c k = true ->
  (y = x /\ f = e) \/ (y = neighbour x e /\ f = opposite e).
Proof.
  intros Hx He Hy Hf T1 T2. unfold touches in T1, T2.
  rewrite !orb_true_iff, !andb_true_iff, !Z.eqb_eq in T1, T2.
  destruct T1 as [[-> ->] | [-> ->]], T2 as [[E1 E2] | [E1 E2]].
  - left. auto.
  - right. rewrite E1, E2.
    rewrite neighbour_opposite, opposite_involutive by assumption. auto.
  - right. auto.
  - left.
    assert (Hfe : f = e).
    { rewrite <- (opposite_involutive f), <- (opposite_involutive e) by assumption.
      now rewrite E2. }
    subst f. split; [|reflexivity].
    rewrite <- (neighbour_opposite y e), <- (neighbour_opposite x e) by assumption.
    now rewrite E1.
Qed.

Lemma touches_same_wall op1 op2 c k :
  valid_op op1 -> valid_op op2 ->
  touches (op_cell op1) (op_direction op1) c k = true ->
  touches (op_cell op2) (op_direction op2) c k = true ->
  same_wall op1 op2.
Proof.
  intros H1 H2. unfold same_wall.
  destruct op1 as [x e | x e], op2 as [y f | y f];
    destruct H1 as [Hx He], H2 as [Hy Hf];
    cbn [op_cell op_direction]; now apply touches_overlap.
Qed.

Lemma touches_other_side x e c k :
  is_cell x -> is_dir e ->
  touches (neighbour x e) (opposite e) c k = touches x e c k.
Proof.
  intros Hx He. unfold touches.
  rewrite neighbour_opposite, opposite_involutive by assumption.
  apply orb_comm.
Qed.

Lemma touches_of_same_wall op1 op2 c k :
  valid_op op1 -> same_wall op1 op2 ->
  touches (op_cell op2) (op_direction op2) c k
  = touches (op_cell op1) (op_direction op1) c k.
Proof.
  intros H1 [[-> ->] | [-> ->]]; [reflexivity|].
  destruct op1; destruct H1; cbn [op_cell op_direction];
    now apply touches_other_side.
Qed.

Lemma wf_walls_length m : wf m -> length (m_walls m) = 256%nat.
Proof. intros (_ & _ & [H _]). exact H. Qed.

(** X1.  [set_wall_present] sets the wall bit on side [direction] of
    [cell] and the bit on the opposite side of the neighbour, so that the
    side is no exit; no other wall bit of any cell changes. *)
Theorem set_wall_present_effect m cell direction :
  wf m -> is_cell cell -> is_dir direction ->
  is_wall (set_wall_present m cell direction) cell direction = true
  /\ is_wall (set_wall_present m cell direction)
             (neighbour cell direction) (opposite direction) = true
  /\ is_exit (set_wall_present m cell direction) cell direction = false
  /\ (forall c d, is_cell c -> is_dir d ->
        ~ (c = cell /\ d = direction) ->
        ~ (c = neighbour cell direction /\ d = opposite direction) ->
        is_wall (set_wall_present m cell direction) c d = is_wall m c d).
Proof.
  intros Hwf Hx He. pose proof (wf_walls_length m Hwf) as Hlen.
  pose proof (neighbour_is_cell cell direction) as Hn.
  pose proof (opposite_is_dir direction) as Ho.
  assert (H1 : is_wall (set_wall_present m cell direction) cell direction = true).
  { rewrite is_wall_set_wall_present by assumption. now rewrite !Z.eqb_refl. }
  split; [exact H1|]. split; [|split].
  - rewrite is_wall_set_wall_present by assumption.
    rewrite !Z.eqb_refl. cbn [andb]. now rewrite orb_true_r.
  - now rewrite is_exit_is_wall, H1.
  - intros c d Hc Hd N1 N2. rewrite is_wall_set_wall_present by assumption.
    destruct (Z.eqb_spec c cell), (Z.eqb_spec d direction),
      (Z.eqb_spec c (neighbour cell direction)), (Z.eqb_spec d (opposite direction));
      cbn [andb orb]; tauto.
Qed.

(** X2.  [set_wall_absent] clears the wall bit on side [direction] of
    [cell] and the bit on the opposite side of the neighbour, so that the
    side is an exit; no other wall bit of any cell changes. *)
Theorem set_wall_absent_effect m cell direction :
  wf m -> is_cell cell -> is_dir direction ->
  is_wall (set_wall_absent m cell direction) cell direction = false
  /\ is_wall (set_wall_absent m cell direction)
             (neighbour cell direction) (opposite direction) = false
  /\ is_exit (set_wall_absent m cell direction) cell direction = true
  /\ (forall c d, is_cell c -> is_dir d ->
        ~ (c = cell /\ d = direction) ->
        ~ (c = neighbour cell direction /\ d = opposite direction) ->
        is_wall (set_wall_absent m cell direction) c d = is_wall m c d).
Proof.
  intros Hwf Hx He. pose proof (wf_walls_length m Hwf) as Hlen.
  pose proof (neighbour_is_cell cell direction) as Hn.
  pose proof (opposite_is_dir direction) as Ho.
  assert (H1 : is_wall (set_wall_absent m cell direction) cell direction = false).
  { rewrite is_wall_set_wall_absent by assumption. now rewrite !Z.eqb_refl. }
  split; [exact H1|]. split; [|split].
  - rewrite is_wall_set_wall_absent by assumption.
    rewrite !Z.eqb_refl. cbn [andb]. now rewrite orb_true_r.
  - now rewrite is_exit_is_wall, H1.
  - intros c d Hc Hd N1 N2. rewrite is_wall_set_wall_absent by assumption.
    destruct (Z.eqb_spec c cell), (Z.eqb_spec d direction),
      (Z.eqb_spec c (neighbour cell direction)), (Z.eqb_spec d (opposite direction));
      cbn [andb orb negb]; tauto.
Qed.

(** X3.  A call of a wall mutator overrides every earlier call on the
    same wall, whichever side of the wall either call names: the maze
    after both calls is the maze after the later call alone.  In
    particular a repeated call changes nothing more. *)
Theorem wall_op_last_wins m op1 op2 :
  wf m -> valid_op op1 -> valid_op op2 -> same_wall op1 op2 ->
  apply_op (apply_op m op1) op2 = apply_op m op2.
Proof.
  intros Hwf H1 H2 Hsame.
  pose proof (wf_apply_op m op1 Hwf) as Hwf1.
  apply walls_ext.
  - rewrite !(proj1 (apply_op_frame _ _)). reflexivity.
  - rewrite !(proj2 (apply_op_frame _ _)). reflexivity.
  - apply (wf_apply_op _ op2 Hwf1).
  - apply (wf_apply_op _ op2 Hwf).
  - intros c k Hc Hk.
    rewrite (wall_bits_apply_op (apply_op m op1) op2)
      by (try apply wf_walls_length; assumption).
    rewrite (wall_bits_apply_op m op1), (wall_bits_apply_op m op2)
      by (try apply wf_walls_length; assumption).
    rewrite (touches_of_same_wall op1 op2 c k H1 Hsame).
    destruct (op_sets op1), (op_sets op2),
      (touches (op_cell op1) (op_direction op1) c k),
      (Z.testbit (rd (m_walls m) c) k); reflexivity.
Qed.

(** X4.  Calls of the wall mutators on different walls commute, and so
    do two calls of the same mutator on any walls. *)
Theorem wall_ops_commute m op1 op2 :
  wf m -> valid_op op1 -> valid_op op2 ->
  ~ same_wall op1 op2 \/ op_sets op1 = op_sets op2 ->
  apply_op (apply_op m op1) op2 = apply_op (apply_op m op2) op1.
Proof.
  intros Hwf H1 H2 Hdiff.
  pose proof (wf_apply_op m op1 Hwf) as Hwf1.
  pose proof (wf_apply_op m op2 Hwf) as Hwf2.
  apply walls_ext.
  - rewrite !(proj1 (apply_op_frame _ _)). reflexivity.
  - rewrite !(proj2 (apply_op_frame _ _)). reflexivity.
  - apply (wf_apply_op _ op2 Hwf1).
  - apply (wf_apply_op _ op1 Hwf2).
  - intros c k Hc Hk.
    rewrite (wall_bits_apply_op (apply_op m op1) op2)
      by (try apply wf_walls_length; assumption).
    rewrite (wall_bits_apply_op (apply_op m op2) op1)
      by (try apply wf_walls_length; assumption).
    rewrite (wall_bits_apply_op m op1), (wall_bits_apply_op m op2)
      by (try apply wf_walls_length; assumption).
    destruct (touches (op_cell op1) (op_direction op1) c k) eqn:T1,
      (touches (op_cell op2) (op_direction op2) c k) eqn:T2.
    + destruct Hdiff as [Hdiff | Hkind].
      * exfalso. apply Hdiff. eapply touches_same_wall; eauto.
      * rewrite Hkind. now destruct (op_sets op2), (Z.testbit (rd (m_walls m) c) k).
    + now destruct (op_sets op1), (op_sets op2), (Z.testbit (rd (m_walls m) c) k).
    + now destruct (op_sets op1), (op_sets op2), (Z.testbit (rd (m_walls m) c) k).
    + now destruct (op_sets op1), (op_sets op2), (Z.testbit (rd (m_walls m) c) k).
Qed.

(** *** Visited flags *)

Lemma visited_bits_marked w : Z.land (u8 (Z.lor w VISITED)) VISITED = VISITED.
Proof.
  unfold u8. change 256 with (2 ^ 8).
  rewrite <- Z.land_ones by lia. rewrite <- Z.land_assoc.
  change (Z.land (Z.ones 8) VISITED) with VISITED.
  apply Z.bits_inj'. intros n _. rewrite Z.land_spec, Z.lor_spec.
  now destruct (Z.testbit w n), (Z.testbit VISITED n).
Qed.

(** X5.  [mark_cell_visited] makes [cell_is_visited] true of the cell,
    leaves the wall byte of every other cell as it was, changes no wall
    bit of any cell, and leaves costs and goal alone. *)
Theorem mark_cell_visited_effect m cell :
  wf m -> is_cell cell ->
  cell_is_visited (mark_cell_visited m cell) cell = true
  /\ (forall c, is_cell c -> c <> cell ->
        rd (m_walls (mark_cell_visited m cell)) c = rd (m_walls m) c)
  /\ (forall c d, is_cell c -> is_dir d ->
        is_wall (mark_cell_visited m cell) c d = is_wall m c d)
  /\ m_cost (mark_cell_visited m cell) = m_cost m
  /\ m_goal (mark_cell_visited m cell) = m_goal m
  /\ wf (mark_cell_visited m cell).
Proof.
  intros Hwf Hx. pose proof (wf_walls_length m Hwf) as Hlen.
  unfold mark_cell_visited, cell_is_visited. cbn [m_walls m_cost m_goal with_walls].
  split; [|split; [|split; [|split; [reflexivity | split; [reflexivity|]]]]].
  - rewrite rd_or_bits, Z.eqb_refl by assumption.
    rewrite visited_bits_marked. reflexivity.
  - intros c Hc Hne. rewrite rd_or_bits by assumption.
    destruct (Z.eqb_spec c cell); [contradiction | reflexivity].
  - intros c d Hc Hd. rewrite !is_wall_testbit by (unfold is_dir in Hd; lia).
    cbn [m_walls with_walls]. rewrite rd_or_bits by assumption.
    destruct (Z.eqb_spec c cell) as [->|]; [|reflexivity].
    rewrite testbit_u8, Z.lor_spec by (unfold is_dir in Hd; lia).
    dir_cases d Hd; apply orb_false_r.
  - destruct Hwf as (Hg & Hc & Hw). split; [exact Hg|]. split; [exact Hc|].
    now apply bytes256_or_bits.
Qed.

(** *** Initialisation *)

Lemma initial_maze_layout :
  forall c, is_cell c -> layout_check initial_maze c = true.
Proof.
  apply forall_cells. vm_compute. reflexivity.
Qed.

(** X6.  The walls of an initialised maze are exactly those of the
    perimeter and the wall between the start cell and the cell east of
    it; every other side of every cell is open. *)
Theorem initialise_maze_layout m c d :
  wf m -> is_cell c -> is_dir d ->
  is_wall (initialise_maze m) c d
  = off_grid c d || ((c =? START) && (d =? EAST)) || ((c =? 16) && (d =? WEST)).
Proof.
  intros Hwf Hc Hd. rewrite is_wall_initialise_maze by assumption.
  pose proof (initial_maze_layout c Hc) as H. unfold layout_check in H.
  apply andb_true_iff in H as [H _]. apply andb_true_iff in H as [H _].
  pose proof (forall_dirs _ H d Hd) as H'. cbv beta in H'.
  now apply Bool.eqb_prop in H'.
Qed.

(** X7.  [initialise_maze] forgets what the maze held: every cost is 0,
    no cell is visited, and two mazes with the same goal are initialised
    to the same maze.  The goal is kept. *)
Theorem initialise_maze_resets m :
  wf m ->
  m_goal (initialise_maze m) = m_goal m
  /\ (forall c, is_cell c ->
        rd (m_cost (initialise_maze m)) c = 0
        /\ cell_is_visited (initialise_maze m) c = false)
  /\ (forall m', wf m' -> m_goal m' = m_goal m ->
        initialise_maze m' = initialise_maze m)
  /\ wf (initialise_maze m).
Proof.
  intros Hwf. split; [|split; [|split]].
  - now rewrite initialise_maze_eq.
  - intros c Hc. rewrite initialise_maze_eq by assumption.
    pose proof (initial_maze_layout c Hc) as H. unfold layout_check in H.
    apply andb_true_iff in H as [H H0]. apply andb_true_iff in H as [_ Hv].
    split.
    + apply Z.eqb_eq in H0. exact H0.
    + apply negb_true_iff in Hv. exact Hv.
  - intros m' Hwf' Hg. rewrite !initialise_maze_eq by assumption. now rewrite Hg.
  - now apply wf_initialise_maze.
Qed.

(** *** Neighbours on the grid *)

(** X8.  Across a side that does not face out of the grid, [neighbour]
    is the adjacent cell: one row up for NORTH, one column up for EAST,
    one row down for SOUTH, one column down for WEST.  Across a side that
    faces out of the grid it wraps to a cell at Manhattan distance 15 or
    more. *)
Theorem neighbour_on_grid c d :
  is_cell c -> is_dir d ->
  (off_grid c d = false ->
     row (neighbour c d)
     = row c + (if d =? NORTH then 1 else if d =? SOUTH then -1 else 0)
     /\ col (neighbour c d)
        = col c + (if d =? EAST then 1 else if d =? WEST then -1 else 0))
  /\ (off_grid c d = true -> 15 <= manhattan (neighbour c d) c).
Proof.
  intros Hc Hd. split; intros Hoff.
  - dir_cases d Hd; neighbour_norm;
      rewrite ?off_grid_north, ?off_grid_east, ?off_grid_south, ?off_grid_west in Hoff;
      apply Z.eqb_neq in Hoff; cbn [Z.eqb Pos.eqb NORTH EAST SOUTH WEST];
      grid_arith.
  - dir_cases d Hd; neighbour_norm;
      rewrite ?off_grid_north, ?off_grid_east, ?off_grid_south, ?off_grid_west in Hoff;
      apply Z.eqb_eq in Hoff; grid_arith.
Qed.

(** X9.  [neighbour] always returns a cell, never the cell itself; the
    four neighbours of a cell are distinct, and stepping back in the
    opposite direction returns to the cell, across the wrap-around too. *)
Theorem neighbour_inverse c d :
  is_cell c -> is_dir d ->
  is_cell (neighbour c d)
  /\ neighbour c d <> c
  /\ neighbour (neighbour c d) (opposite d) = c
  /\ (forall d', is_dir d' -> d' <> d -> neighbour c d' <> neighbour c d).
Proof.
  intros Hc Hd. split; [apply neighbour_is_cell|].
  split; [now apply neighbour_ne|]. split; [now apply neighbour_opposite|].
  intros d' Hd' Hne. unfold is_cell in Hc.
  dir_cases d Hd; dir_cases d' Hd'; try congruence; neighbour_norm;
    Z.to_euclidean_division_equations; lia.
Qed.

(** X10.  With a direction outside 0..3, [neighbour] returns 255 and
    [neighbour_cost] returns the sentinel 255, whatever the walls and
    costs. *)
Theorem invalid_direction_neighbour m cell direction :
  ~ (0 <= direction < 4) ->
  neighbour cell direction = 255 /\ neighbour_cost m cell direction = MAX_COST.
Proof.
  intros Hd. unfold neighbour, neighbour_cost, NORTH, EAST, SOUTH, WEST.
  repeat match goal with
         | |- context [direction =? ?b] =>
             destruct (Z.eqb_spec direction b); [lia|]
         end.
  split; reflexivity.
Qed.

(** ** More on the direction selector *)

Lemma dir_in_scan_order s d : is_dir s -> is_dir d -> d ∈ scan_order s.
Proof.
  intros Hs Hd. dir_cases s Hs; dir_cases d Hd; vm_compute; repeat constructor.
Qed.

(** The probes either keep the start value, no neighbour cost being
    below it, or end on a probed direction whose neighbour cost is the
    least of all and below the start value. *)
Lemma fold_probe_min m cell (l : list Z) : forall best,
  let best' := fold_left (fun b d => probe m cell d b) l best in
  (best' = best /\ forall e, e ∈ l -> fst best <= neighbour_cost m cell e)
  \/ (snd best' ∈ l /\ fst best' = neighbour_cost m cell (snd best')
      /\ fst best' < fst best
      /\ forall e, e ∈ l -> fst best' <= neighbour_cost m cell e).
Proof.
  induction l as [|e l IH]; intros best; cbn [fold_left].
  - left. split; [reflexivity|]. intros e He. now apply elem_of_nil in He.
  - cbv zeta in IH |- *.
    destruct (Z.ltb_spec (neighbour_cost m cell e) (fst best)) as [Hlt | Hge].
    + rewrite probe_take by assumption.
      destruct (IH (neighbour_cost m cell e, e)) as [[-> Hall] | (Hin & Heq & Hlt' & Hall)];
        cbn [fst snd] in *; right.
      * split; [left|]. split; [reflexivity|]. split; [assumption|].
        intros e' He'. apply elem_of_cons in He' as [-> | He']; [lia | now apply Hall].
      * split; [now right|]. split; [assumption|]. split; [lia|].
        intros e' He'. apply elem_of_cons in He' as [-> | He']; [lia | now apply Hall].
    + rewrite probe_keep by assumption.
      destruct (IH best) as [[-> Hall] | (Hin & Heq & Hlt' & Hall)].
      * left. split; [reflexivity|].
        intros e' He'. apply elem_of_cons in He' as [-> | He']; [lia | now apply Hall].
      * right. split; [now right|]. split; [assumption|]. split; [assumption|].
        intros e' He'. apply elem_of_cons in He' as [-> | He']; [lia | now apply Hall].
Qed.

Lemma direction_to_smallest_improving m cell s :
  wf m -> is_dir s ->
  (exists d, is_dir d /\ neighbour_cost m cell d < rd (m_cost m) cell) ->
  is_dir (direction_to_smallest m cell s)
  /\ is_exit m cell (direction_to_smallest m cell s) = true
  /\ rd (m_cost m) (neighbour cell (direction_to_smallest m cell s))
     < rd (m_cost m) cell
  /\ (forall d, is_dir d ->
        rd (m_cost m) (neighbour cell (direction_to_smallest m cell s))
        <= neighbour_cost m cell d).
Proof.
  intros Hwf Hs (d0 & Hd0 & Himp).
  rewrite direction_to_smallest_fold. cbv zeta.
  destruct (fold_probe_min m cell (scan_order s) (rd (m_cost m) cell, INVALID_DIRECTION))
    as [[_ Hall] | (Hin & Heq & Hlt & Hall)]; cbn [fst snd] in *.
  - specialize (Hall d0 (dir_in_scan_order s d0 Hs Hd0)). lia.
  - set (best := fold_left (fun b d => probe m cell d b) (scan_order s)
                   (rd (m_cost m) cell, INVALID_DIRECTION)) in *.
    pose proof (scan_order_dirs s (snd best) Hin Hs) as Hr.
    destruct Hwf as (_ & [_ Hc] & _).
    pose proof (rd_is_u8 (m_cost m) cell Hc) as Hu. unfold is_u8 in Hu.
    unfold MAX_COST. destruct (Z.eqb_spec (fst best) 255) as [E | _]; [lia|].
    rewrite neighbour_cost_spec in Heq by assumption.
    destruct (is_wall m cell (snd best)) eqn:Hwall;
      [unfold MAX_COST in Heq; lia|].
    split; [exact Hr|]. split; [now rewrite is_exit_is_wall, Hwall|].
    rewrite <- Heq. split; [assumption|].
    intros d Hd. apply Hall. now apply dir_in_scan_order.
Qed.

(** X11.  When some side of the cell has a neighbour cost below the cost
    of the cell, [direction_to_smallest] returns a direction whose side is
    open, whose neighbour is strictly cheaper than the cell, and no side
    has a smaller neighbour cost: the selector never points through a
    wall. *)
Theorem direction_to_smallest_sound m cell startDirection d :
  wf m -> is_dir startDirection -> is_dir d ->
  neighbour_cost m cell d < rd (m_cost m) cell ->
  is_dir (direction_to_smallest m cell startDirection)
  /\ is_exit m cell (direction_to_smallest m cell startDirection) = true
  /\ rd (m_cost m) (neighbour cell (direction_to_smallest m cell startDirection))
     < rd (m_cost m) cell
  /\ (forall e, is_dir e ->
        rd (m_cost m) (neighbour cell (direction_to_smallest m cell startDirection))
        <= neighbour_cost m cell e).
Proof.
  intros Hwf Hs Hd Himp.
  apply direction_to_smallest_improving; try assumption.
  exists d. split; assumption.
Qed.

(** ** More on the flood *)

Lemma neighbour_opposite_back c d :
  is_cell c -> is_dir d -> neighbour (neighbour c (opposite d)) d = c.
Proof.
  intros Hc Hd.
  rewrite <- (opposite_involutive d Hd) at 2.
  apply neighbour_opposite; [assumption | apply opposite_is_dir].
Qed.

Lemma path_is_cell m target n c : is_cell target -> path m target n c -> is_cell c.
Proof. intros HT [|k c' d _ _ _]; [assumption | apply neighbour_is_cell]. Qed.

Lemma path_reachable m target n c : path m target n c -> reachable m target c.
Proof. induction 1; [constructor | now apply reach_step]. Qed.

Lemma within_target m target n : within m target n target = true.
Proof.
  induction n as [|n IH]; cbn [within]; [apply Z.eqb_refl | now rewrite IH].
Qed.

Lemma within_of_path m target k c :
  is_cell target -> path m target k c ->
  forall n, (k <= n)%nat -> within m target n c = true.
Proof.
  intros HT Hp. induction Hp as [|k c d Hp IH Hd Hex]; intros n Hn.
  - apply within_target.
  - destruct n as [|n]; [lia|]. cbn [within].
    apply orb_true_iff. right. apply existsb_exists. exists d.
    pose proof (path_is_cell _ _ _ _ HT Hp) as Hc.
    rewrite neighbour_opposite by assumption.
    split.
    + apply list_elem_of_In, elem_of_seqZ. unfold is_dir in Hd. lia.
    + rewrite Hex. apply IH. lia.
Qed.

Lemma path_of_within m target n : forall c,
  is_cell c -> within m target n c = true ->
  exists k, (k <= n)%nat /\ path m target k c.
Proof.
  induction n as [|n IH]; intros c Hc H; cbn [within] in H.
  - apply Z.eqb_eq in H. subst c. exists 0%nat. split; [lia | constructor].
  - apply orb_true_iff in H as [H | H].
    + destruct (IH c Hc H) as (k & Hk & Hp). exists k. split; [lia | assumption].
    + apply existsb_exists in H as (d & Hin & H).
      apply andb_true_iff in H as [Hex Hw].
      apply list_elem_of_In, elem_of_seqZ in Hin.
      assert (Hd : is_dir d) by (unfold is_dir; lia).
      destruct (IH _ (neighbour_is_cell c (opposite d)) Hw) as (k & Hk & Hp).
      exists (S k). split; [lia|].
      rewrite <- (neighbour_opposite_back c d Hc Hd). now apply path_S.
Qed.

Lemma first_within_spec m target c : forall fuel start,
  (start <= first_within m target c fuel start <= start + fuel)%nat
  /\ (forall j, (start <= j < first_within m target c fuel start)%nat ->
        within m target j c = false)
  /\ ((first_within m target c fuel start < start + fuel)%nat ->
        within m target (first_within m target c fuel start) c = true).
Proof.
  induction fuel as [|fuel IH]; intros start; cbn [first_within].
  - split; [lia|]. split; intros; lia.
  - destruct (within m target start c) eqn:E.
    + split; [lia|]. split; [intros; lia | intros _; exact E].
    + destruct (IH (S start)) as (Hr & Hfalse & Htrue).
      split; [lia|]. split.
      * intros j Hj. destruct (Nat.eq_dec j start) as [->|]; [exact E|].
        apply Hfalse. lia.
      * intros Hlt. apply Htrue. lia.
Qed.

Lemma dist_bounds m target c : 0 <= dist m target c <= 255.
Proof.
  unfold dist. pose proof (first_within_spec m target c 255 0) as (H & _). lia.
Qed.

(** Below the cap, [dist] is the length of a path, and no path is
    shorter. *)
Lemma dist_path m target c :
  is_cell target -> is_cell c -> dist m target c < 255 ->
  path m target (Z.to_nat (dist m target c)) c.
Proof.
  intros HT Hc Hlt. unfold dist in *. rewrite Nat2Z.id.
  pose proof (first_within_spec m target c 255 0) as (Hr & Hfalse & Htrue).
  set (r := first_within m target c 255 0) in *.
  destruct (path_of_within m target r c Hc (Htrue ltac:(lia))) as (k & Hk & Hp).
  destruct (Nat.eq_dec k r) as [->|Hne]; [assumption|].
  exfalso. assert (Hw : within m target k c = false) by (apply Hfalse; lia).
  rewrite (within_of_path m target k c HT Hp k) in Hw by lia. discriminate.
Qed.

Lemma dist_le_path m target k c :
  is_cell target -> path m target k c -> dist m target c <= Z.of_nat k.
Proof.
  intros HT Hp. unfold dist.
  pose proof (first_within_spec m target c 255 0) as (Hr & Hfalse & _).
  set (r := first_within m target c 255 0) in *.
  destruct (Nat.le_gt_cases r k) as [|Hgt]; [lia|]. exfalso.
  assert (Hw : within m target k c = false) by (apply Hfalse; lia).
  rewrite (within_of_path m target k c HT Hp k) in Hw by lia. discriminate.
Qed.

Lemma dist_lower_estimate m target :
  is_cell target -> lower_estimate m target (dist m target).
Proof.
  intros HT. split; [|split].
  - apply (dist_le_path m target 0 target HT). constructor.
  - intros c _. apply dist_bounds.
  - intros c d Hc Hd Hex.
    pose proof (dist_bounds m target c) as Hb.
    pose proof (dist_bounds m target (neighbour c d)) as Hbn.
    destruct (Z.eq_dec (dist m target c) 255) as [E | Hne]; [lia|].
    pose proof (dist_path m target c HT Hc ltac:(lia)) as Hp.
    pose proof (dist_le_path m target _ _ HT (path_S _ _ _ _ _ Hp Hd Hex)) as Hle.
    rewrite Nat2Z.inj_succ, Z2Nat.id in Hle by lia. lia.
Qed.

(** Once the queue is empty no cost exceeds the length of a path. *)
Lemma flood_cost_le_path m target f m' :
  is_cell target ->
  flood_inv m target f (fun _ => False) m' [] ->
  forall k c, path m target k c -> rd (m_cost m') c <= Z.of_nat k.
Proof.
  intros HT Hinv k c Hp. induction Hp as [|k c d Hp IH Hd Hex].
  - rewrite (inv_target _ _ _ _ _ _ Hinv). lia.
  - pose proof (path_is_cell _ _ _ _ HT Hp) as Hc.
    pose proof (rd_is_u8 _ (neighbour c d) (proj2 (inv_cost _ _ _ _ _ _ Hinv))) as Hu.
    unfold is_u8 in Hu.
    destruct (Z.lt_ge_cases (Z.of_nat k) 255) as [Hlt | Hge]; [|lia].
    destruct (inv_relaxed _ _ _ _ _ _ Hinv c Hc ltac:(lia)) as [[] | [Hin | Hrel]].
    + now apply elem_of_nil in Hin.
    + specialize (Hrel d Hd).
      rewrite (is_exit_same_walls m' m) in Hrel by apply Hinv.
      specialize (Hrel Hex). lia.
Qed.

(** Once the queue is empty the costs are the distances. *)
Lemma flood_cost_dist m target m' :
  is_cell target ->
  flood_inv m target (dist m target) (fun _ => False) m' [] ->
  forall c, is_cell c -> rd (m_cost m') c = dist m target c.
Proof.
  intros HT Hinv c Hc.
  pose proof (inv_lower _ _ _ _ _ _ Hinv c Hc) as Hlo.
  pose proof (rd_is_u8 _ c (proj2 (inv_cost _ _ _ _ _ _ Hinv))) as Hu.
  unfold is_u8 in Hu.
  pose proof (dist_bounds m target c) as Hb.
  destruct (Z.eq_dec (dist m target c) 255) as [E | Hne]; [lia|].
  pose proof (dist_path m target c HT Hc ltac:(lia)) as Hp.
  pose proof (flood_cost_le_path m target _ m' HT Hinv _ _ Hp) as Hup.
  rewrite Z2Nat.id in Hup by lia. lia.
Qed.

Lemma flood_maze_dist m target :
  wf m -> is_cell target ->
  exists m', flood_maze m target = Some m'
    /\ flood_inv m target (dist m target) (fun _ => False) m' []
    /\ forall c, is_cell c -> rd (m_cost m') c = dist m target c.
Proof.
  intros Hwf HT.
  destruct (flood_maze_correct m target (dist m target) Hwf HT
              (dist_lower_estimate m target HT)) as (m' & Hrun & Hinv).
  exists m'. split; [exact Hrun|]. split; [exact Hinv|].
  now apply flood_cost_dist.
Qed.

(** X12.  [flood_maze] returns for every maze and target cell.  It
    changes the costs only: the wall bytes, with the visited flags, and
    the goal are as before, and the costs are again 256 bytes. *)
Theorem flood_maze_returns m target :
  wf m -> is_cell target ->
  exists m', flood_maze m target = Some m'
    /\ m_walls m' = m_walls m /\ m_goal m' = m_goal m /\ wf m'.
Proof.
  intros Hwf HT.
  destruct (flood_maze_correct m target (fun _ => 0) Hwf HT (lower_estimate_0 m target))
    as (m' & Hrun & [Hw Hg Hc _ _ _ _ _]).
  exists m'. split; [exact Hrun|]. split; [exact Hw|]. split; [exact Hg|].
  destruct Hwf as (Hg0 & _ & Hw0). unfold wf. rewrite Hw, Hg. auto.
Qed.

(** X13.  After [flood_maze] the cost of a cell is the length of a
    shortest path from the target, where a path leaves each cell through
    one of its exits: no path to the cell has fewer steps than its cost,
    and a cost below 255 is the length of some path.  A cell whose
    shortest path has 255 steps or more keeps the sentinel. *)
Theorem flood_maze_shortest_paths m target :
  wf m -> is_cell target ->
  exists m', flood_maze m target = Some m'
    /\ forall c, is_cell c ->
         (forall k, path m target k c -> rd (m_cost m') c <= Z.of_nat k)
         /\ (rd (m_cost m') c < 255 ->
             path m target (Z.to_nat (rd (m_cost m') c)) c).
Proof.
  intros Hwf HT.
  destruct (flood_maze_dist m target Hwf HT) as (m' & Hrun & Hinv & Hdist).
  exists m'. split; [exact Hrun|]. intros c Hc. split.
  - intros k Hp. now apply (flood_cost_le_path m target _ m' HT Hinv).
  - rewrite (Hdist c Hc). intros Hlt. now apply dist_path.
Qed.

Lemma flood_maze_with_cost m costs target :
  length (m_cost m) = 256%nat -> length costs = 256%nat ->
  flood_maze (with_cost m costs) target = flood_maze m target.
Proof.
  intros Hlen Hlen'. unfold flood_maze.
  rewrite (reset_costs_eq (with_cost m costs)) by exact Hlen'.
  rewrite (reset_costs_eq m) by exact Hlen. reflexivity.
Qed.

(** X14.  [flood_maze] returns, and it recomputes every cost: the costs
    the maze held before do not influence the result, and flooding the
    result again for the same target returns it unchanged. *)
Theorem flood_maze_idempotent m target :
  wf m -> is_cell target ->
  exists m', flood_maze m target = Some m'
    /\ flood_maze m' target = Some m'
    /\ (forall costs, length costs = 256%nat ->
          flood_maze (with_cost m costs) target = Some m').
Proof.
  intros Hwf HT.
  pose proof Hwf as (_ & [Hlen _] & _).
  destruct (flood_maze_correct m target (fun _ => 0) Hwf HT (lower_estimate_0 m target))
    as (m' & Hrun & [Hw Hg [Hlen' _] _ _ _ _ _]).
  exists m'. split; [exact Hrun|].
  assert (Hcosts : forall costs, length costs = 256%nat ->
            flood_maze (with_cost m costs) target = Some m').
  { intros costs Hl. now rewrite flood_maze_with_cost. }
  split; [|exact Hcosts].
  assert (E : m' = with_cost m (m_cost m')).
  { destruct m' as [g c w], m as [g0 c0 w0]. cbn in Hw, Hg |- *. now subst. }
  rewrite E at 1. now apply Hcosts.
Qed.

Lemma within_ext m1 m2 target :
  (forall c d, is_cell c -> is_dir d -> is_exit m1 c d = is_exit m2 c d) ->
  forall n c, within m1 target n c = within m2 target n c.
Proof.
  intros Hex. induction n as [|n IH]; intros c; cbn [within]; [reflexivity|].
  rewrite IH. f_equal.
  change (seqZ 0 4) with [0; 1; 2; 3]. cbn [existsb].
  rewrite !IH.
  rewrite !(Hex (neighbour c (opposite _)))
    by (try apply neighbour_is_cell; unfold is_dir; lia).
  reflexivity.
Qed.

Lemma first_within_ext m1 m2 target c :
  (forall c d, is_cell c -> is_dir d -> is_exit m1 c d = is_exit m2 c d) ->
  forall fuel start,
    first_within m1 target c fuel start = first_within m2 target c fuel start.
Proof.
  intros Hex. induction fuel as [|fuel IH]; intros start; cbn [first_within];
    [reflexivity|].
  now rewrite (within_ext m1 m2 target Hex), IH.
Qed.

Lemma dist_ext m1 m2 target c :
  (forall c d, is_cell c -> is_dir d -> is_exit m1 c d = is_exit m2 c d) ->
  dist m1 target c = dist m2 target c.
Proof.
  intros Hex. unfold dist.
  now rewrite (first_within_ext m1 m2 target c Hex).
Qed.

(** X15.  The costs [flood_maze] computes depend on the maze through its
    exits only: two mazes with the same exits, whatever their visited
    flags, goals and old costs, are given the same costs. *)
Theorem flood_maze_depends_on_exits m1 m2 target :
  wf m1 -> wf m2 -> is_cell target ->
  (forall c d, is_cell c -> is_dir d -> is_exit m1 c d = is_exit m2 c d) ->
  exists m1' m2',
    flood_maze m1 target = Some m1' /\ flood_maze m2 target = Some m2'
    /\ m_cost m1' = m_cost m2'.
Proof.
  intros Hwf1 Hwf2 HT Hex.
  destruct (flood_maze_dist m1 target Hwf1 HT) as (m1' & Hrun1 & Hinv1 & Hd1).
  destruct (flood_maze_dist m2 target Hwf2 HT) as (m2' & Hrun2 & Hinv2 & Hd2).
  exists m1', m2'. split; [exact Hrun1|]. split; [exact Hrun2|].
  apply array_ext.
  - apply (inv_cost _ _ _ _ _ _ Hinv1).
  - apply (inv_cost _ _ _ _ _ _ Hinv2).
  - intros c Hc. rewrite Hd1, Hd2 by assumption. now apply dist_ext.
Qed.

Lemma is_wall_same_walls m m' c d :
  m_walls m = m_walls m' -> is_wall m c d = is_wall m' c d.
Proof. unfold is_wall. now intros ->. Qed.

Lemma path_S_inv m target k c :
  path m target (S k) c ->
  exists c' d, path m target k c' /\ is_dir d /\ is_exit m c' d = true
               /\ neighbour c' d = c.
Proof.
  intros Hp. inversion Hp as [| k' c' d Hp' Hd Hex E1 E2]. subst.
  exists c', d. auto.
Qed.

(** With symmetric walls, the selector steps from a flooded cell to a
    neighbour that is one step nearer the target. *)
Lemma flood_descent m target m' :
  wf m -> walls_symmetric m -> is_cell target ->
  flood_inv m target (dist m target) (fun _ => False) m' [] ->
  forall c s, is_cell c -> is_dir s ->
    0 < rd (m_cost m') c < 255 ->
    is_dir (direction_to_smallest m' c s)
    /\ is_exit m' c (direction_to_smallest m' c s) = true
    /\ rd (m_cost m') (neighbour c (direction_to_smallest m' c s))
       = rd (m_cost m') c - 1.
Proof.
  intros Hwf Hsym HT Hinv c s Hc Hs Hcost.
  pose proof (inv_walls _ _ _ _ _ _ Hinv) as Hw.
  assert (Hwf' : wf m').
  { destruct Hwf as (Hg & _ & Hwb). unfold wf.
    rewrite Hw, (inv_goal _ _ _ _ _ _ Hinv).
    split; [exact Hg|]. split; [apply Hinv | exact Hwb]. }
  pose proof (flood_cost_dist m target m' HT Hinv) as Hdist.
  assert (Hp : path m target (Z.to_nat (rd (m_cost m') c)) c).
  { rewrite (Hdist c Hc). apply dist_path; try assumption.
    rewrite <- (Hdist c Hc). lia. }
  destruct (Z.to_nat (rd (m_cost m') c)) as [|k] eqn:E1; [lia|].
  destruct (path_S_inv _ _ _ _ Hp) as (c' & d & Hp' & Hd & Hex & E2).
  pose proof (path_is_cell _ _ _ _ HT Hp') as Hc'.
  pose proof (flood_cost_le_path m target _ m' HT Hinv _ _ Hp') as Hup.
  assert (Hk : Z.of_nat k = rd (m_cost m') c - 1) by lia.
  (* the cell the path comes from is one step nearer *)
  assert (Hpred : rd (m_cost m') c' = rd (m_cost m') c - 1).
  { destruct (inv_relaxed _ _ _ _ _ _ Hinv c' Hc' ltac:(lia)) as [[] | [Hin | Hrel]];
      [now apply elem_of_nil in Hin|].
    specialize (Hrel d Hd). rewrite (is_exit_same_walls m' m) in Hrel by exact Hw.
    specialize (Hrel Hex). rewrite E2 in Hrel. lia. }
  (* and the wall between them is open from this side too *)
  assert (Hback : is_wall m' c (opposite d) = false).
  { rewrite (is_wall_same_walls m' m) by exact Hw.
    rewrite <- E2, <- (Hsym c' d Hc' Hd).
    rewrite is_exit_is_wall in Hex. now destruct (is_wall m c' d). }
  assert (Himp : neighbour_cost m' c (opposite d) < rd (m_cost m') c).
  { rewrite neighbour_cost_spec, Hback by apply opposite_is_dir.
    rewrite <- E2 at 1. rewrite neighbour_opposite by assumption. lia. }
  destruct (direction_to_smallest_improving m' c s Hwf' Hs
              (ex_intro _ (opposite d) (conj (opposite_is_dir d) Himp)))
    as (Hr & Hexit & Hlt & Hmin).
  split; [exact Hr|]. split; [exact Hexit|].
  set (r := direction_to_smallest m' c s) in *.
  pose proof (neighbour_is_cell c r) as Hn.
  (* no neighbour behind an exit is more than one step nearer *)
  assert (Hopen : is_exit m (neighbour c r) (opposite r) = true).
  { rewrite is_exit_is_wall, <- (Hsym c r Hc Hr).
    rewrite <- (is_wall_same_walls m' m) by exact Hw.
    rewrite is_exit_is_wall in Hexit. now destruct (is_wall m' c r). }
  destruct (inv_relaxed _ _ _ _ _ _ Hinv _ Hn ltac:(lia)) as [[] | [Hin | Hrel]];
    [now apply elem_of_nil in Hin|].
  specialize (Hrel (opposite r) (opposite_is_dir r)).
  rewrite (is_exit_same_walls m' m) in Hrel by exact Hw.
  specialize (Hrel Hopen). rewrite neighbour_opposite in Hrel by assumption.
  lia.
Qed.

(** X16.  With symmetric walls, after [flood_maze] the selector called
    on a cell whose cost is neither 0 nor the sentinel, with any start
    direction, returns an open side of the cell whose neighbour costs
    exactly one less. *)
Theorem flood_maze_selector_descends m target :
  wf m -> walls_symmetric m -> is_cell target ->
  exists m', flood_maze m target = Some m'
    /\ forall c s, is_cell c -> is_dir s ->
         0 < rd (m_cost m') c < 255 ->
         is_dir (direction_to_smallest m' c s)
         /\ is_exit m' c (direction_to_smallest m' c s) = true
         /\ rd (m_cost m') (neighbour c (direction_to_smallest m' c s))
            = rd (m_cost m') c - 1.
Proof.
  intros Hwf Hsym HT.
  destruct (flood_maze_dist m target Hwf HT) as (m' & Hrun & Hinv & _).
  exists m'. split; [exact Hrun|].
  now apply (flood_descent m target m').
Qed.

(** X17.  With symmetric walls, after [flood_maze] a caller that starts
    on a cell of cost [k] below 255 and moves [k] times to the neighbour
    the selector points at, whatever the headings it passes, arrives at
    the target. *)
Theorem follow_reaches_target m target :
  wf m -> walls_symmetric m -> is_cell target ->
  exists m', flood_maze m target = Some m'
    /\ forall headings c, is_cell c -> Forall is_dir headings ->
         rd (m_cost m') c < 255 ->
         Z.of_nat (length headings) = rd (m_cost m') c ->
         follow m' c headings = target.
Proof.
  intros Hwf Hsym HT.
  destruct (flood_maze_dist m target Hwf HT) as (m' & Hrun & Hinv & Hdist).
  exists m'. split; [exact Hrun|].
  induction headings as [|s hs IH]; intros c Hc Hdirs H255 Hlen; cbn [follow].
  - cbn [length] in Hlen.
    assert (Hp : path m target (Z.to_nat (rd (m_cost m') c)) c).
    { rewrite (Hdist c Hc). apply dist_path; try assumption.
      rewrite <- (Hdist c Hc). lia. }
    rewrite <- Hlen in Hp. now inversion Hp.
  - apply Forall_cons in Hdirs as [Hs Hdirs]. cbn [length] in Hlen.
    destruct (flood_descent m target m' Hwf Hsym HT Hinv c s Hc Hs ltac:(lia))
      as (_ & _ & Hstep).
    apply IH; try assumption.
    + apply neighbour_is_cell.
    + lia.
    + lia.
Qed.

(** ** The further theorems at concrete mazes *)

Lemma walls_symmetric_initial_maze : walls_symmetric initial_maze.
Proof.
  rewrite <- initial_maze_eq.
  apply walls_symmetric_initialise_maze, wf_Maze_new.
Qed.

Lemma flooded_maze_eq : flood_maze initial_maze GOAL = Some flooded_maze.
Proof. vm_compute. reflexivity. Qed.

Lemma visited_maze_eq : mark_cell_visited initial_maze 0x11 = visited_maze.
Proof. vm_compute. reflexivity. Qed.

Lemma wf_visited_maze : wf visited_maze.
Proof. apply wfb_true. vm_compute. reflexivity. Qed.

Lemma visited_maze_exits c d :
  is_cell c -> is_dir d -> is_exit initial_maze c d = is_exit visited_maze c d.
Proof.
  intros Hc Hd.
  assert (Hall : forallb (same_exits_check initial_maze visited_maze) (seqZ 0 256) = true)
    by (vm_compute; reflexivity).
  pose proof (forall_dirs _ (forall_cells _ Hall c Hc) d Hd) as H.
  cbv beta in H. now apply Bool.eqb_prop in H.
Qed.

Lemma is_cell_0x11 : is_cell 0x11.
Proof. unfold is_cell. lia. Qed.

Lemma is_cell_GOAL : is_cell GOAL.
Proof. unfold is_cell, GOAL. lia. Qed.

Lemma is_dir_NORTH : is_dir NORTH.
Proof. unfold is_dir, NORTH. lia. Qed.

Lemma is_dir_EAST : is_dir EAST.
Proof. unfold is_dir, EAST. lia. Qed.

Lemma set_wall_present_effect_witness :
  wf initial_maze /\ is_cell 0x11 /\ is_dir NORTH
  /\ is_wall (set_wall_present initial_maze 0x11 NORTH) 0x11 NORTH = true
  /\ is_wall (set_wall_present initial_maze 0x11 NORTH)
             (neighbour 0x11 NORTH) (opposite NORTH) = true
  /\ is_exit (set_wall_present initial_maze 0x11 NORTH) 0x11 NORTH = false
  /\ (forall c d, is_cell c -> is_dir d ->
        ~ (c = 0x11 /\ d = NORTH) ->
        ~ (c = neighbour 0x11 NORTH /\ d = opposite NORTH) ->
        is_wall (set_wall_present initial_maze 0x11 NORTH) c d
        = is_wall initial_maze c d).
Proof.
  split; [exact wf_initial_maze|]. split; [exact is_cell_0x11|].
  split; [exact is_dir_NORTH|].
  exact (set_wall_present_effect initial_maze 0x11 NORTH
           wf_initial_maze is_cell_0x11 is_dir_NORTH).
Defined.

Lemma set_wall_absent_effect_witness :
  wf initial_maze /\ is_cell START /\ is_dir EAST
  /\ is_wall (set_wall_absent initial_maze START EAST) START EAST = false
  /\ is_wall (set_wall_absent initial_maze START EAST)
             (neighbour START EAST) (opposite EAST) = false
  /\ is_exit (set_wall_absent initial_maze START EAST) START EAST = true
  /\ (forall c d, is_cell c -> is_dir d ->
        ~ (c = START /\ d = EAST) ->
        ~ (c = neighbour START EAST /\ d = opposite EAST) ->
        is_wall (set_wall_absent initial_maze START EAST) c d
        = is_wall initial_maze c d).
Proof.
  assert (H1 : is_cell START) by (unfold is_cell, START; lia).
  split; [exact wf_initial_maze|]. split; [exact H1|]. split; [exact is_dir_EAST|].
  exact (set_wall_absent_effect initial_maze START EAST wf_initial_maze H1 is_dir_EAST).
Defined.

Lemma wall_op_last_wins_witness :
  wf initial_maze /\ valid_op (SetPresent 0x11 NORTH) /\ valid_op (SetAbsent 0x12 SOUTH)
  /\ same_wall (SetPresent 0x11 NORTH) (SetAbsent 0x12 SOUTH)
  /\ apply_op (apply_op initial_maze (SetPresent 0x11 NORTH)) (SetAbsent 0x12 SOUTH)
     = apply_op initial_maze (SetAbsent 0x12 SOUTH).
Proof.
  assert (H1 : valid_op (SetPresent 0x11 NORTH))
    by (split; [exact is_cell_0x11 | exact is_dir_NORTH]).
  assert (H2 : valid_op (SetAbsent 0x12 SOUTH))
    by (split; [unfold is_cell | unfold is_dir, SOUTH]; lia).
  assert (H3 : same_wall (SetPresent 0x11 NORTH) (SetAbsent 0x12 SOUTH))
    by (right; split; reflexivity).
  split; [exact wf_initial_maze|]. repeat (split; [assumption|]).
  exact (wall_op_last_wins initial_maze _ _ wf_initial_maze H1 H2 H3).
Defined.

Lemma wall_ops_commute_witness :
  wf initial_maze /\ valid_op (SetPresent 0x11 NORTH) /\ valid_op (SetAbsent 0x00 EAST)
  /\ (~ same_wall (SetPresent 0x11 NORTH) (SetAbsent 0x00 EAST)
      \/ op_sets (SetPresent 0x11 NORTH) = op_sets (SetAbsent 0x00 EAST))
  /\ apply_op (apply_op initial_maze (SetPresent 0x11 NORTH)) (SetAbsent 0x00 EAST)
     = apply_op (apply_op initial_maze (SetAbsent 0x00 EAST)) (SetPresent 0x11 NORTH).
Proof.
  assert (H1 : valid_op (SetPresent 0x11 NORTH))
    by (split; [exact is_cell_0x11 | exact is_dir_NORTH]).
  assert (H2 : valid_op (SetAbsent 0x00 EAST))
    by (split; [unfold is_cell; lia | exact is_dir_EAST]).
  assert (H3 : ~ same_wall (SetPresent 0x11 NORTH) (SetAbsent 0x00 EAST)
               \/ op_sets (SetPresent 0x11 NORTH) = op_sets (SetAbsent 0x00 EAST))
    by (left; intros [[H _] | [H _]]; discriminate H).
  split; [exact wf_initial_maze|]. repeat (split; [assumption|]).
  exact (wall_ops_commute initial_maze _ _ wf_initial_maze H1 H2 H3).
Defined.

Lemma mark_cell_visited_effect_witness :
  wf initial_maze /\ is_cell 0x11
  /\ cell_is_visited (mark_cell_visited initial_maze 0x11) 0x11 = true
  /\ (forall c, is_cell c -> c <> 0x11 ->
        rd (m_walls (mark_cell_visited initial_maze 0x11)) c
        = rd (m_walls initial_maze) c)
  /\ (forall c d, is_cell c -> is_dir d ->
        is_wall (mark_cell_visited initial_maze 0x11) c d = is_wall initial_maze c d)
  /\ m_cost (mark_cell_visited initial_maze 0x11) = m_cost initial_maze
  /\ m_goal (mark_cell_visited initial_maze 0x11) = m_goal initial_maze
  /\ wf (mark_cell_visited initial_maze 0x11).
Proof.
  split; [exact wf_initial_maze|]. split; [exact is_cell_0x11|].
  exact (mark_cell_visited_effect initial_maze 0x11 wf_initial_maze is_cell_0x11).
Defined.

Lemma initialise_maze_layout_witness :
  wf Maze_new /\ is_cell 16 /\ is_dir WEST
  /\ is_wall (initialise_maze Maze_new) 16 WEST
     = off_grid 16 WEST || ((16 =? START) && (WEST =? EAST))
       || ((16 =? 16) && (WEST =? WEST)).
Proof.
  assert (H1 : is_cell 16) by (unfold is_cell; lia).
  assert (H2 : is_dir WEST) by (unfold is_dir, WEST; lia).
  split; [exact wf_Maze_new|]. repeat (split; [assumption|]).
  exact (initialise_maze_layout Maze_new 16 WEST wf_Maze_new H1 H2).
Defined.

Lemma initialise_maze_resets_witness :
  wf flooded_maze
  /\ m_goal (initialise_maze flooded_maze) = m_goal flooded_maze
  /\ (forall c, is_cell c ->
        rd (m_cost (initialise_maze flooded_maze)) c = 0
        /\ cell_is_visited (initialise_maze flooded_maze) c = false)
  /\ (forall m', wf m' -> m_goal m' = m_goal flooded_maze ->
        initialise_maze m' = initialise_maze flooded_maze)
  /\ wf (initialise_maze flooded_maze).
Proof.
  assert (H1 : wf flooded_maze) by (apply wfb_true; vm_compute; reflexivity).
  split; [exact H1|].
  exact (initialise_maze_resets flooded_maze H1).
Defined.

Lemma neighbour_on_grid_witness :
  is_cell 0x11 /\ is_dir NORTH
  /\ (off_grid 0x11 NORTH = false ->
        row (neighbour 0x11 NORTH)
        = row 0x11 + (if NORTH =? NORTH then 1 else if NORTH =? SOUTH then -1 else 0)
        /\ col (neighbour 0x11 NORTH)
           = col 0x11 + (if NORTH =? EAST then 1 else if NORTH =? WEST then -1 else 0))
  /\ (off_grid 0x11 NORTH = true -> 15 <= manhattan (neighbour 0x11 NORTH) 0x11).
Proof.
  split; [exact is_cell_0x11|]. split; [exact is_dir_NORTH|].
  exact (neighbour_on_grid 0x11 NORTH is_cell_0x11 is_dir_NORTH).
Defined.

Lemma neighbour_inverse_witness :
  is_cell 0xFF /\ is_dir NORTH
  /\ is_cell (neighbour 0xFF NORTH)
  /\ neighbour 0xFF NORTH <> 0xFF
  /\ neighbour (neighbour 0xFF NORTH) (opposite NORTH) = 0xFF
  /\ (forall d', is_dir d' -> d' <> NORTH -> neighbour 0xFF d' <> neighbour 0xFF NORTH).
Proof.
  assert (H1 : is_cell 0xFF) by (unfold is_cell; lia).
  split; [exact H1|]. split; [exact is_dir_NORTH|].
  exact (neighbour_inverse 0xFF NORTH H1 is_dir_NORTH).
Defined.

Lemma invalid_direction_neighbour_witness :
  ~ (0 <= 7 < 4)
  /\ neighbour 0x11 7 = 255 /\ neighbour_cost initial_maze 0x11 7 = MAX_COST.
Proof.
  assert (H1 : ~ (0 <= 7 < 4)) by lia.
  split; [exact H1|].
  exact (invalid_direction_neighbour initial_maze 0x11 7 H1).
Defined.

Lemma direction_to_smallest_sound_witness :
  wf tie_maze /\ is_dir NORTH /\ is_dir EAST
  /\ neighbour_cost tie_maze 0x11 EAST < rd (m_cost tie_maze) 0x11
  /\ is_dir (direction_to_smallest tie_maze 0x11 NORTH)
  /\ is_exit tie_maze 0x11 (direction_to_smallest tie_maze 0x11 NORTH) = true
  /\ rd (m_cost tie_maze) (neighbour 0x11 (direction_to_smallest tie_maze 0x11 NORTH))
     < rd (m_cost tie_maze) 0x11
  /\ (forall e, is_dir e ->
        rd (m_cost tie_maze) (neighbour 0x11 (direction_to_smallest tie_maze 0x11 NORTH))
        <= neighbour_cost tie_maze 0x11 e).
Proof.
  assert (H1 : neighbour_cost tie_maze 0x11 EAST < rd (m_cost tie_maze) 0x11)
    by (vm_compute; reflexivity).
  split; [exact wf_tie_maze|]. split; [exact is_dir_NORTH|].
  split; [exact is_dir_EAST|]. split; [exact H1|].
  exact (direction_to_smallest_sound tie_maze 0x11 NORTH EAST
           wf_tie_maze is_dir_NORTH is_dir_EAST H1).
Defined.

Lemma flood_maze_returns_witness :
  wf initial_maze /\ is_cell GOAL
  /\ exists m', flood_maze initial_maze GOAL = Some m'
       /\ m_walls m' = m_walls initial_maze /\ m_goal m' = m_goal initial_maze
       /\ wf m'.
Proof.
  split; [exact wf_initial_maze|]. split; [exact is_cell_GOAL|].
  exact (flood_maze_returns initial_maze GOAL wf_initial_maze is_cell_GOAL).
Defined.

Lemma flood_maze_shortest_paths_witness :
  wf initial_maze /\ is_cell GOAL
  /\ exists m', flood_maze initial_maze GOAL = Some m'
       /\ forall c, is_cell c ->
            (forall k, path initial_maze GOAL k c -> rd (m_cost m') c <= Z.of_nat k)
            /\ (rd (m_cost m') c < 255 ->
                path initial_maze GOAL (Z.to_nat (rd (m_cost m') c)) c).
Proof.
  split; [exact wf_initial_maze|]. split; [exact is_cell_GOAL|].
  exact (flood_maze_shortest_paths initial_maze GOAL wf_initial_maze is_cell_GOAL).
Defined.

Lemma flood_maze_idempotent_witness :
  wf initial_maze /\ is_cell GOAL
  /\ exists m', flood_maze initial_maze GOAL = Some m'
       /\ flood_maze m' GOAL = Some m'
       /\ (forall costs, length costs = 256%nat ->
             flood_maze (with_cost initial_maze costs) GOAL = Some m').
Proof.
  split; [exact wf_initial_maze|]. split; [exact is_cell_GOAL|].
  exact (flood_maze_idempotent initial_maze GOAL wf_initial_maze is_cell_GOAL).
Defined.

(** The same on the constant at hand: flooding the flooded maze again
    gives it back. *)
Example flood_flooded_maze : flood_maze flooded_maze GOAL = Some flooded_maze.
Proof. vm_compute. reflexivity. Qed.

Lemma flood_maze_depends_on_exits_witness :
  wf initial_maze /\ wf visited_maze /\ is_cell GOAL
  /\ (forall c d, is_cell c -> is_dir d ->
        is_exit initial_maze c d = is_exit visited_maze c d)
  /\ exists m1' m2',
       flood_maze initial_maze GOAL = Some m1'
       /\ flood_maze visited_maze GOAL = Some m2'
       /\ m_cost m1' = m_cost m2'.
Proof.
  split; [exact wf_initial_maze|]. split; [exact wf_visited_maze|].
  split; [exact is_cell_GOAL|]. split; [exact visited_maze_exits|].
  exact (flood_maze_depends_on_exits initial_maze visited_maze GOAL
           wf_initial_maze wf_visited_maze is_cell_GOAL visited_maze_exits).
Defined.

Lemma flood_maze_selector_descends_witness :
  wf initial_maze /\ walls_symmetric initial_maze /\ is_cell GOAL
  /\ exists m', flood_maze initial_maze GOAL = Some m'
       /\ forall c s, is_cell c -> is_dir s ->
            0 < rd (m_cost m') c < 255 ->
            is_dir (direction_to_smallest m' c s)
            /\ is_exit m' c (direction_to_smallest m' c s) = true
            /\ rd (m_cost m') (neighbour c (direction_to_smallest m' c s))
               = rd (m_cost m') c - 1.
Proof.
  split; [exact wf_initial_maze|]. split; [exact walls_symmetric_initial_maze|].
  split; [exact is_cell_GOAL|].
  exact (flood_maze_selector_descends initial_maze GOAL
           wf_initial_maze walls_symmetric_initial_maze is_cell_GOAL).
Defined.

Lemma follow_reaches_target_witness :
  wf initial_maze /\ walls_symmetric initial_maze /\ is_cell GOAL
  /\ exists m', flood_maze initial_maze GOAL = Some m'
       /\ forall headings c, is_cell c -> Forall is_dir headings ->
            rd (m_cost m') c < 255 ->
            Z.of_nat (length headings) = rd (m_cost m') c ->
            follow m' c headings = GOAL.
Proof.
  split; [exact wf_initial_maze|]. split; [exact walls_symmetric_initial_maze|].
  split; [exact is_cell_GOAL|].
  exact (follow_reaches_target initial_maze GOAL
           wf_initial_maze walls_symmetric_initial_maze is_cell_GOAL).
Defined.

(** The walk of the start cell of the initialised maze to [GOAL], four
    moves with the heading kept NORTH. *)
Example follow_from_start :
  follow flooded_maze START [NORTH; NORTH; NORTH; NORTH] = GOAL.
Proof. vm_compute. reflexivity. Qed.

(** ** The renderer *)

Lemma console_print_nil o : Console.print [] o = o.
Proof. destruct o. unfold Console.print. cbn. now rewrite app_nil_r. Qed.

Lemma console_print_print a b o :
  Console.print b (Console.print a o) = Console.print (a ++ b) o.
Proof. unfold Console.print. cbn. now rewrite app_assoc. Qed.

Lemma console_println_print a b o :
  Console.println b (Console.print a o) = Console.println (a ++ b) o.
Proof. unfold Console.println, Console.print. cbn. now rewrite app_assoc. Qed.

(** A loop whose body prints a chunk of text prints the chunks in
    order. *)
Lemma fold_print (body : Z -> Console.t -> Console.t) (chunk : Z -> list ascii) :
  (forall i o, body i o = Console.print (chunk i) o) ->
  forall l o,
    fold_left (fun acc i => body i acc) l o
    = Console.print (concat (map chunk l)) o.
Proof.
  intros Hbody. induction l as [|a l IH]; intros o; cbn [fold_left map concat].
  - now rewrite console_print_nil.
  - now rewrite IH, Hbody, console_print_print.
Qed.

(** A loop whose body, started on an empty line, finishes some lines and
    leaves the line empty finishes the lines of all passes in order. *)
Lemma fold_lines (body : Z -> Console.t -> Console.t)
      (chunk : Z -> list (list ascii)) :
  (forall i o, Console.current o = [] ->
     body i o = Console.mk (Console.finished o ++ chunk i) []) ->
  forall l o, Console.current o = [] ->
    fold_left (fun acc i => body i acc) l o
    = Console.mk (Console.finished o ++ concat (map chunk l)) [].
Proof.
  intros Hbody. induction l as [|a l IH]; intros o Ho; cbn [fold_left map concat].
  - destruct o as [f c]. cbn in Ho |- *. subst c. now rewrite app_nil_r.
  - rewrite Hbody by assumption. rewrite IH by reflexivity.
    cbn [Console.finished]. now rewrite <- app_assoc.
Qed.

Lemma concat_map_length {A B : Type} (chunk : B -> list A) (w : nat) (l : list B) :
  (forall b, length (chunk b) = w) ->
  length (concat (map chunk l)) = (w * length l)%nat.
Proof.
  intros Hw. induction l as [|a l IH]; cbn [map concat length]; [lia|].
  rewrite length_app, IH, Hw. lia.
Qed.

(** The [i]-th chunk of a text made of chunks of one width. *)
Lemma concat_map_chunk {A B : Type} (chunk : B -> list A) (w : nat) (rest : list A) :
  (forall b, length (chunk b) = w) ->
  forall (l : list B) (i : nat) x, l !! i = Some x ->
    take w (drop (i * w) (concat (map chunk l) ++ rest)) = chunk x.
Proof.
  intros Hw. induction l as [|a l IH]; intros i x Hi; [discriminate|].
  cbn [map concat]. rewrite <- app_assoc. destruct i as [|i].
  - injection Hi as ->. cbn [Nat.mul drop]. now apply take_app_length'.
  - cbn [Nat.mul]. rewrite drop_app_add' by (now rewrite Hw).
    now apply IH.
Qed.

Lemma lookup_columns col :
  0 <= col < 16 -> seqZ 0 16 !! Z.to_nat col = Some col.
Proof.
  intros Hc. rewrite lookup_seqZ_lt by lia. f_equal. lia.
Qed.

Lemma lookup_rows r :
  0 <= r < 16 -> reverse (seqZ 0 16) !! Z.to_nat (15 - r) = Some r.
Proof.
  intros Hr. rewrite reverse_lookup by (rewrite length_seqZ; lia).
  rewrite length_seqZ. rewrite lookup_seqZ_lt by lia. f_equal. lia.
Qed.

Lemma wall_segment_length b : length (wall_segment b) = 3%nat.
Proof. now destruct b. Qed.

Lemma printNorthWalls_eq m row o :
  printNorthWalls m row o = Console.println (wall_row m row NORTH) o.
Proof.
  unfold printNorthWalls, wall_row, for_loop.
  rewrite (fold_print _ (fun col => "o"%char
             :: wall_segment (is_wall m (u8 (row + 16 * col)) NORTH))).
  - apply console_println_print.
  - intros col o'. unfold wall_segment.
    destruct (is_wall m (u8 (row + 16 * col)) NORTH);
      now rewrite console_print_print.
Qed.

Lemma printSouthWalls_eq m row o :
  printSouthWalls m row o = Console.println (wall_row m row SOUTH) o.
Proof.
  unfold printSouthWalls, wall_row, for_loop.
  rewrite (fold_print _ (fun col => "o"%char
             :: wall_segment (is_wall m (u8 (row + 16 * col)) SOUTH))).
  - apply console_println_print.
  - intros col o'. unfold wall_segment.
    destruct (is_wall m (u8 (row + 16 * col)) SOUTH);
      now rewrite console_print_print.
Qed.

Lemma wall_row_length m row d : length (wall_row m row d) = 65%nat.
Proof.
  unfold wall_row. rewrite length_app, (concat_map_length _ 4).
  - now rewrite length_seqZ.
  - intros col. cbn [length]. now rewrite wall_segment_length.
Qed.

Lemma wall_row_column m row d col :
  0 <= col < 16 ->
  take 4 (drop (Z.to_nat col * 4) (wall_row m row d))
  = "o"%char :: wall_segment (is_wall m (u8 (row + 16 * col)) d).
Proof.
  intros Hc. unfold wall_row.
  apply (concat_map_chunk
           (fun col => "o"%char :: wall_segment (is_wall m (u8 (row + 16 * col)) d))).
  - intros b. cbn [length]. now rewrite wall_segment_length.
  - now apply lookup_columns.
Qed.

(** X18.  [printNorthWalls] and [printSouthWalls] finish one line: the
    text already on the line followed by 65 characters, which are, for
    each of the 16 columns in turn, a post [o] and three dashes when the
    cell of that row and column has a wall on the side queried, three
    blanks when it has none, and a closing post. *)
Theorem print_wall_rows m row o :
  0 <= row < 16 ->
  printNorthWalls m row o = Console.println (wall_row m row NORTH) o
  /\ printSouthWalls m row o = Console.println (wall_row m row SOUTH) o
  /\ forall d,
       length (wall_row m row d) = 65%nat
       /\ wall_row m row d !! 64%nat = Some "o"%char
       /\ forall col, 0 <= col < 16 ->
            take 4 (drop (Z.to_nat col * 4) (wall_row m row d))
            = "o"%char
              :: (if is_wall m (row + 16 * col) d
                  then list_ascii_of_string "---"
                  else list_ascii_of_string "   ").
Proof.
  intros Hrow. split; [apply printNorthWalls_eq|].
  split; [apply printSouthWalls_eq|]. intros d.
  split; [apply wall_row_length|]. split.
  - unfold wall_row. rewrite lookup_app_r; rewrite (concat_map_length _ 4);
      rewrite ?length_seqZ; try (intros; cbn [length]; now rewrite wall_segment_length);
      try (cbn; lia).
    reflexivity.
  - intros col Hc. rewrite wall_row_column by assumption.
    rewrite (u8_id (row + 16 * col)) by (unfold is_u8; lia). reflexivity.
Qed.

Lemma chunk2_lookup {A : Type} (l : list A) (n : nat) a b :
  take 2 (drop n l) = [a; b] -> l !! n = Some a /\ l !! (n + 1)%nat = Some b.
Proof.
  intros E. split.
  - rewrite <- (Nat.add_0_r n), <- lookup_drop.
    rewrite <- (lookup_take_lt _ 2) by lia. now rewrite E.
  - rewrite <- lookup_drop.
    rewrite <- (lookup_take_lt _ 2) by lia. now rewrite E.
Qed.

Lemma Forall_concat_map {A B : Type} (P : A -> Prop) (chunk : B -> list A) (l : list B) :
  (forall b, Forall P (chunk b)) -> Forall P (concat (map chunk l)).
Proof.
  intros H. induction l as [|a l IH]; cbn [map concat]; [constructor|].
  apply Forall_app. split; [apply H | exact IH].
Qed.

Lemma west_row_length m row : length (west_row m row) = 65%nat.
Proof.
  unfold west_row. rewrite length_app, (concat_map_length _ 4).
  - now rewrite length_seqZ.
  - intros col. reflexivity.
Qed.

Lemma direction_row_length m row : length (direction_row m row) = 65%nat.
Proof.
  unfold direction_row. rewrite length_app, (concat_map_length _ 4).
  - now rewrite length_seqZ.
  - intros col. reflexivity.
Qed.

(** The lines of a picture: their number, their width and where the
    lines of a row are. *)
Lemma picture_lines (body_row : Z -> list ascii) (south : list ascii) :
  (forall row, length (body_row row) = 65%nat) -> length south = 65%nat ->
  forall m,
  let lines := concat (map (fun row => [wall_row m row NORTH; body_row row])
                           (reverse (seqZ 0 16))) ++ [south] in
  length lines = 33%nat
  /\ Forall (fun l => length l = 65%nat) lines
  /\ (forall r, 0 <= r < 16 ->
        lines !! (Z.to_nat (15 - r) * 2)%nat = Some (wall_row m r NORTH)
        /\ lines !! (Z.to_nat (15 - r) * 2 + 1)%nat = Some (body_row r))
  /\ lines !! 32%nat = Some south.
Proof.
  intros Hbody Hsouth m lines. subst lines.
  assert (Hlen : length (concat (map (fun row => [wall_row m row NORTH; body_row row])
                                     (reverse (seqZ 0 16)))) = 32%nat).
  { rewrite (concat_map_length _ 2) by reflexivity.
    now rewrite length_reverse, length_seqZ. }
  split; [rewrite length_app, Hlen; reflexivity|]. split; [|split].
  - apply Forall_app. split.
    + apply Forall_concat_map. intros row.
      repeat constructor; [apply wall_row_length | apply Hbody].
    + repeat constructor. exact Hsouth.
  - intros r Hr. apply chunk2_lookup.
    apply (concat_map_chunk (fun row => [wall_row m row NORTH; body_row row]) 2);
      [reflexivity | now apply lookup_rows].
  - rewrite lookup_app_r by (rewrite Hlen; lia). now rewrite Hlen.
Qed.

Lemma print_plain_eq m o :
  print_plain m o
  = Console.mk (Console.finished o ++ Console.current o :: plain_lines m ++ [[]]) [].
Proof.
  unfold print_plain, for_loop_down, plain_lines.
  change (seqZ (15 + 1 - Z.of_nat 16) (Z.of_nat 16)) with (seqZ 0 16).
  rewrite (fold_lines _ (fun row => [wall_row m row NORTH; west_row m row]));
    [| | reflexivity].
  - rewrite printSouthWalls_eq. unfold Console.println.
    cbn [Console.finished Console.current]. rewrite app_nil_r. cbn [app].
    f_equal. rewrite <- !app_assoc. cbn [app]. reflexivity.
  - intros row o' Ho'. rewrite printNorthWalls_eq. unfold for_loop.
    rewrite (fold_print _ (fun col => (if is_exit m (u8 (row + 16 * col)) WEST
                                       then " "%char else "|"%char)
                                      :: list_ascii_of_string "   ")).
    + rewrite console_println_print. unfold Console.println.
      cbn [Console.finished Console.current]. rewrite Ho'. cbn [app].
      rewrite <- app_assoc. reflexivity.
    + intros col o''. now destruct (is_exit m (u8 (row + 16 * col)) WEST).
Qed.

(** X19.  [print_plain] finishes the line being written, writes 33
    lines of 65 characters and an empty line, and leaves the console on
    an empty line.  The rows come from row 15 down to row 0, two lines
    each: the north walls of the row, then, for each column, a bar or a
    blank according to the west wall of the cell followed by three
    blanks, and a closing bar.  The last of the 33 lines shows the south
    walls of row 0. *)
Theorem print_plain_output m o r col :
  0 <= r < 16 -> 0 <= col < 16 ->
  print_plain m o
  = Console.mk (Console.finished o ++ Console.current o :: plain_lines m ++ [[]]) []
  /\ length (plain_lines m) = 33%nat
  /\ Forall (fun l => length l = 65%nat) (plain_lines m)
  /\ plain_lines m !! (Z.to_nat (15 - r) * 2)%nat = Some (wall_row m r NORTH)
  /\ plain_lines m !! (Z.to_nat (15 - r) * 2 + 1)%nat = Some (west_row m r)
  /\ plain_lines m !! 32%nat = Some (wall_row m 0 SOUTH)
  /\ take 4 (drop (Z.to_nat col * 4) (west_row m r))
     = (if is_exit m (r + 16 * col) WEST then " "%char else "|"%char)
       :: list_ascii_of_string "   ".
Proof.
  intros Hr Hc. split; [apply print_plain_eq|].
  destruct (picture_lines (west_row m) (wall_row m 0 SOUTH)
              (west_row_length m) (wall_row_length m 0 SOUTH) m)
    as (Hlen & Hwidth & Hrows & Hsouth).
  split; [exact Hlen|]. split; [exact Hwidth|].
  destruct (Hrows r Hr) as [Hn Hw].
  split; [exact Hn|]. split; [exact Hw|]. split; [exact Hsouth|].
  unfold west_row.
  rewrite (concat_map_chunk
             (fun col => (if is_exit m (u8 (r + 16 * col)) WEST
                          then " "%char else "|"%char)
                         :: list_ascii_of_string "   ") 4 _ (fun _ => eq_refl)
             (seqZ 0 16) (Z.to_nat col) col (lookup_columns col Hc)).
  rewrite (u8_id (r + 16 * col)) by (unfold is_u8; lia). reflexivity.
Qed.

Lemma direction_to_smallest_range m cell s :
  is_dir s -> is_dir (direction_to_smallest m cell s).
Proof.
  intros Hs. rewrite direction_to_smallest_fold. cbv zeta.
  destruct (_ =? _); [unfold is_dir; lia|].
  apply fold_probe_dir.
  - intros e He. eapply scan_order_dirs; eauto.
  - cbn [snd]. unfold INVALID_DIRECTION, is_dir. lia.
Qed.

(** The glyph printed for a cell: a star on the goal, else the arrow of
    the direction the selector returns for heading NORTH. *)
Lemma glyph_of_cell m cell :
  glyph (glyph_index m cell)
  = if cell =? maze_goal m then "*"%char
    else match direction_to_smallest m cell NORTH with
         | 0 => "^"%char
         | 1 => ">"%char
         | 2 => "v"%char
         | _ => "<"%char
         end.
Proof.
  unfold glyph_index. destruct (cell =? maze_goal m); [reflexivity|].
  assert (HN : is_dir NORTH) by (unfold is_dir, NORTH; lia).
  destruct (is_dir_cases _ (direction_to_smallest_range m cell NORTH HN))
    as [E | [E | [E | E]]]; rewrite E; reflexivity.
Qed.

Lemma print_with_directions_eq m m' o :
  flood_maze m (maze_goal m) = Some m' ->
  print_with_directions m o
  = Some (m', Console.mk (Console.finished o
                          ++ Console.current o :: direction_lines m' ++ [[]]) []).
Proof.
  intros Hrun. unfold print_with_directions, for_loop_down, direction_lines.
  rewrite Hrun.
  change (seqZ (15 + 1 - Z.of_nat 16) (Z.of_nat 16)) with (seqZ 0 16).
  rewrite (fold_lines _ (fun row => [wall_row m' row NORTH; direction_row m' row]));
    [| | reflexivity].
  - rewrite printSouthWalls_eq. unfold Console.println.
    cbn [Console.finished Console.current]. rewrite app_nil_r. cbn [app].
    do 3 f_equal. rewrite <- !app_assoc. cbn [app]. reflexivity.
  - intros row o' Ho'. rewrite printNorthWalls_eq. unfold for_loop.
    rewrite (fold_print _ (fun col => [ if is_wall m' (u8 (row + 16 * col)) WEST
                                        then "|"%char else " "%char;
                                        " "%char;
                                        glyph (glyph_index m' (u8 (row + 16 * col)));
                                        " "%char ])).
    + rewrite console_println_print. unfold Console.println.
      cbn [Console.finished Console.current]. rewrite Ho'. cbn [app].
      rewrite <- app_assoc. reflexivity.
    + intros col o''. destruct (is_wall m' (u8 (row + 16 * col)) WEST);
        now rewrite !console_print_print.
Qed.

(** X20.  [print_with_directions] floods the maze for its goal, so the
    costs it leaves are those of that flood, and writes a picture of the
    same shape as [print_plain]: 33 lines of 65 characters between an end
    of line and an empty line.  In the line of a row each cell takes four
    characters: a bar or a blank for its west wall, a blank, a glyph and
    a blank; the glyph is a star on the goal and elsewhere the arrow of
    the direction that [direction_to_smallest] returns for heading
    NORTH on the flooded maze. *)
Theorem print_with_directions_output m o r col :
  wf m -> 0 <= r < 16 -> 0 <= col < 16 ->
  exists m',
    flood_maze m (maze_goal m) = Some m'
    /\ print_with_directions m o
       = Some (m', Console.mk (Console.finished o
                               ++ Console.current o :: direction_lines m' ++ [[]]) [])
    /\ length (direction_lines m') = 33%nat
    /\ Forall (fun l => length l = 65%nat) (direction_lines m')
    /\ direction_lines m' !! (Z.to_nat (15 - r) * 2)%nat = Some (wall_row m' r NORTH)
    /\ direction_lines m' !! (Z.to_nat (15 - r) * 2 + 1)%nat = Some (direction_row m' r)
    /\ direction_lines m' !! 32%nat = Some (wall_row m' 0 SOUTH)
    /\ take 4 (drop (Z.to_nat col * 4) (direction_row m' r))
       = [ if is_wall m' (r + 16 * col) WEST then "|"%char else " "%char;
           " "%char;
           if r + 16 * col =? maze_goal m then "*"%char
           else match direction_to_smallest m' (r + 16 * col) NORTH with
                | 0 => "^"%char
                | 1 => ">"%char
                | 2 => "v"%char
                | _ => "<"%char
                end;
           " "%char ].
Proof.
  intros Hwf Hr Hc.
  assert (HT : is_cell (maze_goal m)) by apply Hwf.
  destruct (flood_maze_correct m (maze_goal m) (fun _ => 0) Hwf HT
              (lower_estimate_0 m (maze_goal m))) as (m' & Hrun & Hinv).
  exists m'. split; [exact Hrun|].
  split; [now apply print_with_directions_eq|].
  destruct (picture_lines (direction_row m') (wall_row m' 0 SOUTH)
              (direction_row_length m') (wall_row_length m' 0 SOUTH) m')
    as (Hlen & Hwidth & Hrows & Hsouth).
  split; [exact Hlen|]. split; [exact Hwidth|].
  destruct (Hrows r Hr) as [Hn Hd].
  split; [exact Hn|]. split; [exact Hd|]. split; [exact Hsouth|].
  unfold direction_row.
  rewrite (concat_map_chunk
             (fun col => [ if is_wall m' (u8 (r + 16 * col)) WEST
                           then "|"%char else " "%char;
                           " "%char;
                           glyph (glyph_index m' (u8 (r + 16 * col)));
                           " "%char ]) 4 _ (fun _ => eq_refl)
             (seqZ 0 16) (Z.to_nat col) col (lookup_columns col Hc)).
  rewrite (u8_id (r + 16 * col)) by (unfold is_u8; lia).
  rewrite glyph_of_cell. unfold maze_goal.
  now rewrite (inv_goal _ _ _ _ _ _ Hinv).
Qed.

Lemma print_wall_rows_witness :
  0 <= 15 < 16
  /\ printNorthWalls initial_maze 15 (Console.mk [] [])
     = Console.println (wall_row initial_maze 15 NORTH) (Console.mk [] [])
  /\ printSouthWalls initial_maze 15 (Console.mk [] [])
     = Console.println (wall_row initial_maze 15 SOUTH) (Console.mk [] [])
  /\ forall d,
       length (wall_row initial_maze 15 d) = 65%nat
       /\ wall_row initial_maze 15 d !! 64%nat = Some "o"%char
       /\ forall col, 0 <= col < 16 ->
            take 4 (drop (Z.to_nat col * 4) (wall_row initial_maze 15 d))
            = "o"%char
              :: (if is_wall initial_maze (15 + 16 * col) d
                  then list_ascii_of_string "---"
                  else list_ascii_of_string "   ").
Proof.
  assert (H1 : 0 <= 15 < 16) by lia.
  split; [exact H1|].
  exact (print_wall_rows initial_maze 15 (Console.mk [] []) H1).
Defined.

Lemma print_plain_output_witness :
  0 <= 0 < 16 /\ 0 <= 1 < 16
  /\ print_plain initial_maze (Console.mk [] [])
     = Console.mk ([] ++ [] :: plain_lines initial_maze ++ [[]]) []
  /\ length (plain_lines initial_maze) = 33%nat
  /\ Forall (fun l => length l = 65%nat) (plain_lines initial_maze)
  /\ plain_lines initial_maze !! (Z.to_nat (15 - 0) * 2)%nat
     = Some (wall_row initial_maze 0 NORTH)
  /\ plain_lines initial_maze !! (Z.to_nat (15 - 0) * 2 + 1)%nat
     = Some (west_row initial_maze 0)
  /\ plain_lines initial_maze !! 32%nat = Some (wall_row initial_maze 0 SOUTH)
  /\ take 4 (drop (Z.to_nat 1 * 4) (west_row initial_maze 0))
     = (if is_exit initial_maze (0 + 16 * 1) WEST then " "%char else "|"%char)
       :: list_ascii_of_string "   ".
Proof.
  assert (H1 : 0 <= 0 < 16) by lia.
  assert (H2 : 0 <= 1 < 16) by lia.
  split; [exact H1|]. split; [exact H2|].
  exact (print_plain_output initial_maze (Console.mk [] []) 0 1 H1 H2).
Defined.

Lemma print_with_directions_output_witness :
  wf initial_maze /\ 0 <= 7 < 16 /\ 0 <= 7 < 16
  /\ exists m',
       flood_maze initial_maze (maze_goal initial_maze) = Some m'
       /\ print_with_directions initial_maze (Console.mk [] [])
          = Some (m', Console.mk ([] ++ [] :: direction_lines m' ++ [[]]) [])
       /\ length (direction_lines m') = 33%nat
       /\ Forall (fun l => length l = 65%nat) (direction_lines m')
       /\ direction_lines m' !! (Z.to_nat (15 - 7) * 2)%nat = Some (wall_row m' 7 NORTH)
       /\ direction_lines m' !! (Z.to_nat (15 - 7) * 2 + 1)%nat
          = Some (direction_row m' 7)
       /\ direction_lines m' !! 32%nat = Some (wall_row m' 0 SOUTH)
       /\ take 4 (drop (Z.to_nat 7 * 4) (direction_row m' 7))
          = [ if is_wall m' (7 + 16 * 7) WEST then "|"%char else " "%char;
              " "%char;
              if 7 + 16 * 7 =? maze_goal initial_maze then "*"%char
              else match direction_to_smallest m' (7 + 16 * 7) NORTH with
                   | 0 => "^"%char
                   | 1 => ">"%char
                   | 2 => "v"%char
                   | _ => "<"%char
                   end;
              " "%char ].
Proof.
  assert (H1 : 0 <= 7 < 16) by lia.
  split; [exact wf_initial_maze|]. split; [exact H1|]. split; [exact H1|].
  exact (print_with_directions_output initial_maze (Console.mk [] []) 7 7
           wf_initial_maze H1 H1).
Defined.

(** The first line of the plain picture of an initialised maze: the
    north walls of row 15. *)
Example print_plain_top_line :
  Console.finished (print_plain initial_maze (Console.mk [] [])) !! 1%nat
  = Some (list_ascii_of_string
            "o---o---o---o---o---o---o---o---o---o---o---o---o---o---o---o---o").
Proof. vm_compute. reflexivity. Qed.

(** The start box in the plain picture: row 0 has a bar west of cell 0
    and a bar between cell 0 and the cell east of it. *)
Example print_plain_start_row :
  Console.finished (print_plain initial_maze (Console.mk [] [])) !! 32%nat
  = Some (list_ascii_of_string
            "|   |                                                           |").
Proof. vm_compute. reflexivity. Qed.

(** ** The states of the object *)

Lemma is_wall_mark_cell_visited m cell c d :
  wf m -> is_cell cell -> is_cell c -> is_dir d ->
  is_wall (mark_cell_visited m cell) c d = is_wall m c d.
Proof.
  intros Hwf Hx Hc Hd. pose proof (wf_walls_length m Hwf) as Hlen.
  rewrite !is_wall_testbit by (unfold is_dir in Hd; lia).
  unfold mark_cell_visited. cbn [m_walls with_walls].
  rewrite rd_or_bits by assumption.
  destruct (Z.eqb_spec c cell) as [->|]; [|reflexivity].
  rewrite testbit_u8, Z.lor_spec by (unfold is_dir in Hd; lia).
  dir_cases d Hd; apply orb_false_r.
Qed.

Lemma wf_mark_cell_visited m cell : wf m -> wf (mark_cell_visited m cell).
Proof.
  intros (Hg & Hc & Hw). split; [exact Hg|]. split; [exact Hc|].
  now apply bytes256_or_bits.
Qed.

Lemma walls_symmetric_same_walls m m' :
  m_walls m' = m_walls m -> walls_symmetric m -> walls_symmetric m'.
Proof.
  intros Hw Hsym c d Hc Hd.
  rewrite !(is_wall_same_walls m' m) by exact Hw. now apply Hsym.
Qed.

Lemma is_dir_dec d : is_dir d \/ ~ is_dir d.
Proof. unfold is_dir. lia. Qed.

Lemma flood_maze_keeps m target m' :
  wf m -> is_cell target -> flood_maze m target = Some m' ->
  wf m' /\ m_walls m' = m_walls m.
Proof.
  intros Hwf HT Hrun.
  destruct (flood_maze_correct m target (fun _ => 0) Hwf HT (lower_estimate_0 m target))
    as (m'' & Hrun' & [Hw Hg Hc _ _ _ _ _]).
  rewrite Hrun in Hrun'. injection Hrun' as <-.
  split; [|exact Hw].
  destruct Hwf as (Hg0 & _ & Hw0). unfold wf. rewrite Hw, Hg. auto.
Qed.

Lemma print_with_directions_flood m o m' o' :
  print_with_directions m o = Some (m', o') ->
  flood_maze m (maze_goal m) = Some m'.
Proof.
  unfold print_with_directions.
  destruct (flood_maze m (maze_goal m)) as [m''|]; [|discriminate].
  intros H. injection H as -> _. reflexivity.
Qed.

Lemma constructible_wf m : constructible m -> wf m.
Proof.
  induction 1 as [ | m g _ Hwf Hg | m c _ Hwf Hc
                 | m c d _ Hwf Hc Hd | m c d _ Hwf Hc Hd
                 | m _ Hwf | m target m' _ Hwf HT Hrun
                 | m o m' o' _ Hwf Hrun ].
  - exact wf_Maze_new.
  - destruct Hwf as (_ & Hc & Hw). exact (conj Hg (conj Hc Hw)).
  - now apply wf_mark_cell_visited.
  - now apply wf_set_wall_present.
  - now apply wf_set_wall_absent.
  - now apply wf_initialise_maze.
  - now apply (flood_maze_keeps m target m').
  - apply print_with_directions_flood in Hrun.
    assert (HT : is_cell (maze_goal m)) by apply Hwf.
    now apply (flood_maze_keeps m (maze_goal m) m').
Qed.

Lemma constructible_walls_symmetric m : constructible m -> walls_symmetric m.
Proof.
  induction 1 as [ | m g Hm Hsym Hg | m c Hm Hsym Hc
                 | m c d Hm Hsym Hc Hd | m c d Hm Hsym Hc Hd
                 | m Hm Hsym | m target m' Hm Hsym HT Hrun
                 | m o m' o' Hm Hsym Hrun ];
    try pose proof (constructible_wf m Hm) as Hwf.
  - apply walls_symmetric_all_open, all_open_Maze_new.
  - now apply (walls_symmetric_same_walls m).
  - intros c' d Hc' Hd.
    rewrite !is_wall_mark_cell_visited
      by auto using neighbour_is_cell, opposite_is_dir.
    now apply Hsym.
  - destruct (is_dir_dec d) as [Hdir | Hdir].
    + apply walls_symmetric_set_wall_present; try assumption.
      now apply wf_walls_length.
    + now rewrite set_wall_present_invalid.
  - destruct (is_dir_dec d) as [Hdir | Hdir].
    + apply walls_symmetric_set_wall_absent; try assumption.
      now apply wf_walls_length.
    + now rewrite set_wall_absent_invalid.
  - now apply walls_symmetric_initialise_maze.
  - destruct (flood_maze_keeps m target m' Hwf HT Hrun) as [_ Hw].
    now apply (walls_symmetric_same_walls m).
  - apply print_with_directions_flood in Hrun.
    assert (HT : is_cell (maze_goal m)) by apply Hwf.
    destruct (flood_maze_keeps m (maze_goal m) m' Hwf HT Hrun) as [_ Hw].
    now apply (walls_symmetric_same_walls m).
Qed.

(** X21.  Every maze that can be made from the constructor with
    [set_maze_goal], [mark_cell_visited], [set_wall_present],
    [set_wall_absent] (with any direction byte), [initialise_maze],
    [flood_maze] and [print_with_directions] holds 256 cost bytes and 256
    wall bytes, and its walls are symmetric: each wall bit equals the
    opposite bit of the neighbour, across the wrap-around too. *)
Theorem constructible_invariant m :
  constructible m -> wf m /\ walls_symmetric m.
Proof.
  intros Hm. split.
  - now apply constructible_wf.
  - now apply constructible_walls_symmetric.
Qed.

Lemma constructible_invariant_witness :
  constructible (mark_cell_visited
                   (set_wall_present (initialise_maze Maze_new) 0x11 NORTH) 0x11)
  /\ wf (mark_cell_visited
           (set_wall_present (initialise_maze Maze_new) 0x11 NORTH) 0x11)
  /\ walls_symmetric (mark_cell_visited
                        (set_wall_present (initialise_maze Maze_new) 0x11 NORTH) 0x11).
Proof.
  assert (H1 : constructible (mark_cell_visited
                 (set_wall_present (initialise_maze Maze_new) 0x11 NORTH) 0x11)).
  { apply made_mark_cell_visited; [|unfold is_u8; lia].
    apply made_set_wall_present; [| unfold is_u8; lia | unfold is_u8, NORTH; lia].
    apply made_initialise_maze, made_new. }
  split; [exact H1|].
  exact (constructible_invariant _ H1).
Defined.

(** ** The boundary walls *)

(** The far side of a wall inside the grid is inside the grid. *)
Lemma off_grid_neighbour x e :
  is_cell x -> is_dir e -> off_grid x e = false ->
  off_grid (neighbour x e) (opposite e) = false.
Proof.
  intros Hx He Hoff.
  dir_cases e He; neighbour_norm;
    rewrite ?off_grid_north, ?off_grid_east, ?off_grid_south, ?off_grid_west in *;
    apply Z.eqb_neq in Hoff; apply Z.eqb_neq; grid_arith.
Qed.

Lemma boundary_lower_estimate m target :
  boundary_walled m -> is_cell target ->
  lower_estimate m target (fun c => manhattan c target).
Proof.
  intros Hb HT. split; [|split].
  - rewrite manhattan_self. lia.
  - intros c Hc. pose proof (manhattan_bounds c target Hc HT). lia.
  - intros c d Hc Hd Hex. apply manhattan_step; try assumption.
    destruct (off_grid c d) eqn:Hoff; [|reflexivity].
    rewrite is_exit_is_wall, (Hb c d Hc Hd Hoff) in Hex. discriminate.
Qed.

(** X22.  When every side that faces out of the grid is walled, the
    flood does not wrap around: the cost [flood_maze] leaves in a cell is
    at least its Manhattan distance to the target. *)
Theorem flood_maze_within_grid m target :
  wf m -> boundary_walled m -> is_cell target ->
  exists m', flood_maze m target = Some m'
    /\ forall c, is_cell c -> manhattan c target <= rd (m_cost m') c.
Proof.
  intros Hwf Hb HT.
  destruct (flood_maze_correct m target (fun c => manhattan c target) Hwf HT
              (boundary_lower_estimate m target Hb HT)) as (m' & Hrun & Hinv).
  exists m'. split; [exact Hrun|].
  intros c Hc. exact (inv_lower _ _ _ _ _ _ Hinv c Hc).
Qed.

(** X23.  The boundary walls survive every call of [set_wall_present]
    and every call of [set_wall_absent] on a side that does not face out
    of the grid. *)
Theorem boundary_walled_kept m op :
  wf m -> boundary_walled m -> valid_op op ->
  op_sets op = true \/ off_grid (op_cell op) (op_direction op) = false ->
  boundary_walled (apply_op m op).
Proof.
  intros Hwf Hb Hop Hkind c d Hc Hd Hoff.
  pose proof (wf_walls_length m Hwf) as Hlen.
  destruct op as [x e | x e]; destruct Hop as [Hx He];
    cbn [apply_op op_sets op_cell op_direction] in *.
  - rewrite is_wall_set_wall_present by assumption.
    rewrite (Hb c d Hc Hd Hoff). apply orb_true_r.
  - destruct Hkind as [Hk | Hon]; [discriminate|].
    rewrite is_wall_set_wall_absent by assumption.
    rewrite (Hb c d Hc Hd Hoff), andb_true_r. apply negb_true_iff.
    apply not_true_is_false. intros Ht.
    rewrite orb_true_iff, !andb_true_iff, !Z.eqb_eq in Ht.
    destruct Ht as [[-> ->] | [-> ->]].
    + congruence.
    + rewrite off_grid_neighbour in Hoff by assumption. discriminate.
Qed.

Lemma boundary_walled_initial_maze : boundary_walled initial_maze.
Proof.
  intros c d Hc Hd Hoff.
  assert (Hall : boundary_check_all initial_maze = true) by (vm_compute; reflexivity).
  pose proof (forall_dirs _ (forall_cells _ Hall c Hc) d Hd) as H.
  cbv beta in H. now rewrite Hoff in H.
Qed.

Lemma flood_maze_within_grid_witness :
  wf initial_maze /\ boundary_walled initial_maze /\ is_cell GOAL
  /\ exists m', flood_maze initial_maze GOAL = Some m'
       /\ forall c, is_cell c -> manhattan c GOAL <= rd (m_cost m') c.
Proof.
  split; [exact wf_initial_maze|]. split; [exact boundary_walled_initial_maze|].
  split; [exact is_cell_GOAL|].
  exact (flood_maze_within_grid initial_maze GOAL
           wf_initial_maze boundary_walled_initial_maze is_cell_GOAL).
Defined.

Lemma boundary_walled_kept_witness :
  wf initial_maze /\ boundary_walled initial_maze /\ valid_op (SetAbsent START EAST)
  /\ (op_sets (SetAbsent START EAST) = true
      \/ off_grid (op_cell (SetAbsent START EAST))
                  (op_direction (SetAbsent START EAST)) = false)
  /\ boundary_walled (apply_op initial_maze (SetAbsent START EAST)).
Proof.
  assert (H1 : valid_op (SetAbsent START EAST))
    by (split; [unfold is_cell, START; lia | exact is_dir_EAST]).
  assert (H2 : op_sets (SetAbsent START EAST) = true
               \/ off_grid (op_cell (SetAbsent START EAST))
                           (op_direction (SetAbsent START EAST)) = false)
    by (right; reflexivity).
  split; [exact wf_initial_maze|]. split; [exact boundary_walled_initial_maze|].
  split; [exact H1|]. split; [exact H2|].
  exact (boundary_walled_kept initial_maze _ wf_initial_maze
           boundary_walled_initial_maze H1 H2).
Defined.

(** Without the boundary walls the flood wraps: on a maze without any
    wall, flooded from cell 0, the far corner 255 is one step away. *)
Example flood_wraps_without_boundary :
  option_map (fun m' => (rd (m_cost m') 255, manhattan 255 0))
             (flood_maze Maze_new 0)
  = Some (1, 30).
Proof. vm_compute. reflexivity. Qed.

(** Clearing a wall of the perimeter breaks the boundary: after
    [set_wall_absent] on the north side of cell 15, row 15 of column 0
    opens onto cell 16, row 0 of column 1. *)
Example clearing_the_boundary :
  is_exit (set_wall_absent initial_maze 15 NORTH) 15 NORTH = true
  /\ neighbour 15 NORTH = 16.
Proof. split; vm_compute; reflexivity. Qed.

(** ** The sentinel *)

Lemma constructible_initial_maze : constructible initial_maze.
Proof. rewrite <- initial_maze_eq. apply made_initialise_maze, made_new. Qed.

Lemma constructible_run_ops ops : forall m,
  constructible m -> Forall valid_op ops -> constructible (run_ops m ops).
Proof.
  induction ops as [|op ops IH]; intros m Hm Hops; [exact Hm|].
  apply Forall_cons in Hops as [Hop Hops]. cbn [run_ops fold_left].
  apply IH; [|assumption].
  destruct op as [x e | x e]; destruct Hop as [Hx He]; cbn [apply_op].
  - apply made_set_wall_present; [assumption | exact Hx |].
    unfold is_dir in He. unfold is_u8. lia.
  - apply made_set_wall_absent; [assumption | exact Hx |].
    unfold is_dir in He. unfold is_u8. lia.
Qed.

Lemma constructible_boxed_maze : constructible boxed_maze.
Proof.
  unfold boxed_maze. apply constructible_run_ops.
  - exact constructible_initial_maze.
  - repeat constructor; unfold is_cell, is_dir, NORTH, EAST, SOUTH, WEST; lia.
Qed.

(** The one-sided maze is no state of the object. *)
Lemma one_sided_maze_not_constructible : ~ constructible one_sided_maze.
Proof.
  intros Hm. pose proof (constructible_walls_symmetric _ Hm 0 NORTH) as H.
  assert (Hc : is_cell 0) by (unfold is_cell; lia).
  assert (Hd : is_dir NORTH) by (unfold is_dir, NORTH; lia).
  specialize (H Hc Hd). vm_compute in H. discriminate H.
Qed.

(** C8.  Sentinel correctness.  For every maze the object can hold and
    every target cell, [flood_maze] returns; afterwards the target has
    cost 0, every cell that cannot be reached from the target through
    open passages has cost 255, and so has in particular every cell other
    than the target whose four wall bits are set. *)
Theorem flood_sentinel m target :
  constructible m -> is_cell target ->
  exists m', flood_maze m target = Some m'
    /\ rd (m_cost m') target = 0
    /\ (forall c, is_cell c -> ~ reachable m target c -> rd (m_cost m') c = 255)
    /\ (forall c, is_cell c -> c <> target ->
          (forall d, is_dir d -> is_wall m c d = true) ->
          rd (m_cost m') c = 255).
Proof.
  intros Hm HT.
  pose proof (constructible_wf m Hm) as Hwf.
  pose proof (constructible_walls_symmetric m Hm) as Hsym.
  destruct (sentinel_when_symmetric m target Hwf HT)
    as (m' & Hrun & H0 & Hunreach & Hboxed).
  exists m'. split; [exact Hrun|]. split; [exact H0|]. split; [exact Hunreach|].
  intros c Hc Hne Hwalls. now apply Hboxed.
Qed.

(** In the boxed maze the cell at row 5, column 5 is closed on its four
    sides; flooded for [GOAL] it keeps the sentinel. *)
Lemma flood_sentinel_witness :
  constructible boxed_maze /\ is_cell GOAL
  /\ is_cell 0x55 /\ 0x55 <> GOAL
  /\ (forall d, is_dir d -> is_wall boxed_maze 0x55 d = true)
  /\ exists m', flood_maze boxed_maze GOAL = Some m'
       /\ rd (m_cost m') GOAL = 0
       /\ rd (m_cost m') 0x55 = 255
       /\ (forall c, is_cell c -> ~ reachable boxed_maze GOAL c ->
             rd (m_cost m') c = 255)
       /\ (forall c, is_cell c -> c <> GOAL ->
             (forall d, is_dir d -> is_wall boxed_maze c d = true) ->
             rd (m_cost m') c = 255).
Proof.
  assert (H1 : is_cell GOAL) by (unfold is_cell, GOAL; lia).
  assert (H2 : is_cell 0x55) by (unfold is_cell; lia).
  assert (H3 : 0x55 <> GOAL) by (unfold GOAL; lia).
  assert (H4 : forall d, is_dir d -> is_wall boxed_maze 0x55 d = true)
    by (intros d Hd; dir_cases d Hd; vm_compute; reflexivity).
  split; [exact constructible_boxed_maze|]. repeat (split; [assumption|]).
  destruct (flood_sentinel boxed_maze GOAL constructible_boxed_maze H1)
    as (m' & Hrun & H0 & Hunreach & Hboxed).
  exists m'. split; [exact Hrun|]. split; [exact H0|].
  split; [exact (Hboxed 0x55 H2 H3 H4)|]. split; [exact Hunreach | exact Hboxed].
Defined.
